(** * Shamir secret sharing (package [shamir], file [secretsharing.go])

    A shallow embedding of the Go package and the properties of its
    sharing, reconstruction and share arithmetic.

    Conventions of the embedding.
    - [*big.Int] values are [Z]; a pointer that may be [nil] in a [Share]
      is an [option Z].
    - Go's [int] is taken at its 64-bit size: a [Z] on which every machine
      addition, subtraction and multiplication is followed by [wrap]; the
      conversions to [int64] are then the identity.
    - [*big.Rat] is [Qc], the rationals in lowest terms with a positive
      denominator, which is the representation [big.Rat] keeps after every
      operation.
    - A call either returns a value, returns one of the package's four error
      values, or aborts with a run-time panic: the type [outcome].
    - [crypto/rand] is represented by the sequence [rnd] of values read from
      the random source; [rand.Int] maps each into the requested range, and
      the reader itself does not fail.
    - [make] panics on a negative length and on one whose bytes exceed the
      runtime's limit [maxAlloc]; within that limit the heap is taken to
      provide the memory (running out of it ends the process with a fatal
      error that depends on the machine, not on the program). *)

From Stdlib Require Import ZArith List Bool Lia QArith Qcanon Znumtheory.
From Stdlib Require Import Zdivisibility Zcong.
From Stdlib Require Import Permutation Factorial.
Import ListNotations.

Local Open Scope Z_scope.

(** ** Outcomes of a call *)

Inductive error : Set :=
| ErrorNoShares
| ErrorTooFewShares
| ErrorIncompatibleShares
| ErrorFractionalSecret.

Inductive outcome (A : Type) : Type :=
| Ok (a : A)
| Err (e : error)
| Panic.

Arguments Ok {A} a.
Arguments Err {A} e.
Arguments Panic {A}.

Definition bind {A B : Type} (m : outcome A) (k : A -> outcome B) : outcome B :=
  match m with
  | Ok a => k a
  | Err e => Err e
  | Panic => Panic
  end.

Notation "x <- m ;; k" := (bind m (fun x => k))
  (at level 61, m at next level, right associativity).

(** Dereferencing a pointer: [nil] panics. *)
Definition deref {A : Type} (p : option A) : outcome A :=
  match p with
  | Some a => Ok a
  | None => Panic
  end.

(** [l[i]] for an [int] index: out of range panics. *)
Definition index {A : Type} (l : list A) (i : Z) : outcome A :=
  if i <? 0 then Panic else deref (nth_error l (Z.to_nat i)).

(** The values [0, 1, ..., d] a loop [for i := 0; i <= d; i++] runs through. *)
Definition upto (d : Z) : list Z := map Z.of_nat (seq 0 (Z.to_nat (d + 1))).

(** ** Machine integers *)

Definition max_int : Z := 2 ^ 63 - 1.
Definition min_int : Z := - 2 ^ 63.

Definition wrap (z : Z) : Z := (z + 2 ^ 63) mod 2 ^ 64 - 2 ^ 63.

(** ** The operations of [math/big] the package uses *)

Module big.

(** [Exp(x, y, nil)]: [x**y], and 1 when [y <= 0]. *)
Definition Exp (x y : Z) : Z := if y <=? 0 then 1 else x ^ y.

(** [MulRange(a, b)]: the product of the integers of [[a, b]], 1 when the
    range is empty. *)
Definition MulRange (a b : Z) : Z :=
  fold_left Z.mul (map (fun k => a + Z.of_nat k) (seq 0 (Z.to_nat (b - a + 1)))) 1.

(** [Div] and [Mod] are Euclidean: truncated division, then one
    adjustment when the remainder is negative. Both panic on a zero
    divisor. *)
Definition Div (x y : Z) : outcome Z :=
  if y =? 0 then Panic
  else
    let q := Z.quot x y in
    let r := Z.rem x y in
    Ok (if r <? 0 then (if y <? 0 then q + 1 else q - 1) else q).

Definition Mod (x y : Z) : outcome Z :=
  if y =? 0 then Panic
  else
    let r := Z.rem x y in
    Ok (if r <? 0 then (if y <? 0 then r - y else r + y) else r).

(** [ModInverse(g, n)]: the inverse of [g] in the ring of integers modulo
    [n], in [[0, |n|)], from the Bezout coefficient of the extended gcd;
    [nil] when [g] and [n] are not coprime. The package calls it on the
    denominator of a [big.Rat], which is positive. *)
Definition ModInverse (g n : Z) : option Z :=
  let n := if n <? 0 then - n else n in
  let g := if g <? 0 then g mod n else g in
  let '(x, _, d) := Z.extgcd g n in
  if d =? 1 then Some (x mod n) else None.

(** [big.Rat]: always normalised. *)
Abbreviation Rat := Qc (only parsing).

Definition Z2Rat (z : Z) : Rat := Q2Qc (inject_Z z).

(** [NewRat(a, b)]: the fraction [a/b]; a zero denominator panics. *)
Definition NewRat (a b : Z) : outcome Rat :=
  if b =? 0 then Panic else Ok (Z2Rat a / Z2Rat b)%Qc.

Definition SetInt (y : Z) : Rat := Z2Rat y.
Definition RatMul (x y : Rat) : Rat := (x * y)%Qc.
Definition RatAdd (x y : Rat) : Rat := (x + y)%Qc.
Definition IsInt (x : Rat) : bool := (Z.pos (Qden (this x)) =? 1).
Definition Num (x : Rat) : Z := Qnum (this x).
Definition Denom (x : Rat) : Z := Z.pos (Qden (this x)).

End big.

(** [rand.Int(rand.Reader, max)]: a value of [[0, max)]; panics when
    [max <= 0]. [r] is what the reader supplies. *)
Definition rand_Int (r : Z) (max : Z) : outcome Z :=
  if max <=? 0 then Panic else Ok (r mod max).

(** ** Shares *)

Record Share : Set := mkShare {
  FieldSize : option Z;
  Factor : option Z;
  Degree : Z;
  X : Z;
  Y : option Z
}.

Definition equalOrBothNil (a b : option Z) : bool :=
  match a, b with
  | None, None => true
  | None, _ | _, None => false
  | Some a, Some b => a =? b
  end.

Definition factorial (n : Z) : Z := big.MulRange 1 n.

(** The largest allocation the 64-bit runtime admits, in bytes
    ([runtime.maxAlloc], a heap address space of 48 bits), and the sizes of
    the elements of the two slices the generators make: a [*big.Int] is one
    word, a [Share] is three pointers and two [int]s. *)
Definition maxAlloc : Z := 2 ^ 48.
Definition ptrSize : Z := 8.
Definition shareSize : Z := 5 * ptrSize.

(** [make([]T, n)] for elements of [size] bytes, as [runtime.makeslice]
    checks it: a negative length panics, and so does a length whose
    [size * n] bytes exceed [maxAlloc] ([makeslice: len out of range]). *)
Definition make_len (size n : Z) : outcome nat :=
  if n <? 0 then Panic
  else if maxAlloc <? size * n then Panic
  else Ok (Z.to_nat n).

(** The loop [for i := range coefficients] that fills the coefficients from
    the random source, reading [rnd k], [rnd (k+1)], ... *)
Fixpoint drawCoefficients (rnd : nat -> Z) (max : Z) (k count : nat)
  : outcome (list Z) :=
  match count with
  | O => Ok []
  | S count' =>
      c <- rand_Int (rnd k) max ;;
      cs <- drawCoefficients rnd max (S k) count' ;;
      Ok (c :: cs)
  end.

(** The inner loop of both generators, [for j := range coefficients]: it
    adds [coefficients[j] * x^(j+1)] to [y]; [j] is the index before the
    first coefficient of the list. *)
Fixpoint addTerms (x : Z) (j : Z) (coefficients : list Z) (y : Z) : Z :=
  match coefficients with
  | [] => y
  | c :: cs =>
      let term := big.Exp x (wrap (j + 1)) * c in
      addTerms x (wrap (j + 1)) cs (y + term)
  end.

(** The loop [for i := range shares] as a map over the indices. *)
Fixpoint mapM {A B : Type} (f : A -> outcome B) (l : list A) : outcome (list B) :=
  match l with
  | [] => Ok []
  | a :: l' => b <- f a ;; bs <- mapM f l' ;; Ok (b :: bs)
  end.

Definition ShareFiniteField (secret fieldSize : Z) (degree nShares : Z)
    (rnd : nat -> Z) : outcome (list Share) :=
  dlen <- make_len ptrSize degree ;;
  coefficients <- drawCoefficients rnd fieldSize 0 dlen ;;
  nlen <- make_len shareSize nShares ;;
  mapM (fun i : nat =>
          let x := wrap (Z.of_nat i + 1) in
          y <- big.Mod (addTerms x 0 coefficients secret) fieldSize ;;
          Ok {| FieldSize := Some fieldSize;
                Factor := None;
                Degree := degree;
                X := x;
                Y := Some y |})
       (seq 0 nlen).

Definition coefficientUpperBound (statSecParam nShares secretUpperBound : Z) : Z :=
  big.Exp 2 statSecParam * wrap (nShares * nShares) * secretUpperBound.

Definition ShareIntegers (secret secretUpperBound : Z)
    (statSecParam degree nShares : Z) (rnd : nat -> Z) : outcome (list Share) :=
  let bound := coefficientUpperBound statSecParam nShares secretUpperBound in
  dlen <- make_len ptrSize degree ;;
  coefficients <- drawCoefficients rnd bound 0 dlen ;;
  nlen <- make_len shareSize nShares ;;
  let nFactorial := factorial nShares in
  let secret := secret * nFactorial in
  mapM (fun i : nat =>
          let x := wrap (Z.of_nat i + 1) in
          Ok {| FieldSize := None;
                Factor := Some nFactorial;
                Degree := degree;
                X := x;
                Y := Some (addTerms x 0 coefficients secret) |})
       (seq 0 nlen).

(** ** Reconstruction *)

(** The compatibility test of one share against [shares[0]] in
    [ShareCombine]. *)
Definition combineMismatch (s0 si : Share) : bool :=
  negb (equalOrBothNil (FieldSize s0) (FieldSize si))
  || negb (Degree s0 =? Degree si).

(** The inner loop over [j]: [term] times [x_j / (x_j - x_i)] for [j <> i]. *)
Definition lagrangeStep (shares : list Share) (i : Z) (acc : outcome big.Rat)
    (j : Z) : outcome big.Rat :=
  term <- acc ;;
  if i =? j then Ok term
  else
    sj <- index shares j ;;
    si <- index shares i ;;
    f <- big.NewRat (X sj) (wrap (X sj - X si)) ;;
    Ok (big.RatMul term f).

Definition lagrangeTerm (shares : list Share) (d : Z) (i : Z) : outcome big.Rat :=
  si <- index shares i ;;
  y <- deref (Y si) ;;
  fold_left (lagrangeStep shares i) (upto d) (Ok (big.SetInt y)).

(** The outer loop over [i]. *)
Definition interpolateStep (shares : list Share) (d : Z) (acc : outcome big.Rat)
    (i : Z) : outcome big.Rat :=
  secret <- acc ;;
  term <- lagrangeTerm shares d i ;;
  Ok (big.RatAdd secret term).

Definition interpolate (shares : list Share) (d : Z) : outcome big.Rat :=
  fold_left (interpolateStep shares d) (upto d) (Ok (big.Z2Rat 0)).

Definition ShareCombine (shares : list Share) : outcome Z :=
  match shares with
  | [] => Err ErrorNoShares
  | s0 :: rest =>
      if Z.of_nat (length shares) <=? Degree s0 then Err ErrorTooFewShares
      else if existsb (combineMismatch s0) rest then Err ErrorIncompatibleShares
      else
        secret <- interpolate shares (Degree s0) ;;
        match FieldSize s0 with
        | Some p =>
            inv <- deref (big.ModInverse (big.Denom secret) p) ;;
            big.Mod (big.Num secret * inv) p
        | None =>
            if negb (big.IsInt secret) then Err ErrorFractionalSecret
            else
              f <- deref (Factor s0) ;;
              big.Div (big.Num secret) f
        end
  end.

(** ** Arithmetic on shares *)

(** The compatibility test of [ShareAdd] and [ShareMul]. *)
Definition opMismatch (s0 si : Share) : bool :=
  negb (equalOrBothNil (FieldSize s0) (FieldSize si))
  || negb (Degree s0 =? Degree si)
  || negb (X s0 =? X si).

(** [sum.Y.Mod(sum.Y, sum.FieldSize)] when the field size is set. *)
Definition reduceY (fieldSize : option Z) (y : Z) : outcome Z :=
  match fieldSize with
  | Some p => big.Mod y p
  | None => Ok y
  end.

Definition addStep (s0 : Share) (acc : outcome Share) (si : Share) : outcome Share :=
  sum <- acc ;;
  if opMismatch s0 si then Err ErrorIncompatibleShares
  else
    a <- deref (Y sum) ;;
    b <- deref (Y si) ;;
    y <- reduceY (FieldSize sum) (a + b) ;;
    Ok {| FieldSize := FieldSize sum;
          Factor := Factor sum;
          Degree := Degree sum;
          X := X sum;
          Y := Some y |}.

Definition ShareAdd (shares : list Share) : outcome Share :=
  match shares with
  | [] => Err ErrorNoShares
  | s0 :: rest =>
      y0 <- deref (Y s0) ;;
      fold_left (addStep s0) rest
        (Ok {| FieldSize := FieldSize s0;
               Factor := Factor s0;
               Degree := Degree s0;
               X := X s0;
               Y := Some y0 |})
  end.

Definition mulStep (s0 : Share) (acc : outcome Share) (si : Share) : outcome Share :=
  sum <- acc ;;
  if opMismatch s0 si then Err ErrorIncompatibleShares
  else
    a <- deref (Y sum) ;;
    b <- deref (Y si) ;;
    y <- reduceY (FieldSize sum) (a * b) ;;
    let degree := wrap (Degree sum + Degree si) in
    factor <- match Factor sum with
              | Some f => g <- deref (Factor si) ;; Ok (Some (f * g))
              | None => Ok None
              end ;;
    Ok {| FieldSize := FieldSize sum;
          Factor := factor;
          Degree := degree;
          X := X sum;
          Y := Some y |}.

Definition ShareMul (shares : list Share) : outcome Share :=
  match shares with
  | [] => Err ErrorNoShares
  | s0 :: rest =>
      y0 <- deref (Y s0) ;;
      fold_left (mulStep s0) rest
        (Ok {| FieldSize := FieldSize s0;
               Factor := Factor s0;
               Degree := Degree s0;
               X := X s0;
               Y := Some y0 |})
  end.

(** * Definitions used in the statements *)

(** ** Polynomials with integer coefficients, lowest degree first *)

(** The generators evaluate [secret + sum(j) coeff[j] * x^(j+1)]: the
    polynomial [secret :: coefficients]. *)
Fixpoint peval (c : list Z) (x : Z) : Z :=
  match c with
  | [] => 0
  | c0 :: c' => c0 + x * peval c' x
  end.

(** The quotient of [c] by [X - a]. *)
Fixpoint pquot (a : Z) (c : list Z) : list Z :=
  match c with
  | [] => []
  | _ :: c' =>
      match c' with
      | [] => []
      | _ :: _ => peval c' a :: pquot a c'
      end
  end.

Fixpoint padd (p q : list Z) : list Z :=
  match p, q with
  | [], _ => q
  | _, [] => p
  | a :: p', b :: q' => (a + b) :: padd p' q'
  end.

Fixpoint pmul (p q : list Z) : list Z :=
  match p with
  | [] => []
  | a :: p' => padd (map (Z.mul a) q) (0 :: pmul p' q)
  end.

(** ** Lagrange interpolation at 0 over the rationals *)

(** [x_j / (x_j - x_i)]. *)
Definition ratio (xj xi : Z) : Qc := (big.Z2Rat xj / big.Z2Rat (xj - xi))%Qc.

(** The Lagrange basis value at 0 of the node [x] against the nodes [others]. *)
Fixpoint basis (x : Z) (others : list Z) : Qc :=
  match others with
  | [] => 1%Qc
  | x' :: r => (ratio x' x * basis x r)%Qc
  end.

(** The interpolated value at 0 through the points [(x, F x)], [x] in [l]. *)
Fixpoint lag (F : Z -> Qc) (l : list Z) : Qc :=
  match l with
  | [] => 0%Qc
  | x :: r => (F x * basis x r + lag (fun x' => F x' * ratio x x') r)%Qc
  end.

(** The product the inner loop of [ShareCombine] builds over the nodes
    [post], which sit at positions [pos], [pos+1], ...: position [i] is
    skipped. *)
Fixpoint prodOthers (xi : Z) (i pos : nat) (post : list Z) : Qc :=
  match post with
  | [] => 1%Qc
  | xj :: r =>
      ((if Nat.eqb i pos then 1 else ratio xj xi) * prodOthers xi i (S pos) r)%Qc
  end.

(** The sum the outer loop builds over the nodes [post] at positions [pos],
    [pos+1], ... of the node list [xs]. *)
Fixpoint termSum (xs : list Z) (F : Z -> Qc) (pos : nat) (post : list Z) : Qc :=
  match post with
  | [] => 0%Qc
  | x :: r => (F x * prodOthers x pos 0 xs + termSum xs F (S pos) r)%Qc
  end.

(** Rationals whose denominator is prime to [p]. *)
Definition pint (p : Z) (q : Qc) : Prop :=
  exists a b, ~ (p | b) /\ (q * big.Z2Rat b)%Qc = big.Z2Rat a.

(** [q] is the fraction [n/d]. *)
Definition isFrac (q : Qc) (n d : Z) : Prop :=
  d <> 0 /\ (q * big.Z2Rat d)%Qc = big.Z2Rat n.

(** ** Shares *)

(** [s] passes the compatibility test of [ShareCombine] against [s0]. *)
Definition sameParams (s0 s : Share) : Prop :=
  FieldSize s = FieldSize s0 /\ Degree s = Degree s0.

(** [s] differs from the first share [s0] in domain or field size, in degree,
    or in [x]: what [ShareAdd] and [ShareMul] refuse. *)
Definition differs (s0 s : Share) : Prop :=
  FieldSize s <> FieldSize s0 \/ Degree s <> Degree s0 \/ X s <> X s0.

(** Integer shares that lie on the polynomial [c]. *)
Definition onIntegerPoly (d f : Z) (c : list Z) (s : Share) : Prop :=
  FieldSize s = None /\ Factor s = Some f /\ Degree s = d
  /\ 0 <= X s <= max_int /\ Y s = Some (peval c (X s)).

(** Finite-field shares that lie on the polynomial [c] modulo [p]. *)
Definition onFieldPoly (p d : Z) (c : list Z) (s : Share) : Prop :=
  FieldSize s = Some p /\ Degree s = d
  /\ 1 <= X s <= p /\ X s <= max_int /\ Y s = Some (peval c (X s) mod p).

(** The share of participant [i+1] on the polynomial [c], as
    [ShareFiniteField] and [ShareIntegers] build it. *)
Definition fieldShareAt (p d : Z) (c : list Z) (i : nat) : Share :=
  {| FieldSize := Some p;
     Factor := None;
     Degree := d;
     X := Z.of_nat i + 1;
     Y := Some (peval c (Z.of_nat i + 1) mod p) |}.

Definition intShareAt (f d : Z) (c : list Z) (i : nat) : Share :=
  {| FieldSize := None;
     Factor := Some f;
     Degree := d;
     X := Z.of_nat i + 1;
     Y := Some (peval c (Z.of_nat i + 1)) |}.

(** The assignment [share.X = x]. *)
Definition setX (s : Share) (x : Z) : Share :=
  {| FieldSize := FieldSize s;
     Factor := Factor s;
     Degree := Degree s;
     X := x;
     Y := Y s |}.

(** The assignment [shares[k].X = x]; an index out of range panics. *)
Fixpoint assignX (shares : list Share) (k : nat) (x : Z) : outcome (list Share) :=
  match shares, k with
  | [], _ => Panic
  | s :: rest, O => Ok (setX s x :: rest)
  | s :: rest, S k' => rest' <- assignX rest k' x ;; Ok (s :: rest')
  end.

(** The caller's loop over the participants, as in the package's tests:
    participant [i] applies [op] to the two shares it holds. *)
Definition pointwise (op : list Share -> outcome Share)
    (sharesA sharesB : list Share) : outcome (list Share) :=
  mapM (fun ab => op [fst ab; snd ab]) (combine sharesA sharesB).

(** A call that never returns one of the package's error values: it returns
    a result or panics. *)
Definition noErr {A : Type} (m : outcome A) : Prop := forall e, m <> Err e.

(** ** Worked instances *)

(** A boolean test of primality by trial division. *)
Definition prime_check (p : Z) : bool :=
  (1 <? p) && forallb (fun k => negb (p mod Z.of_nat k =? 0)) (seq 2 (Z.to_nat p - 2)).

(** A fixed random source. *)
Definition rnd_test (k : nat) : Z := 1234567 * (Z.of_nat k + 3) ^ 5 + 89.

(** The coefficients [ShareIntegers(_, 7919, 100, _, 5)] draws from [rnd]. *)
Definition drawn (rnd : nat -> Z) (j : nat) : Z :=
  rnd j mod coefficientUpperBound 100 5 7919.

(** ** Sums, products and the operands of one participant *)

(** The [y] of the share of [l] whose [x] is [x], as a rational. *)
Fixpoint valueAt (l : list Share) (x : Z) : Qc :=
  match l with
  | [] => 0%Qc
  | s :: r =>
      if X s =? x
      then match Y s with Some y => big.Z2Rat y | None => 0%Qc end
      else valueAt r x
  end.

Definition Zsum (l : list Z) : Z := fold_right Z.add 0 l.
Definition Zprod (l : list Z) : Z := fold_right Z.mul 1 l.

(** The degree [ShareMul] accumulates over [k] further shares of degree
    [d]. *)
Fixpoint degreeAfter (acc d : Z) (k : nat) : Z :=
  match k with
  | O => acc
  | S k' => degreeAfter (wrap (acc + d)) d k'
  end.

(** Sum and product of a list of polynomials. *)
Definition psum (cs : list (list Z)) : list Z := fold_right padd [] cs.
Definition pprod (cs : list (list Z)) : list Z := fold_right pmul [1] cs.

(** The operands one participant holds: one share per polynomial of [cs],
    all at the participant's [x]. *)
Definition fieldOperands (p d : Z) (cs : list (list Z)) (x : Z) (row : list Share) : Prop :=
  Forall2 (fun c s => FieldSize s = Some p /\ Factor s = None /\ Degree s = d
                      /\ X s = x /\ Y s = Some (peval c x mod p)) cs row.

Definition integerOperands (d f : Z) (cs : list (list Z)) (x : Z) (row : list Share) : Prop :=
  Forall2 (fun c s => onIntegerPoly d f c s /\ X s = x) cs row.

(** * Properties *)

(** ** Machine integers and [math/big] *)

Lemma wrap_small z : min_int <= z <= max_int -> wrap z = z.
Proof.
  unfold wrap, min_int, max_int. intros H.
  rewrite Z.mod_small; lia.
Qed.

Lemma Mod_pos x p : 0 < p -> big.Mod x p = Ok (x mod p).
Proof.
  intros Hp. unfold big.Mod.
  destruct (Z.eqb_spec p 0) as [->|_]; [lia|].
  f_equal.
  pose proof (Z.rem_bound_abs x p ltac:(lia)) as Hb.
  pose proof (Z.quot_rem' x p) as Hqr.
  destruct (Z.ltb_spec (Z.rem x p) 0) as [Hr|Hr].
  - destruct (Z.ltb_spec p 0); [lia|].
    apply Z.mod_unique_pos with (q := Z.quot x p - 1); lia.
  - apply Z.mod_unique_pos with (q := Z.quot x p); lia.
Qed.

Lemma Div_pos x f : 0 < f -> big.Div x f = Ok (x / f).
Proof.
  intros Hf. unfold big.Div.
  destruct (Z.eqb_spec f 0) as [->|_]; [lia|].
  f_equal.
  pose proof (Z.rem_bound_abs x f ltac:(lia)) as Hb.
  pose proof (Z.quot_rem' x f) as Hqr.
  destruct (Z.ltb_spec (Z.rem x f) 0) as [Hr|Hr].
  - destruct (Z.ltb_spec f 0); [lia|].
    apply Z.div_unique_pos with (r := Z.rem x f + f); lia.
  - apply Z.div_unique_pos with (r := Z.rem x f); lia.
Qed.

(** [Div] is the Euclidean quotient: the remainder lies in [[0, |y|)]. *)
Lemma Div_euclidean x y :
  y <> 0 -> exists q r, big.Div x y = Ok q /\ x = q * y + r /\ 0 <= r < Z.abs y.
Proof.
  intros Hy. unfold big.Div.
  destruct (Z.eqb_spec y 0) as [|_]; [contradiction|].
  pose proof (Z.quot_rem' x y) as Hqr.
  pose proof (Z.rem_bound_abs x y Hy) as Hlt.
  destruct (Z.ltb_spec (Z.rem x y) 0) as [Hr|Hr].
  - destruct (Z.ltb_spec y 0) as [Hy'|Hy'].
    + exists (Z.quot x y + 1), (Z.rem x y - y). split; [reflexivity|]. lia.
    + exists (Z.quot x y - 1), (Z.rem x y + y). split; [reflexivity|]. lia.
  - exists (Z.quot x y), (Z.rem x y). split; [reflexivity|]. lia.
Qed.

Lemma ModInverse_coprime g p :
  0 < g -> 1 < p -> Z.gcd g p = 1 ->
  exists inv, big.ModInverse g p = Some inv /\ (g * inv) mod p = 1.
Proof.
  intros Hg Hp Hgcd. unfold big.ModInverse.
  destruct (Z.ltb_spec p 0); [lia|].
  destruct (Z.ltb_spec g 0); [lia|].
  destruct (Z.extgcd g p) as [[u v] d] eqn:E.
  apply Z.extgcd_correct in E. destruct E as [Hbez ->].
  rewrite Hgcd in *. cbn [Z.eqb Pos.eqb].
  exists (u mod p). split; [reflexivity|].
  rewrite Z.mul_mod_idemp_r by lia.
  replace (g * u) with (1 + (- v) * p) by lia.
  rewrite Z.mod_add by lia. apply Z.mod_1_l. lia.
Qed.

Lemma MulRange_pos a b : 0 < a -> 0 < big.MulRange a b.
Proof.
  intros Ha. unfold big.MulRange.
  assert (H : forall l acc, 0 < acc -> Forall (fun k => 0 < k) l ->
                            0 < fold_left Z.mul l acc).
  { induction l as [|k l IH]; intros acc Hacc Hl; simpl; [assumption|].
    inversion Hl; subst. apply IH; [nia|assumption]. }
  apply H; [lia|].
  apply Forall_forall. intros k Hk. apply in_map_iff in Hk.
  destruct Hk as [i [<- _]]. lia.
Qed.

Lemma factorial_pos n : 0 < factorial n.
Proof. apply MulRange_pos. lia. Qed.

(** ** Rationals *)

Lemma Z2Rat_this z : this (big.Z2Rat z) = inject_Z z.
Proof.
  unfold big.Z2Rat, Q2Qc. cbn [this].
  apply Qred_identity. cbn. apply Z.gcd_1_r.
Qed.

Lemma Z2Rat_add a b : big.Z2Rat (a + b) = (big.Z2Rat a + big.Z2Rat b)%Qc.
Proof.
  unfold Qcplus. rewrite !Z2Rat_this. apply Q2Qc_eq_iff.
  rewrite inject_Z_plus. reflexivity.
Qed.

Lemma Z2Rat_mul a b : big.Z2Rat (a * b) = (big.Z2Rat a * big.Z2Rat b)%Qc.
Proof.
  unfold Qcmult. rewrite !Z2Rat_this. apply Q2Qc_eq_iff.
  rewrite inject_Z_mult. reflexivity.
Qed.

Lemma Z2Rat_opp a : big.Z2Rat (- a) = (- big.Z2Rat a)%Qc.
Proof.
  unfold Qcopp. rewrite !Z2Rat_this. apply Q2Qc_eq_iff.
  rewrite inject_Z_opp. reflexivity.
Qed.

Lemma Z2Rat_sub a b : big.Z2Rat (a - b) = (big.Z2Rat a - big.Z2Rat b)%Qc.
Proof.
  unfold Z.sub, Qcminus. now rewrite Z2Rat_add, Z2Rat_opp.
Qed.

Lemma Z2Rat_inj a b : big.Z2Rat a = big.Z2Rat b -> a = b.
Proof.
  intros H. apply (f_equal this) in H. rewrite !Z2Rat_this in H.
  now injection H.
Qed.

Lemma Z2Rat_0 : big.Z2Rat 0 = 0%Qc.
Proof. apply Qc_is_canon. reflexivity. Qed.

Lemma Z2Rat_1 : big.Z2Rat 1 = 1%Qc.
Proof. apply Qc_is_canon. reflexivity. Qed.

Lemma Z2Rat_nonzero z : z <> 0 -> big.Z2Rat z <> 0%Qc.
Proof.
  intros Hz H. rewrite <- Z2Rat_0 in H. now apply Z2Rat_inj in H.
Qed.

Lemma IsInt_Z2Rat z : big.IsInt (big.Z2Rat z) = true.
Proof. unfold big.IsInt. now rewrite Z2Rat_this. Qed.

Lemma Num_Z2Rat z : big.Num (big.Z2Rat z) = z.
Proof. unfold big.Num. now rewrite Z2Rat_this. Qed.

(** A rational with denominator 1 is its numerator. *)
Lemma IsInt_inv (q : big.Rat) : big.IsInt q = true -> q = big.Z2Rat (big.Num q).
Proof.
  unfold big.IsInt, big.Num. intros H.
  apply Qc_decomp. rewrite Z2Rat_this.
  destruct q as [[n d] Hc]. cbn [this Qnum Qden] in *.
  apply Z.eqb_eq in H. injection H as ->. reflexivity.
Qed.

(** From an equation between rationals to one between integers. *)
Lemma Rat_cross (q : big.Rat) (b m : Z) :
  (q * big.Z2Rat b)%Qc = big.Z2Rat m -> big.Num q * b = m * big.Denom q.
Proof.
  intros H. unfold Qcmult in H. rewrite Z2Rat_this in H.
  unfold big.Z2Rat in H. apply Q2Qc_eq_iff in H.
  unfold Qeq in H. cbn in H. unfold big.Num, big.Denom. lia.
Qed.

Lemma Rat_coprime (q : big.Rat) : Z.gcd (big.Num q) (big.Denom q) = 1.
Proof.
  unfold big.Num, big.Denom. apply Qred_iff. apply canon.
Qed.

(** ** Polynomials with integer coefficients, lowest degree first *)

Lemma pquot_length a c : length (pquot a c) = pred (length c).
Proof.
  induction c as [|c0 c' IH]; [reflexivity|].
  destruct c' as [|c1 c'']; [reflexivity|].
  change (pquot a (c0 :: c1 :: c'')) with (peval (c1 :: c'') a :: pquot a (c1 :: c'')).
  cbn [length pred] in *. now rewrite IH.
Qed.

Lemma pquot_spec a c x :
  peval c x = peval c a + (x - a) * peval (pquot a c) x.
Proof.
  induction c as [|c0 c' IH]; [cbn [peval pquot]; ring|].
  destruct c' as [|c1 c'']; [cbn [peval pquot]; ring|].
  change (pquot a (c0 :: c1 :: c'')) with (peval (c1 :: c'') a :: pquot a (c1 :: c'')).
  remember (c1 :: c'') as c' eqn:Ec. clear Ec.
  cbn [peval]. rewrite IH. ring.
Qed.

Lemma padd_spec p q x : peval (padd p q) x = peval p x + peval q x.
Proof.
  revert q. induction p as [|a p IH]; intros [|b q]; cbn [padd peval]; try ring.
  rewrite IH. ring.
Qed.

Lemma padd_length p q : length (padd p q) = Nat.max (length p) (length q).
Proof.
  revert q. induction p as [|a p IH]; intros [|b q]; cbn [padd length]; try reflexivity.
  now rewrite IH.
Qed.

Lemma pscale_spec a q x : peval (map (Z.mul a) q) x = a * peval q x.
Proof.
  induction q as [|b q IH]; cbn [map peval]; [ring|]. rewrite IH. ring.
Qed.

Lemma pmul_spec p q x : peval (pmul p q) x = peval p x * peval q x.
Proof.
  induction p as [|a p IH]; cbn [pmul peval]; [ring|].
  rewrite padd_spec, pscale_spec. cbn [peval]. rewrite IH. ring.
Qed.

Lemma pmul_length p q :
  (1 <= length q)%nat -> (length (pmul p q) <= length p + length q - 1)%nat.
Proof.
  intros Hq. induction p as [|a p IH]; cbn [pmul length]; [lia|].
  rewrite padd_length, length_map. cbn [length]. lia.
Qed.

(** What the generators' inner loop computes. *)
Lemma addTerms_peval x cs : forall j y,
  0 <= j -> j + Z.of_nat (length cs) <= max_int ->
  addTerms x j cs y = y + x ^ (j + 1) * peval cs x.
Proof.
  induction cs as [|c cs IH]; intros j y Hj Hlen; cbn [addTerms peval].
  - ring.
  - cbn [length] in Hlen.
    rewrite wrap_small by (unfold min_int, max_int in *; lia).
    rewrite IH by lia.
    unfold big.Exp. destruct (Z.leb_spec (j + 1) 0); [lia|].
    replace (j + 1 + 1) with (Z.succ (j + 1)) by lia.
    rewrite (Z.pow_succ_r x (j + 1)) by lia. ring.
Qed.

Lemma addTerms_poly x cs s :
  Z.of_nat (length cs) <= max_int ->
  addTerms x 0 cs s = peval (s :: cs) x.
Proof.
  intros H. rewrite addTerms_peval by lia.
  change (0 + 1) with 1. rewrite Z.pow_1_r. reflexivity.
Qed.

(** ** Lagrange interpolation at 0 over the rationals *)

Local Open Scope Qc_scope.

Lemma lag_ext F G l : (forall x, In x l -> F x = G x) -> lag F l = lag G l.
Proof.
  revert F G. induction l as [|a r IH]; intros F G H; cbn [lag]; [reflexivity|].
  rewrite (H a) by (left; reflexivity).
  f_equal. apply IH. intros x Hx. rewrite (H x) by (right; assumption).
  reflexivity.
Qed.

Lemma lag_add F G l : lag (fun x => F x + G x) l = lag F l + lag G l.
Proof.
  revert F G. induction l as [|a r IH]; intros F G; cbn [lag]; [ring|].
  assert (E : lag (fun x' => (F x' + G x') * ratio a x') r
              = lag (fun x' => F x' * ratio a x') r
                + lag (fun x' => G x' * ratio a x') r).
  { rewrite <- IH. apply lag_ext. intros. ring. }
  rewrite E. ring.
Qed.

Lemma lag_scale k F l : lag (fun x => k * F x) l = k * lag F l.
Proof.
  revert F. induction l as [|a r IH]; intros F; cbn [lag]; [ring|].
  assert (E : lag (fun x' => k * F x' * ratio a x') r
              = k * lag (fun x' => F x' * ratio a x') r).
  { rewrite <- IH. apply lag_ext. intros. ring. }
  rewrite E. ring.
Qed.

Lemma ratio_cancel a x : x <> a -> big.Z2Rat (x - a) * ratio a x = - big.Z2Rat a.
Proof.
  intros Hne. unfold ratio.
  replace (big.Z2Rat (x - a)) with (- big.Z2Rat (a - x))
    by (rewrite <- Z2Rat_opp; f_equal; lia).
  field. apply Z2Rat_nonzero. lia.
Qed.

(** Interpolating [(X - a) G] through nodes that start with [a]. *)
Lemma lag_remove_head G a r :
  ~ In a r ->
  lag (fun x => big.Z2Rat (x - a) * G x) (a :: r) = - big.Z2Rat a * lag G r.
Proof.
  intros Hnot. cbn [lag].
  rewrite Z.sub_diag, Z2Rat_0.
  assert (E : lag (fun x' => big.Z2Rat (x' - a) * G x' * ratio a x') r
              = - big.Z2Rat a * lag G r).
  { rewrite <- lag_scale. apply lag_ext.
    intros x Hx. assert (x <> a) by (intros ->; contradiction).
    rewrite <- (ratio_cancel a x) by assumption. ring. }
  rewrite E. ring.
Qed.

Lemma lag_swap F a b r : lag F (a :: b :: r) = lag F (b :: a :: r).
Proof.
  cbn [lag basis].
  assert (E : lag (fun x' => F x' * ratio a x' * ratio b x') r
              = lag (fun x' => F x' * ratio b x' * ratio a x') r).
  { apply lag_ext. intros. ring. }
  rewrite E. ring.
Qed.

(** The basis values sum to 1. *)
Lemma lag_one : forall n l,
  length l = S n -> NoDup l -> lag (fun _ => 1) l = 1.
Proof.
  induction n as [|n IH]; intros l Hlen Hnd.
  - destruct l as [|a [|b r]]; try discriminate. cbn. ring.
  - destruct l as [|a [|b r]]; try discriminate.
    assert (Hab : a <> b).
    { inversion Hnd as [|? ? Hna _]; subst. intros ->. apply Hna. left. reflexivity. }
    assert (Hnd_b : NoDup (b :: r)) by (inversion Hnd; assumption).
    assert (Hnd_a : NoDup (a :: r)).
    { inversion Hnd as [|? ? Hna Hnd']; subst. inversion Hnd'; subst.
      constructor; [|assumption]. intros Hin. apply Hna. right. assumption. }
    assert (Hd : big.Z2Rat (b - a) <> 0) by (apply Z2Rat_nonzero; lia).
    rewrite (lag_ext (fun _ => 1)
               (fun x => / big.Z2Rat (b - a) * (big.Z2Rat (x - a) * 1)
                         + (- / big.Z2Rat (b - a)) * (big.Z2Rat (x - b) * 1))).
    2:{ intros x _. replace (big.Z2Rat (b - a)) with (big.Z2Rat (x - a) - big.Z2Rat (x - b)).
        - field. replace (big.Z2Rat (x - a) - big.Z2Rat (x - b)) with (big.Z2Rat (b - a)); [assumption|].
          rewrite <- Z2Rat_sub. f_equal. lia.
        - rewrite <- Z2Rat_sub. f_equal. lia. }
    rewrite (lag_add (fun x => / big.Z2Rat (b - a) * (big.Z2Rat (x - a) * 1))
                     (fun x => - / big.Z2Rat (b - a) * (big.Z2Rat (x - b) * 1))).
    rewrite !lag_scale.
    rewrite (lag_swap (fun x => big.Z2Rat (x - b) * 1) a b r).
    rewrite (lag_remove_head (fun _ => 1) a (b :: r)) by (inversion Hnd; assumption).
    rewrite (lag_remove_head (fun _ => 1) b (a :: r)).
    2:{ intros [Heq|Hin]; [congruence|]. inversion Hnd_b; contradiction. }
    rewrite (IH (b :: r)) by (cbn in *; congruence || assumption).
    rewrite (IH (a :: r)) by (cbn in *; congruence || assumption).
    rewrite Z2Rat_sub in *. field. assumption.
Qed.

(** Lagrange's formula recovers the constant term of a polynomial of degree
    below the number of nodes. *)
Theorem lag_peval : forall l c,
  NoDup l -> (length c <= length l)%nat ->
  lag (fun x => big.Z2Rat (peval c x)) l = big.Z2Rat (peval c 0%Z).
Proof.
  induction l as [|a r IH]; intros c Hnd Hlen.
  - destruct c; [|cbn in Hlen; lia]. cbn. now rewrite Z2Rat_0.
  - rewrite (lag_ext _ (fun x => big.Z2Rat (peval c a) * 1
                                 + big.Z2Rat (x - a) * big.Z2Rat (peval (pquot a c) x))).
    2:{ intros x _. rewrite (pquot_spec a c x) at 1.
        rewrite Z2Rat_add, Z2Rat_mul. ring. }
    rewrite (lag_add (fun _ => big.Z2Rat (peval c a) * 1)).
    rewrite lag_scale.
    rewrite (lag_one (length r) (a :: r)) by (reflexivity || assumption).
    rewrite lag_remove_head by (inversion Hnd; assumption).
    rewrite IH.
    + rewrite (pquot_spec a c 0%Z).
      rewrite Z2Rat_add, Z2Rat_mul, Z.sub_0_l, Z2Rat_opp. ring.
    + inversion Hnd; assumption.
    + rewrite pquot_length. cbn [length] in Hlen. lia.
Qed.

Local Close Scope Qc_scope.

(** ** The loops of [ShareCombine] compute Lagrange's formula *)

Local Open Scope Qc_scope.

Lemma prodOthers_shift x i r : forall pos,
  prodOthers x (S i) (S pos) r = prodOthers x i pos r.
Proof.
  induction r as [|a r IH]; intros pos; cbn [prodOthers]; [reflexivity|].
  rewrite IH. reflexivity.
Qed.

Lemma prodOthers_past x i r : forall pos,
  (i < pos)%nat -> prodOthers x i pos r = basis x r.
Proof.
  induction r as [|a r IH]; intros pos Hlt; cbn [prodOthers basis]; [reflexivity|].
  rewrite IH by lia.
  destruct (Nat.eqb_spec i pos); [lia|reflexivity].
Qed.

Lemma termSum_cons a r F post : forall p,
  termSum (a :: r) F (S p) post = termSum r (fun x => F x * ratio a x) p post.
Proof.
  induction post as [|x post IH]; intros p; cbn [termSum]; [reflexivity|].
  rewrite IH. cbn [prodOthers Nat.eqb]. rewrite prodOthers_shift. ring.
Qed.

Lemma termSum_lag : forall xs F, termSum xs F 0 xs = lag F xs.
Proof.
  induction xs as [|a r IH]; intros F; cbn [termSum lag]; [reflexivity|].
  rewrite termSum_cons, IH. cbn [prodOthers Nat.eqb].
  rewrite prodOthers_past by lia. ring.
Qed.

Local Close Scope Qc_scope.

Lemma index_app {A : Type} (pre : list A) (a : A) (post : list A) :
  index (pre ++ a :: post) (Z.of_nat (length pre)) = Ok a.
Proof.
  unfold index. destruct (Z.ltb_spec (Z.of_nat (length pre)) 0); [lia|].
  rewrite Nat2Z.id, nth_error_app2 by lia.
  now rewrite Nat.sub_diag.
Qed.

Lemma index_nth {A : Type} (l : list A) (i : nat) (a : A) :
  nth_error l i = Some a -> index l (Z.of_nat i) = Ok a.
Proof.
  intros H. unfold index. destruct (Z.ltb_spec (Z.of_nat i) 0); [lia|].
  now rewrite Nat2Z.id, H.
Qed.

Lemma NewRat_ratio xj xi :
  0 <= xj <= max_int -> 0 <= xi <= max_int -> xj <> xi ->
  big.NewRat xj (wrap (xj - xi)) = Ok (ratio xj xi).
Proof.
  intros Hj Hi Hne. unfold big.NewRat.
  rewrite wrap_small by (unfold min_int, max_int in *; lia).
  destruct (Z.eqb_spec (xj - xi) 0); [lia|reflexivity].
Qed.

Section Interpolation.

Variable l : list Share.
Variable F : Z -> Qc.

Hypothesis X_range : forall s, In s l -> 0 <= X s <= max_int.
Hypothesis X_nodup : NoDup (map X l).
Hypothesis Y_value : forall s, In s l -> exists y, Y s = Some y /\ F (X s) = big.Z2Rat y.

(** Shares at different positions have different [x]. *)
Lemma X_distinct i j si sj :
  nth_error l i = Some si -> nth_error l j = Some sj -> i <> j -> X sj <> X si.
Proof.
  intros Hi Hj Hne Heq.
  apply Hne. apply (proj1 (NoDup_nth_error (map X l)) X_nodup).
  - rewrite length_map. apply nth_error_Some. congruence.
  - rewrite !nth_error_map, Hi, Hj. cbn. congruence.
Qed.

Lemma lagrangeStep_fold i si :
  nth_error l i = Some si ->
  forall post pre t,
    l = pre ++ post ->
    fold_left (lagrangeStep l (Z.of_nat i))
              (map Z.of_nat (seq (length pre) (length post))) (Ok t)
    = Ok (t * prodOthers (X si) i (length pre) (map X post))%Qc.
Proof.
  intros Hi. induction post as [|sj post IH]; intros pre t Hl.
  - cbn. f_equal. ring.
  - cbn [length seq map fold_left prodOthers].
    assert (Hj : nth_error l (length pre) = Some sj).
    { rewrite Hl, nth_error_app2, Nat.sub_diag by lia. reflexivity. }
    assert (Hstep : lagrangeStep l (Z.of_nat i) (Ok t) (Z.of_nat (length pre))
                    = Ok (t * (if Nat.eqb i (length pre) then 1 else ratio (X sj) (X si)))%Qc).
    { unfold lagrangeStep. cbn [bind].
      destruct (Nat.eqb_spec i (length pre)) as [->|Hne].
      - rewrite Z.eqb_refl. f_equal. ring.
      - destruct (Z.eqb_spec (Z.of_nat i) (Z.of_nat (length pre))); [lia|].
        rewrite (index_nth _ _ _ Hj), (index_nth _ _ _ Hi). cbn [bind].
        rewrite NewRat_ratio.
        + reflexivity.
        + apply X_range. eapply nth_error_In; eassumption.
        + apply X_range. eapply nth_error_In; eassumption.
        + eapply X_distinct; eassumption. }
    rewrite Hstep.
    specialize (IH (pre ++ [sj]) (t * (if Nat.eqb i (length pre) then 1 else ratio (X sj) (X si)))%Qc).
    rewrite length_app, Nat.add_1_r in IH.
    rewrite IH by (rewrite <- app_assoc; assumption).
    f_equal. ring.
Qed.

Lemma lagrangeTerm_value d i si :
  Z.of_nat (length l) = d + 1 ->
  nth_error l i = Some si ->
  lagrangeTerm l d (Z.of_nat i)
  = Ok (F (X si) * prodOthers (X si) i 0 (map X l))%Qc.
Proof.
  intros Hd Hi. unfold lagrangeTerm.
  rewrite (index_nth _ _ _ Hi). cbn [bind].
  destruct (Y_value si) as [y [Hy HF]]; [eapply nth_error_In; eassumption|].
  rewrite Hy. cbn [deref bind]. unfold upto.
  replace (Z.to_nat (d + 1)) with (length l) by lia.
  pose proof (lagrangeStep_fold i si Hi l [] (big.SetInt y) eq_refl) as Hfold.
  cbn [length] in Hfold. rewrite Hfold.
  unfold big.SetInt. rewrite HF. reflexivity.
Qed.

Lemma interpolateStep_fold d :
  Z.of_nat (length l) = d + 1 ->
  forall post pre acc,
    l = pre ++ post ->
    fold_left (interpolateStep l d)
              (map Z.of_nat (seq (length pre) (length post))) (Ok acc)
    = Ok (acc + termSum (map X l) F (length pre) (map X post))%Qc.
Proof.
  intros Hd. induction post as [|si post IH]; intros pre acc Hl.
  - cbn. f_equal. ring.
  - cbn [length seq map fold_left termSum].
    assert (Hi : nth_error l (length pre) = Some si).
    { rewrite Hl, nth_error_app2, Nat.sub_diag by lia. reflexivity. }
    unfold interpolateStep at 2. cbn [bind].
    rewrite (lagrangeTerm_value d _ si Hd Hi). cbn [bind].
    specialize (IH (pre ++ [si])).
    rewrite length_app, Nat.add_1_r in IH.
    unfold big.RatAdd.
    rewrite IH by (rewrite <- app_assoc; assumption).
    f_equal. ring.
Qed.

(** The two loops of [ShareCombine] over exactly [d+1] shares. *)
Theorem interpolate_lag d :
  Z.of_nat (length l) = d + 1 ->
  interpolate l d = Ok (lag F (map X l)).
Proof.
  intros Hd. unfold interpolate, upto.
  replace (Z.to_nat (d + 1)) with (length l) by lia.
  pose proof (interpolateStep_fold d Hd l [] (big.Z2Rat 0) eq_refl) as Hfold.
  cbn [length] in Hfold. rewrite Hfold.
  rewrite termSum_lag, Z2Rat_0. f_equal. ring.
Qed.

End Interpolation.

(** [ShareCombine] reads only [shares[0..d]]. *)

Lemma fold_left_ext_in {A B : Type} (f g : A -> B -> A) (l : list B) :
  (forall a b, In b l -> f a b = g a b) ->
  forall a, fold_left f l a = fold_left g l a.
Proof.
  induction l as [|b l IH]; intros H a; cbn [fold_left]; [reflexivity|].
  rewrite (H a b) by (left; reflexivity).
  apply IH. intros a' b' Hb'. apply H. right. assumption.
Qed.

Lemma in_upto d j : In j (upto d) -> 0 <= j <= d.
Proof.
  unfold upto. intros H. apply in_map_iff in H.
  destruct H as [k [<- Hk]]. apply in_seq in Hk. lia.
Qed.

Lemma index_firstn {A : Type} (l : list A) (d j : Z) :
  0 <= j <= d -> index (firstn (Z.to_nat (d + 1)) l) j = index l j.
Proof.
  intros Hj. unfold index. destruct (Z.ltb_spec j 0); [lia|].
  rewrite nth_error_firstn.
  destruct (Nat.ltb_spec (Z.to_nat j) (Z.to_nat (d + 1))); [reflexivity|lia].
Qed.

Lemma interpolate_firstn shares d :
  interpolate (firstn (Z.to_nat (d + 1)) shares) d = interpolate shares d.
Proof.
  unfold interpolate. apply fold_left_ext_in.
  intros acc i Hi. apply in_upto in Hi.
  unfold interpolateStep. destruct acc as [secret| |]; cbn [bind]; try reflexivity.
  assert (E : lagrangeTerm (firstn (Z.to_nat (d + 1)) shares) d i
              = lagrangeTerm shares d i).
  { unfold lagrangeTerm. rewrite index_firstn by assumption.
    destruct (index shares i) as [si| |]; cbn [bind]; try reflexivity.
    destruct (deref (Y si)) as [y| |]; cbn [bind]; try reflexivity.
    apply fold_left_ext_in. intros t j Hj. apply in_upto in Hj.
    unfold lagrangeStep. rewrite !index_firstn by assumption. reflexivity. }
  now rewrite E.
Qed.

(** ** Reconstruction of a polynomial's constant term *)

Lemma equalOrBothNil_refl a : equalOrBothNil a a = true.
Proof. destruct a; cbn; [apply Z.eqb_refl|reflexivity]. Qed.

Lemma equalOrBothNil_eq a b : equalOrBothNil a b = true <-> a = b.
Proof.
  destruct a, b; cbn; split; intros H; try congruence; try reflexivity.
  - apply Z.eqb_eq in H. congruence.
  - injection H as ->. apply Z.eqb_refl.
Qed.

Lemma combineMismatch_false s0 s :
  combineMismatch s0 s = false <-> sameParams s0 s.
Proof.
  unfold combineMismatch, sameParams.
  rewrite orb_false_iff, !negb_false_iff, equalOrBothNil_eq, Z.eqb_eq.
  split; intros [H1 H2]; split; congruence.
Qed.

Lemma existsb_mismatch_false s0 rest :
  (forall s, In s rest -> sameParams s0 s) ->
  existsb (combineMismatch s0) rest = false.
Proof.
  intros H. induction rest as [|s rest IH]; [reflexivity|].
  cbn [existsb]. rewrite (proj2 (combineMismatch_false s0 s)) by (apply H; left; reflexivity).
  apply IH. intros s' Hs'. apply H. right. assumption.
Qed.

Theorem ShareCombine_integers sub d f c :
  0 <= d -> Z.of_nat (length sub) = d + 1 -> 0 < f ->
  (length c <= length sub)%nat ->
  NoDup (map X sub) ->
  (forall s, In s sub -> onIntegerPoly d f c s) ->
  ShareCombine sub = Ok (peval c 0 / f).
Proof.
  intros Hd0 Hlen Hf Hc Hnd Hall.
  destruct sub as [|s0 rest] eqn:Esub; [cbn in Hlen; lia|].
  rewrite <- Esub in *.
  assert (H0 : onIntegerPoly d f c s0) by (apply Hall; rewrite Esub; left; reflexivity).
  destruct H0 as (Hfs & Hfac & Hdeg & _ & _).
  assert (Hint : interpolate sub d = Ok (big.Z2Rat (peval c 0))).
  { rewrite (interpolate_lag sub (fun x => big.Z2Rat (peval c x))).
    - f_equal. apply lag_peval; [assumption|now rewrite length_map].
    - intros s Hs. apply (Hall s Hs).
    - assumption.
    - intros s Hs. destruct (Hall s Hs) as (_ & _ & _ & _ & Hy). eauto.
    - assumption. }
  rewrite Esub at 1. unfold ShareCombine. rewrite <- Esub.
  rewrite Hdeg. destruct (Z.leb_spec (Z.of_nat (length sub)) d); [lia|].
  rewrite existsb_mismatch_false.
  2:{ intros s Hs. assert (Hs' : In s sub) by (rewrite Esub; right; assumption).
      destruct (Hall s Hs') as (Hfs' & _ & Hdeg' & _). split; congruence. }
  rewrite Hint. cbn [bind]. rewrite Hfs, IsInt_Z2Rat. cbn [negb].
  rewrite Hfac. cbn [deref bind]. rewrite Num_Z2Rat. apply Div_pos. assumption.
Qed.

(** *** The finite-field case *)

Section PIntegral.

Variable p : Z.
Hypothesis p_prime : Z.prime p.

Lemma pint_Z z : pint p (big.Z2Rat z).
Proof.
  exists z, 1. split.
  - intros Hd. pose proof (Z.prime_ge_2 p p_prime).
    apply Z.divide_1_r_nonneg in Hd; lia.
  - rewrite Z2Rat_1. ring.
Qed.

Lemma pint_add q1 q2 : pint p q1 -> pint p q2 -> pint p (q1 + q2)%Qc.
Proof.
  intros (a1 & b1 & Hb1 & E1) (a2 & b2 & Hb2 & E2).
  exists (a1 * b2 + a2 * b1), (b1 * b2). split.
  - intros Hd. apply Z.divide_prime_mul in Hd; tauto.
  - rewrite Z2Rat_add, !Z2Rat_mul, <- E1, <- E2. ring.
Qed.

Lemma pint_mul q1 q2 : pint p q1 -> pint p q2 -> pint p (q1 * q2)%Qc.
Proof.
  intros (a1 & b1 & Hb1 & E1) (a2 & b2 & Hb2 & E2).
  exists (a1 * a2), (b1 * b2). split.
  - intros Hd. apply Z.divide_prime_mul in Hd; tauto.
  - rewrite !Z2Rat_mul, <- E1, <- E2. ring.
Qed.

Lemma pint_ratio xj xi : ~ (p | xj - xi) -> pint p (ratio xj xi).
Proof.
  intros Hd. exists xj, (xj - xi). split; [assumption|].
  unfold ratio. field. apply Z2Rat_nonzero. intros E. apply Hd.
  rewrite E. apply Z.divide_0_r.
Qed.

Lemma pint_basis x r :
  (forall x', In x' r -> ~ (p | x' - x)) -> pint p (basis x r).
Proof.
  induction r as [|x' r IH]; intros H; cbn [basis].
  - rewrite <- Z2Rat_1. apply pint_Z.
  - apply pint_mul.
    + apply pint_ratio. apply H. left. reflexivity.
    + apply IH. intros y Hy. apply H. right. assumption.
Qed.

Lemma pint_lag : forall l F,
  (forall x, In x l -> pint p (F x)) ->
  (forall x x', In x l -> In x' l -> x <> x' -> ~ (p | x - x')) ->
  NoDup l ->
  pint p (lag F l).
Proof.
  induction l as [|a r IH]; intros F HF Hd Hnd; cbn [lag].
  - rewrite <- Z2Rat_0. apply pint_Z.
  - inversion Hnd as [|? ? Hna Hnd']; subst.
    apply pint_add.
    + apply pint_mul; [apply HF; left; reflexivity|].
      apply pint_basis. intros x' Hx'. apply Hd.
      * right. assumption.
      * left. reflexivity.
      * intros ->. contradiction.
    + apply IH; [| |assumption].
      * intros x Hx. apply pint_mul; [apply HF; right; assumption|].
        apply pint_ratio. apply Hd.
        -- left. reflexivity.
        -- right. assumption.
        -- intros ->. contradiction.
      * intros x x' Hx Hx'. apply Hd; right; assumption.
Qed.

(** The last step of the finite-field branch: numerator times the inverse
    of the denominator, modulo [p]. *)
Lemma field_reduce (q K : Qc) (s0 : Z) :
  pint p K ->
  q = (big.Z2Rat s0 - big.Z2Rat p * K)%Qc ->
  exists inv, big.ModInverse (big.Denom q) p = Some inv
              /\ (big.Num q * inv) mod p = s0 mod p.
Proof.
  intros (a & b & Hb & EK) Hq.
  pose proof (Z.prime_ge_2 p p_prime) as Hp2.
  assert (Hcross : big.Num q * b = (s0 * b - p * a) * big.Denom q).
  { apply Rat_cross. rewrite Hq, Z2Rat_sub, !Z2Rat_mul, <- EK. ring. }
  assert (Hden : 0 < big.Denom q) by (unfold big.Denom; lia).
  assert (Hnd : ~ (p | big.Denom q)).
  { intros Hd. apply Hb.
    apply Z.divide_trans with (m := big.Denom q); [assumption|].
    apply Z.gauss with (m := big.Num q).
    - exists (s0 * b - p * a). lia.
    - rewrite Z.gcd_comm. apply Rat_coprime. }
  assert (Hgcd : Z.gcd (big.Denom q) p = 1).
  { rewrite Z.gcd_comm. apply Z.coprime_prime_l; assumption. }
  destruct (ModInverse_coprime (big.Denom q) p Hden ltac:(lia) Hgcd) as [inv [Hinv Hmod]].
  exists inv. split; [assumption|].
  assert (Hdiv : (p | big.Num q - s0 * big.Denom q)).
  { assert (Hprod : (p | (big.Num q - s0 * big.Denom q) * b)).
    { exists (- a * big.Denom q). lia. }
    apply Z.divide_prime_mul in Hprod; [|assumption].
    destruct Hprod; [assumption|contradiction]. }
  destruct Hdiv as [k Hk].
  replace (big.Num q * inv) with (s0 * (big.Denom q * inv) + k * inv * p) by lia.
  rewrite Z.mod_add by lia.
  rewrite <- Z.mul_mod_idemp_r by lia. rewrite Hmod, Z.mul_1_r. reflexivity.
Qed.

End PIntegral.

Theorem ShareCombine_field sub p d c :
  Z.prime p ->
  0 <= d -> Z.of_nat (length sub) = d + 1 ->
  (length c <= length sub)%nat ->
  NoDup (map X sub) ->
  (forall s, In s sub -> onFieldPoly p d c s) ->
  ShareCombine sub = Ok (peval c 0 mod p).
Proof.
  intros Hp Hd0 Hlen Hc Hnd Hall.
  pose proof (Z.prime_ge_2 p Hp) as Hp2.
  destruct sub as [|s0 rest] eqn:Esub; [cbn in Hlen; lia|].
  rewrite <- Esub in *.
  assert (H0 : onFieldPoly p d c s0) by (apply Hall; rewrite Esub; left; reflexivity).
  destruct H0 as (Hfs & Hdeg & _).
  set (F := fun x => big.Z2Rat (peval c x mod p)).
  set (K := fun x => big.Z2Rat (peval c x / p)).
  assert (Hint : interpolate sub d = Ok (lag F (map X sub))).
  { apply interpolate_lag; [| assumption | | assumption].
    - intros s Hs. destruct (Hall s Hs) as (_ & _ & ? & ? & _). lia.
    - intros s Hs. destruct (Hall s Hs) as (_ & _ & _ & _ & Hy). eauto. }
  assert (Hsplit : lag F (map X sub)
                   = (big.Z2Rat (peval c 0) - big.Z2Rat p * lag K (map X sub))%Qc).
  { rewrite <- (lag_peval (map X sub) c) by (assumption || now rewrite length_map).
    rewrite (lag_ext F (fun x => big.Z2Rat (peval c x) + (- big.Z2Rat p) * K x)%Qc).
    - rewrite (lag_add (fun x => big.Z2Rat (peval c x))), lag_scale. ring.
    - intros x _. unfold F, K. rewrite Z.mod_eq by lia.
      rewrite Z2Rat_sub, Z2Rat_mul. ring. }
  assert (HK : pint p (lag K (map X sub))).
  { apply pint_lag; [assumption| | |assumption].
    - intros x _. apply pint_Z. assumption.
    - intros x x' Hx Hx' Hne [k Hk].
      apply in_map_iff in Hx. destruct Hx as [s [<- Hs]].
      apply in_map_iff in Hx'. destruct Hx' as [s' [<- Hs']].
      destruct (Hall s Hs) as (_ & _ & ? & _).
      destruct (Hall s' Hs') as (_ & _ & ? & _).
      assert (k = 0) by nia. subst k. lia. }
  destruct (field_reduce p Hp _ _ _ HK Hsplit) as [inv [Hinv Hmod]].
  rewrite Esub at 1. unfold ShareCombine. rewrite <- Esub.
  rewrite Hdeg. destruct (Z.leb_spec (Z.of_nat (length sub)) d); [lia|].
  rewrite existsb_mismatch_false.
  2:{ intros s Hs. assert (Hs' : In s sub) by (rewrite Esub; right; assumption).
      destruct (Hall s Hs') as (Hfs' & Hdeg' & _). split; congruence. }
  rewrite Hint. cbn [bind]. rewrite Hfs, Hinv. cbn [deref bind].
  rewrite Mod_pos by lia. now rewrite Hmod.
Qed.

(** ** What the generators return *)

Lemma mapM_ok {A B : Type} (f : A -> outcome B) (g : A -> B) (l : list A) :
  (forall a, In a l -> f a = Ok (g a)) -> mapM f l = Ok (map g l).
Proof.
  induction l as [|a l IH]; intros H; cbn [mapM map]; [reflexivity|].
  rewrite (H a) by (left; reflexivity). cbn [bind].
  rewrite IH by (intros a' Ha'; apply H; right; assumption).
  reflexivity.
Qed.

Lemma make_len_ok size n :
  0 <= n -> size * n <= maxAlloc -> make_len size n = Ok (Z.to_nat n).
Proof.
  intros Hn Hs. unfold make_len.
  destruct (Z.ltb_spec n 0); [lia|].
  destruct (Z.ltb_spec maxAlloc (size * n)); [lia|reflexivity].
Qed.

Lemma make_len_inv size n k :
  make_len size n = Ok k -> 0 <= n /\ size * n <= maxAlloc /\ k = Z.to_nat n.
Proof.
  unfold make_len.
  destruct (Z.ltb_spec n 0); [discriminate|].
  destruct (Z.ltb_spec maxAlloc (size * n)); [discriminate|].
  intros Hk. injection Hk as <-. repeat split; lia.
Qed.

Lemma make_len_noErr size n : noErr (make_len size n).
Proof.
  unfold make_len. intros e.
  destruct (n <? 0); [discriminate|]. destruct (maxAlloc <? size * n); discriminate.
Qed.

(** Lengths [make] accepts fit a machine integer. *)
Lemma alloc_int n : ptrSize * n <= maxAlloc \/ shareSize * n <= maxAlloc -> n <= max_int.
Proof. unfold ptrSize, shareSize, ptrSize, maxAlloc, max_int. lia. Qed.

Lemma drawCoefficients_length rnd max count : forall k cs,
  drawCoefficients rnd max k count = Ok cs -> length cs = count.
Proof.
  induction count as [|count IH]; intros k cs H; cbn [drawCoefficients] in H.
  - injection H as <-. reflexivity.
  - destruct (rand_Int (rnd k) max) as [c| |]; cbn [bind] in H; try discriminate.
    destruct (drawCoefficients rnd max (S k) count) as [cs'| |] eqn:E;
      cbn [bind] in H; try discriminate.
    injection H as <-. cbn [length]. f_equal. eapply IH. eassumption.
Qed.

Lemma drawCoefficients_runs rnd max count : forall k,
  0 < max -> exists cs, drawCoefficients rnd max k count = Ok cs.
Proof.
  induction count as [|count IH]; intros k Hmax; cbn [drawCoefficients].
  - eauto.
  - unfold rand_Int. destruct (Z.leb_spec max 0); [lia|]. cbn [bind].
    destruct (IH (S k) Hmax) as [cs ->]. cbn [bind]. eauto.
Qed.

Lemma ShareFiniteField_value secret p d n rnd :
  0 < p -> 0 <= d -> ptrSize * d <= maxAlloc ->
  0 <= n -> shareSize * n <= maxAlloc ->
  exists cs, length cs = Z.to_nat d
    /\ ShareFiniteField secret p d n rnd
       = Ok (map (fieldShareAt p d (secret :: cs)) (seq 0 (Z.to_nat n))).
Proof.
  intros Hp Hd Hda Hn Hna. unfold ShareFiniteField.
  pose proof (alloc_int d (or_introl Hda)) as Hdi.
  pose proof (alloc_int n (or_intror Hna)) as Hni.
  rewrite make_len_ok by assumption. cbn [bind].
  destruct (drawCoefficients_runs rnd p (Z.to_nat d) 0%nat Hp) as [cs Hcs].
  rewrite Hcs. cbn [bind].
  pose proof (drawCoefficients_length _ _ _ _ _ Hcs) as Hlen.
  rewrite make_len_ok by assumption. cbn [bind].
  exists cs. split; [assumption|].
  apply mapM_ok. intros i Hi. apply in_seq in Hi.
  rewrite wrap_small by (unfold min_int, max_int in *; lia).
  rewrite addTerms_poly by lia.
  rewrite Mod_pos by assumption. reflexivity.
Qed.

Lemma ShareIntegers_value secret B sigma d n rnd shares :
  0 <= d <= max_int -> 0 <= n <= max_int ->
  ShareIntegers secret B sigma d n rnd = Ok shares ->
  exists cs, length cs = Z.to_nat d
    /\ shares = map (intShareAt (factorial n) d (secret * factorial n :: cs))
                    (seq 0 (Z.to_nat n)).
Proof.
  intros Hd Hn. unfold ShareIntegers.
  destruct (make_len ptrSize d) as [dlen| |] eqn:Ed; cbn [bind]; try discriminate.
  apply make_len_inv in Ed. destruct Ed as (_ & _ & ->).
  destruct (drawCoefficients rnd _ 0 (Z.to_nat d)) as [cs| |] eqn:Hcs;
    cbn [bind]; try discriminate.
  pose proof (drawCoefficients_length _ _ _ _ _ Hcs) as Hlen.
  destruct (make_len shareSize n) as [nlen| |] eqn:En; cbn [bind]; try discriminate.
  apply make_len_inv in En. destruct En as (_ & _ & ->).
  rewrite mapM_ok with (g := intShareAt (factorial n) d (secret * factorial n :: cs)).
  - intros H'. injection H' as <-. eauto.
  - intros i Hi. apply in_seq in Hi.
    rewrite wrap_small by (unfold min_int, max_int in *; lia).
    rewrite addTerms_poly by lia. reflexivity.
Qed.

Lemma ShareIntegers_runs secret B sigma d n rnd :
  0 <= d -> ptrSize * d <= maxAlloc -> 0 <= n -> shareSize * n <= maxAlloc ->
  d = 0 \/ 0 < coefficientUpperBound sigma n B ->
  exists shares, ShareIntegers secret B sigma d n rnd = Ok shares.
Proof.
  intros Hd Hda Hn Hna Hb. unfold ShareIntegers.
  rewrite make_len_ok by assumption. cbn [bind].
  assert (Hdraw : exists cs, drawCoefficients rnd (coefficientUpperBound sigma n B)
                               0 (Z.to_nat d) = Ok cs).
  { destruct Hb as [->|Hb]; [cbn; eauto|]. now apply drawCoefficients_runs. }
  destruct Hdraw as [cs ->]. cbn [bind].
  rewrite make_len_ok by assumption. cbn [bind].
  erewrite mapM_ok; [eauto|]. intros i _. reflexivity.
Qed.

(** A duplicate-free selection from generated shares has distinct [x]. *)
Lemma selection_nodes (g : nat -> Share) (n : nat) (sub : list Share) :
  (forall i, X (g i) = Z.of_nat i + 1) ->
  NoDup sub -> incl sub (map g (seq 0 n)) -> NoDup (map X sub).
Proof.
  intros HX Hnd Hincl.
  apply NoDup_map_NoDup_ForallPairs; [|assumption].
  intros a b Ha Hb Heq.
  apply Hincl, in_map_iff in Ha. destruct Ha as [i [<- _]].
  apply Hincl, in_map_iff in Hb. destruct Hb as [j [<- _]].
  rewrite !HX in Heq. f_equal. lia.
Qed.

(** The generated shares are pairwise different: their [x] are. *)
Lemma generated_NoDup (g : nat -> Share) (n : nat) :
  (forall i, X (g i) = Z.of_nat i + 1) -> NoDup (map g (seq 0 n)).
Proof.
  intros HX. apply NoDup_map_NoDup_ForallPairs; [|apply seq_NoDup].
  intros i j _ _ Heq. apply (f_equal X) in Heq. rewrite !HX in Heq. lia.
Qed.

Lemma coefficientUpperBound_pos sigma n B :
  0 < wrap (n * n) * B -> 0 < coefficientUpperBound sigma n B.
Proof.
  intros H. unfold coefficientUpperBound, big.Exp.
  assert (0 < (if sigma <=? 0 then 1 else 2 ^ sigma)).
  { destruct (Z.leb_spec sigma 0); [lia|]. apply Z.pow_pos_nonneg; lia. }
  rewrite <- Z.mul_assoc. nia.
Qed.

Lemma prime_check_correct p : prime_check p = true -> Z.prime p.
Proof.
  unfold prime_check. rewrite andb_true_iff, forallb_forall.
  intros [Hp Hall]. apply Z.ltb_lt in Hp. split; [assumption|].
  intros k Hk Hdiv.
  specialize (Hall (Z.to_nat k)). rewrite in_seq in Hall.
  specialize (Hall ltac:(lia)). rewrite Z2Nat.id in Hall by lia.
  apply negb_true_iff, Z.eqb_neq in Hall. apply Hall.
  apply Z.mod_divide; [lia|assumption].
Qed.

Lemma prime_7919 : Z.prime 7919.
Proof. apply prime_check_correct. vm_compute. reflexivity. Qed.

(** * Round trips *)

(** C1, for [n <= p] and lengths [make] accepts: for every secret, prime
    [p], degree [0 <= d], share count [d < n <= p] and every random source,
    [ShareFiniteField] returns [n] pairwise different shares, and
    [ShareCombine] on any [d+1] distinct ones of them, in any order, returns
    [secret mod p]. *)
Theorem ShareFiniteField_roundtrip (secret p d n : Z) (rnd : nat -> Z) :
  Z.prime p -> 0 <= d < n -> n <= p ->
  ptrSize * d <= maxAlloc -> shareSize * n <= maxAlloc ->
  exists shares,
    ShareFiniteField secret p d n rnd = Ok shares
    /\ Z.of_nat (length shares) = n
    /\ NoDup shares
    /\ forall sub,
         NoDup sub -> incl sub shares -> Z.of_nat (length sub) = d + 1 ->
         ShareCombine sub = Ok (secret mod p).
Proof.
  intros Hp Hd Hnp Hda Hna.
  pose proof (Z.prime_ge_2 p Hp) as Hp2.
  pose proof (alloc_int n (or_intror Hna)) as Hni.
  destruct (ShareFiniteField_value secret p d n rnd) as [cs [Hcs Hgen]]; try lia.
  eexists. split; [exact Hgen|].
  split; [rewrite length_map, length_seq; lia|].
  split; [apply generated_NoDup; reflexivity|].
  intros sub Hnd Hincl Hlen.
  rewrite (ShareCombine_field sub p d (secret :: cs)); try assumption; try lia.
  - do 2 f_equal. cbn [peval]. ring.
  - cbn [length]. lia.
  - eapply selection_nodes; [|eassumption|eassumption]. reflexivity.
  - intros s Hs. apply Hincl, in_map_iff in Hs. destruct Hs as [i [<- Hi]].
    apply in_seq in Hi. unfold onFieldPoly, fieldShareAt.
    cbn [FieldSize Degree X Y]. repeat split; lia.
Qed.

Lemma ShareFiniteField_roundtrip_witness :
  exists shares,
    ShareFiniteField 123 7919 3 5 rnd_test = Ok shares
    /\ Z.of_nat (length shares) = 5
    /\ NoDup shares
    /\ forall sub,
         NoDup sub -> incl sub shares -> Z.of_nat (length sub) = 3 + 1 ->
         ShareCombine sub = Ok (123 mod 7919).
Proof.
  apply (ShareFiniteField_roundtrip 123 7919 3 5 rnd_test).
  - exact prime_7919.
  - lia.
  - lia.
  - unfold ptrSize, maxAlloc. lia.
  - unfold shareSize, ptrSize, maxAlloc. lia.
Defined.

(** C1 needs [n <= p]: with [p = 2], [d = 1], [n = 3], secret 0
    and coefficient 1, the shares at [x = 1] and [x = 3] reconstruct 1. It
    also needs lengths [make] accepts: with [p = 7], [d = 2^62] and
    [n = 2^62 + 1] the generator panics. *)
Lemma ShareFiniteField_roundtrip_counterexample :
  Z.prime 2
  /\ ShareFiniteField 0 2 1 3 (fun _ => 1)
     = Ok [mkShare (Some 2) None 1 1 (Some 1);
           mkShare (Some 2) None 1 2 (Some 0);
           mkShare (Some 2) None 1 3 (Some 1)]
  /\ ShareCombine [mkShare (Some 2) None 1 1 (Some 1);
                   mkShare (Some 2) None 1 3 (Some 1)] = Ok 1
  /\ 0 mod 2 = 0
  /\ Z.prime 7
  /\ ShareFiniteField 5 7 (2 ^ 62) (2 ^ 62 + 1) (fun _ => 1) = Panic.
Proof.
  split; [exact Z.prime_2|].
  do 3 (split; [vm_compute; reflexivity|]).
  split; [apply prime_check_correct; reflexivity|]. vm_compute. reflexivity.
Qed.

(** C2, when the generator returns: for every secret, bound [B], [sigma],
    degree [0 <= d], share count [n > d] with lengths [make] accepts, and
    every random source, provided no coefficient is drawn ([d = 0]) or the
    bound handed to [rand.Int] is positive ([nShares*nShares], as an [int],
    times [B]; the power of two is at least 1), [ShareIntegers] returns [n]
    pairwise different shares, and [ShareCombine] on any [d+1] distinct ones
    of them, in any order, returns exactly [secret]. The bound on the secret
    plays no part in the reconstruction. *)
Theorem ShareIntegers_roundtrip (secret B sigma d n : Z) (rnd : nat -> Z) :
  0 <= d < n ->
  ptrSize * d <= maxAlloc -> shareSize * n <= maxAlloc ->
  d = 0 \/ 0 < wrap (n * n) * B ->
  exists shares,
    ShareIntegers secret B sigma d n rnd = Ok shares
    /\ Z.of_nat (length shares) = n
    /\ NoDup shares
    /\ forall sub,
         NoDup sub -> incl sub shares -> Z.of_nat (length sub) = d + 1 ->
         ShareCombine sub = Ok secret.
Proof.
  intros Hd Hda Hna Hb.
  pose proof (alloc_int d (or_introl Hda)) as Hdi.
  pose proof (alloc_int n (or_intror Hna)) as Hni.
  destruct (ShareIntegers_runs secret B sigma d n rnd) as [shares Hgen]; try lia.
  { destruct Hb as [Hb|Hb]; [left; assumption|right].
    now apply coefficientUpperBound_pos. }
  exists shares. split; [assumption|].
  destruct (ShareIntegers_value secret B sigma d n rnd shares
              ltac:(lia) ltac:(lia) Hgen) as [cs [Hcs ->]].
  split; [rewrite length_map, length_seq; lia|].
  split; [apply generated_NoDup; reflexivity|].
  intros sub Hnd Hincl Hlen.
  pose proof (factorial_pos n) as Hf.
  rewrite (ShareCombine_integers sub d (factorial n) (secret * factorial n :: cs));
    try assumption; try lia.
  - f_equal. cbn [peval]. rewrite Z.mul_0_l, Z.add_0_r. apply Z.div_mul. lia.
  - cbn [length]. lia.
  - eapply selection_nodes; [|eassumption|eassumption]. reflexivity.
  - intros s Hs. apply Hincl, in_map_iff in Hs. destruct Hs as [i [<- Hi]].
    apply in_seq in Hi. unfold onIntegerPoly, intShareAt.
    cbn [FieldSize Factor Degree X Y]. repeat split; lia.
Qed.

Lemma ShareIntegers_roundtrip_witness :
  exists shares,
    ShareIntegers 123 10000 100 3 5 rnd_test = Ok shares
    /\ Z.of_nat (length shares) = 5
    /\ NoDup shares
    /\ forall sub,
         NoDup sub -> incl sub shares -> Z.of_nat (length sub) = 3 + 1 ->
         ShareCombine sub = Ok 123.
Proof.
  apply (ShareIntegers_roundtrip 123 10000 100 3 5 rnd_test).
  - lia.
  - unfold ptrSize, maxAlloc. lia.
  - unfold shareSize, ptrSize, maxAlloc. lia.
  - right. vm_compute. reflexivity.
Defined.

(** C2 needs the generator to return. With [secret = 0], [B = 0], [d = 1],
    [n = 2] the bound handed to [rand.Int] is 0 and the call panics; with
    [n = 2^32] the product [nShares*nShares] wraps to 0 and the call panics
    whatever [B]; with [d = 2^62] the first [make] panics. *)
Lemma ShareIntegers_roundtrip_counterexample :
  Z.abs 0 <= 0
  /\ ShareIntegers 0 0 100 1 2 rnd_test = Panic
  /\ Z.abs 1 <= 10
  /\ wrap (2 ^ 32 * 2 ^ 32) = 0
  /\ ShareIntegers 1 10 10 1 (2 ^ 32) rnd_test = Panic
  /\ ShareIntegers 1 10 10 (2 ^ 62) (2 ^ 62 + 1) rnd_test = Panic.
Proof.
  split; [vm_compute; discriminate|].
  split; [vm_compute; reflexivity|].
  split; [vm_compute; discriminate|].
  repeat split; vm_compute; reflexivity.
Qed.

(** * Arithmetic on shares *)

Lemma pointwise_map (op : list Share -> outcome Share) (gA gB g : nat -> Share)
    (l : list nat) :
  (forall i, In i l -> op [gA i; gB i] = Ok (g i)) ->
  pointwise op (map gA l) (map gB l) = Ok (map g l).
Proof.
  unfold pointwise. induction l as [|i l IH]; intros H; [reflexivity|].
  cbn [map combine mapM fst snd]. rewrite (H i) by (left; reflexivity).
  cbn [bind]. rewrite IH by (intros j Hj; apply H; right; assumption).
  reflexivity.
Qed.

Lemma opMismatch_same s0 s :
  FieldSize s = FieldSize s0 -> Degree s = Degree s0 -> X s = X s0 ->
  opMismatch s0 s = false.
Proof.
  intros H1 H2 H3. unfold opMismatch. rewrite H1, H2, H3.
  now rewrite equalOrBothNil_refl, !Z.eqb_refl.
Qed.

Ltac run_pair :=
  unfold ShareAdd, ShareMul, addStep, mulStep, fieldShareAt, intShareAt;
  cbn [fold_left Y deref bind];
  rewrite opMismatch_same by reflexivity;
  cbn [Y deref bind FieldSize Factor Degree X reduceY].

Lemma ShareAdd_field_pair p d cA cB i :
  0 < p ->
  ShareAdd [fieldShareAt p d cA i; fieldShareAt p d cB i]
  = Ok (fieldShareAt p d (padd cA cB) i).
Proof.
  intros Hp. run_pair. rewrite Mod_pos by assumption. cbn [bind].
  now rewrite padd_spec, <- Z.add_mod by lia.
Qed.

Lemma ShareAdd_int_pair f d cA cB i :
  ShareAdd [intShareAt f d cA i; intShareAt f d cB i]
  = Ok (intShareAt f d (padd cA cB) i).
Proof.
  run_pair. now rewrite padd_spec.
Qed.

Lemma ShareMul_field_pair p d cA cB i :
  0 < p -> min_int <= d + d <= max_int ->
  ShareMul [fieldShareAt p d cA i; fieldShareAt p d cB i]
  = Ok (fieldShareAt p (d + d) (pmul cA cB) i).
Proof.
  intros Hp Hd. run_pair. rewrite Mod_pos by assumption. cbn [bind].
  rewrite wrap_small by assumption.
  now rewrite pmul_spec, <- Z.mul_mod by lia.
Qed.

Lemma ShareMul_int_pair fA fB d cA cB i :
  min_int <= d + d <= max_int ->
  ShareMul [intShareAt fA d cA i; intShareAt fB d cB i]
  = Ok (intShareAt (fA * fB) (d + d) (pmul cA cB) i).
Proof.
  intros Hd. run_pair. rewrite wrap_small by assumption.
  now rewrite pmul_spec.
Qed.

(** C4, for [n <= p] and sharings that return: two secrets shared with the
    same degree and share count (lengths [make] accepts), added share by
    share. The [n] sums are pairwise different. Over a prime field with
    [n <= p], any [d+1] of the sums reconstruct [(sA + sB) mod p]; over the
    integers, where the sharings return when [d = 0] or both bounds handed
    to [rand.Int] are positive, any [d+1] of the sums reconstruct [sA + sB];
    for every random source on both sides. *)
Theorem ShareAdd_homomorphic (sA sB d n : Z) (rndA rndB : nat -> Z) :
  0 <= d < n -> ptrSize * d <= maxAlloc -> shareSize * n <= maxAlloc ->
  (forall p, Z.prime p -> n <= p ->
     exists sharesA sharesB sums,
       ShareFiniteField sA p d n rndA = Ok sharesA
       /\ ShareFiniteField sB p d n rndB = Ok sharesB
       /\ pointwise ShareAdd sharesA sharesB = Ok sums
       /\ Z.of_nat (length sums) = n
       /\ NoDup sums
       /\ forall sub,
            NoDup sub -> incl sub sums -> Z.of_nat (length sub) = d + 1 ->
            ShareCombine sub = Ok ((sA + sB) mod p))
  /\ (forall BA sigmaA BB sigmaB,
        d = 0 \/ (0 < wrap (n * n) * BA /\ 0 < wrap (n * n) * BB) ->
        exists sharesA sharesB sums,
          ShareIntegers sA BA sigmaA d n rndA = Ok sharesA
          /\ ShareIntegers sB BB sigmaB d n rndB = Ok sharesB
          /\ pointwise ShareAdd sharesA sharesB = Ok sums
          /\ Z.of_nat (length sums) = n
          /\ NoDup sums
          /\ forall sub,
               NoDup sub -> incl sub sums -> Z.of_nat (length sub) = d + 1 ->
               ShareCombine sub = Ok (sA + sB)).
Proof.
  intros Hd Hda Hna.
  pose proof (alloc_int d (or_introl Hda)) as Hdi.
  pose proof (alloc_int n (or_intror Hna)) as Hni.
  split.
  - intros p Hp Hnp. pose proof (Z.prime_ge_2 p Hp) as Hp2.
    destruct (ShareFiniteField_value sA p d n rndA) as [cA [HcA HgenA]]; try lia.
    destruct (ShareFiniteField_value sB p d n rndB) as [cB [HcB HgenB]]; try lia.
    do 3 eexists. split; [exact HgenA|]. split; [exact HgenB|]. split; [|split; [|split]].
    + apply pointwise_map. intros i _. apply ShareAdd_field_pair. lia.
    + rewrite length_map, length_seq. lia.
    + apply generated_NoDup. reflexivity.
    + intros sub Hnd Hincl Hlen.
      rewrite (ShareCombine_field sub p d (padd (sA :: cA) (sB :: cB)));
        try assumption; try lia.
      * do 2 f_equal. rewrite padd_spec. cbn [peval]. ring.
      * rewrite padd_length. cbn [length]. lia.
      * eapply selection_nodes; [|eassumption|eassumption]. reflexivity.
      * intros s Hs. apply Hincl, in_map_iff in Hs. destruct Hs as [i [<- Hi]].
        apply in_seq in Hi. unfold onFieldPoly, fieldShareAt.
        cbn [FieldSize Degree X Y]. repeat split; lia.
  - intros BA sigmaA BB sigmaB Hb.
    destruct (ShareIntegers_runs sA BA sigmaA d n rndA) as [sharesA HgenA]; try lia.
    { destruct Hb as [Hb|[Hb _]]; [left; assumption|right].
      now apply coefficientUpperBound_pos. }
    destruct (ShareIntegers_runs sB BB sigmaB d n rndB) as [sharesB HgenB]; try lia.
    { destruct Hb as [Hb|[_ Hb]]; [left; assumption|right].
      now apply coefficientUpperBound_pos. }
    exists sharesA, sharesB.
    destruct (ShareIntegers_value sA BA sigmaA d n rndA sharesA
                ltac:(lia) ltac:(lia) HgenA) as [cA [HcA EA]].
    destruct (ShareIntegers_value sB BB sigmaB d n rndB sharesB
                ltac:(lia) ltac:(lia) HgenB) as [cB [HcB EB]].
    pose proof (factorial_pos n) as Hf.
    eexists. split; [exact HgenA|]. split; [exact HgenB|]. rewrite EA, EB.
    split; [|split; [|split]].
    + apply pointwise_map. intros i _. apply ShareAdd_int_pair.
    + rewrite length_map, length_seq. lia.
    + apply generated_NoDup. reflexivity.
    + intros sub Hnd Hincl Hlen.
      rewrite (ShareCombine_integers sub d (factorial n)
                 (padd (sA * factorial n :: cA) (sB * factorial n :: cB)));
        try assumption; try lia.
      * f_equal. rewrite padd_spec. cbn [peval].
        replace (sA * factorial n + 0 * peval cA 0 + (sB * factorial n + 0 * peval cB 0))
          with ((sA + sB) * factorial n) by ring.
        apply Z.div_mul. lia.
      * rewrite padd_length. cbn [length]. lia.
      * eapply selection_nodes; [|eassumption|eassumption]. reflexivity.
      * intros s Hs. apply Hincl, in_map_iff in Hs. destruct Hs as [i [<- Hi]].
        apply in_seq in Hi. unfold onIntegerPoly, intShareAt.
        cbn [FieldSize Factor Degree X Y]. repeat split; lia.
Qed.

Lemma ShareAdd_homomorphic_witness :
  (forall p, Z.prime p -> 4 <= p ->
     exists sharesA sharesB sums,
       ShareFiniteField 123 p 3 4 rnd_test = Ok sharesA
       /\ ShareFiniteField 456 p 3 4 (fun k => rnd_test (k + 7)) = Ok sharesB
       /\ pointwise ShareAdd sharesA sharesB = Ok sums
       /\ Z.of_nat (length sums) = 4
       /\ NoDup sums
       /\ forall sub,
            NoDup sub -> incl sub sums -> Z.of_nat (length sub) = 3 + 1 ->
            ShareCombine sub = Ok ((123 + 456) mod p))
  /\ (forall BA sigmaA BB sigmaB,
        3 = 0 \/ (0 < wrap (4 * 4) * BA /\ 0 < wrap (4 * 4) * BB) ->
        exists sharesA sharesB sums,
          ShareIntegers 123 BA sigmaA 3 4 rnd_test = Ok sharesA
          /\ ShareIntegers 456 BB sigmaB 3 4 (fun k => rnd_test (k + 7)) = Ok sharesB
          /\ pointwise ShareAdd sharesA sharesB = Ok sums
          /\ Z.of_nat (length sums) = 4
          /\ NoDup sums
          /\ forall sub,
               NoDup sub -> incl sub sums -> Z.of_nat (length sub) = 3 + 1 ->
               ShareCombine sub = Ok (123 + 456)).
Proof.
  apply (ShareAdd_homomorphic 123 456 3 4 rnd_test (fun k => rnd_test (k + 7))).
  - lia.
  - unfold ptrSize, maxAlloc. lia.
  - unfold shareSize, ptrSize, maxAlloc. lia.
Defined.

(** C4 needs [n <= p]: with [p = 2], [d = 1], [n = 3], both secrets
    0, coefficients 1 and 0; the sums at [x = 1] and [x = 3] reconstruct 1. *)
Lemma ShareAdd_homomorphic_counterexample :
  ShareFiniteField 0 2 1 3 (fun _ => 1)
  = Ok [mkShare (Some 2) None 1 1 (Some 1);
        mkShare (Some 2) None 1 2 (Some 0);
        mkShare (Some 2) None 1 3 (Some 1)]
  /\ ShareFiniteField 0 2 1 3 (fun _ => 0)
     = Ok [mkShare (Some 2) None 1 1 (Some 0);
           mkShare (Some 2) None 1 2 (Some 0);
           mkShare (Some 2) None 1 3 (Some 0)]
  /\ pointwise ShareAdd
       [mkShare (Some 2) None 1 1 (Some 1);
        mkShare (Some 2) None 1 2 (Some 0);
        mkShare (Some 2) None 1 3 (Some 1)]
       [mkShare (Some 2) None 1 1 (Some 0);
        mkShare (Some 2) None 1 2 (Some 0);
        mkShare (Some 2) None 1 3 (Some 0)]
     = Ok [mkShare (Some 2) None 1 1 (Some 1);
           mkShare (Some 2) None 1 2 (Some 0);
           mkShare (Some 2) None 1 3 (Some 1)]
  /\ ShareCombine [mkShare (Some 2) None 1 1 (Some 1);
                   mkShare (Some 2) None 1 3 (Some 1)] = Ok 1
  /\ (0 + 0) mod 2 = 0.
Proof. vm_compute. repeat split; reflexivity. Qed.

(** C5, for [n <= p] and sharings that return: two secrets shared with the
    same degree [d] over [n >= 2d+1] participants (lengths [make] accepts),
    multiplied share by share. There are [n] pairwise different products
    and every product has degree [d + d]. Over a prime field with [n <= p],
    any [2d+1] of the products reconstruct [(sA * sB) mod p]. Over the
    integers, where the sharings return when [d = 0] or both bounds handed
    to [rand.Int] are positive, every product carries the factor [n! * n!],
    and any [2d+1] of them reconstruct [sA * sB]. *)
Theorem ShareMul_homomorphic (sA sB d n : Z) (rndA rndB : nat -> Z) :
  0 <= d -> 2 * d + 1 <= n ->
  ptrSize * d <= maxAlloc -> shareSize * n <= maxAlloc ->
  (forall p, Z.prime p -> n <= p ->
     exists sharesA sharesB prods,
       ShareFiniteField sA p d n rndA = Ok sharesA
       /\ ShareFiniteField sB p d n rndB = Ok sharesB
       /\ pointwise ShareMul sharesA sharesB = Ok prods
       /\ Z.of_nat (length prods) = n
       /\ NoDup prods
       /\ (forall s, In s prods -> Degree s = d + d)
       /\ forall sub,
            NoDup sub -> incl sub prods -> Z.of_nat (length sub) = 2 * d + 1 ->
            ShareCombine sub = Ok ((sA * sB) mod p))
  /\ (forall BA sigmaA BB sigmaB,
        d = 0 \/ (0 < wrap (n * n) * BA /\ 0 < wrap (n * n) * BB) ->
        exists sharesA sharesB prods,
          ShareIntegers sA BA sigmaA d n rndA = Ok sharesA
          /\ ShareIntegers sB BB sigmaB d n rndB = Ok sharesB
          /\ pointwise ShareMul sharesA sharesB = Ok prods
          /\ Z.of_nat (length prods) = n
          /\ NoDup prods
          /\ (forall s, In s prods ->
                Degree s = d + d
                /\ Factor s = Some (factorial n * factorial n))
          /\ forall sub,
               NoDup sub -> incl sub prods -> Z.of_nat (length sub) = 2 * d + 1 ->
               ShareCombine sub = Ok (sA * sB)).
Proof.
  intros Hd Hdn Hda Hna.
  pose proof (alloc_int d (or_introl Hda)) as Hdi.
  pose proof (alloc_int n (or_intror Hna)) as Hni.
  assert (Hdd : min_int <= d + d <= max_int) by (unfold min_int, max_int in *; lia).
  split.
  - intros p Hp Hnp. pose proof (Z.prime_ge_2 p Hp) as Hp2.
    destruct (ShareFiniteField_value sA p d n rndA) as [cA [HcA HgenA]]; try lia.
    destruct (ShareFiniteField_value sB p d n rndB) as [cB [HcB HgenB]]; try lia.
    do 3 eexists. split; [exact HgenA|]. split; [exact HgenB|].
    split; [|split; [|split; [|split]]].
    + apply pointwise_map. intros i _. apply ShareMul_field_pair; [lia|assumption].
    + rewrite length_map, length_seq. lia.
    + apply generated_NoDup. reflexivity.
    + intros s Hs. apply in_map_iff in Hs. destruct Hs as [i [<- _]]. reflexivity.
    + intros sub Hnd Hincl Hlen.
      rewrite (ShareCombine_field sub p (d + d) (pmul (sA :: cA) (sB :: cB)));
        try assumption; try lia.
      * do 2 f_equal. rewrite pmul_spec. cbn [peval]. ring.
      * pose proof (pmul_length (sA :: cA) (sB :: cB)) as Hpl.
        cbn [length] in Hpl. lia.
      * eapply selection_nodes; [|eassumption|eassumption]. reflexivity.
      * intros s Hs. apply Hincl, in_map_iff in Hs. destruct Hs as [i [<- Hi]].
        apply in_seq in Hi. unfold onFieldPoly, fieldShareAt.
        cbn [FieldSize Degree X Y]. repeat split; lia.
  - intros BA sigmaA BB sigmaB Hb.
    destruct (ShareIntegers_runs sA BA sigmaA d n rndA) as [sharesA HgenA]; try lia.
    { destruct Hb as [Hb|[Hb _]]; [left; assumption|right].
      now apply coefficientUpperBound_pos. }
    destruct (ShareIntegers_runs sB BB sigmaB d n rndB) as [sharesB HgenB]; try lia.
    { destruct Hb as [Hb|[_ Hb]]; [left; assumption|right].
      now apply coefficientUpperBound_pos. }
    exists sharesA, sharesB.
    destruct (ShareIntegers_value sA BA sigmaA d n rndA sharesA
                ltac:(lia) ltac:(lia) HgenA) as [cA [HcA EA]].
    destruct (ShareIntegers_value sB BB sigmaB d n rndB sharesB
                ltac:(lia) ltac:(lia) HgenB) as [cB [HcB EB]].
    pose proof (factorial_pos n) as Hf.
    eexists. split; [exact HgenA|]. split; [exact HgenB|]. rewrite EA, EB.
    split; [|split; [|split; [|split]]].
    + apply pointwise_map. intros i _. apply ShareMul_int_pair. assumption.
    + rewrite length_map, length_seq. lia.
    + apply generated_NoDup. reflexivity.
    + intros s Hs. apply in_map_iff in Hs. destruct Hs as [i [<- _]].
      split; reflexivity.
    + intros sub Hnd Hincl Hlen.
      rewrite (ShareCombine_integers sub (d + d) (factorial n * factorial n)
                 (pmul (sA * factorial n :: cA) (sB * factorial n :: cB)));
        try assumption; try lia.
      * f_equal. rewrite pmul_spec. cbn [peval].
        replace ((sA * factorial n + 0 * peval cA 0) * (sB * factorial n + 0 * peval cB 0))
          with ((sA * sB) * (factorial n * factorial n)) by ring.
        apply Z.div_mul. nia.
      * pose proof (pmul_length (sA * factorial n :: cA) (sB * factorial n :: cB)) as Hpl.
        cbn [length] in Hpl. lia.
      * eapply selection_nodes; [|eassumption|eassumption]. reflexivity.
      * intros s Hs. apply Hincl, in_map_iff in Hs. destruct Hs as [i [<- Hi]].
        apply in_seq in Hi. unfold onIntegerPoly, intShareAt.
        cbn [FieldSize Factor Degree X Y]. repeat split; lia.
Qed.

Lemma ShareMul_homomorphic_witness :
  (forall p, Z.prime p -> 5 <= p ->
     exists sharesA sharesB prods,
       ShareFiniteField (-123) p 2 5 rnd_test = Ok sharesA
       /\ ShareFiniteField 456 p 2 5 (fun k => rnd_test (k + 7)) = Ok sharesB
       /\ pointwise ShareMul sharesA sharesB = Ok prods
       /\ Z.of_nat (length prods) = 5
       /\ NoDup prods
       /\ (forall s, In s prods -> Degree s = 2 + 2)
       /\ forall sub,
            NoDup sub -> incl sub prods -> Z.of_nat (length sub) = 2 * 2 + 1 ->
            ShareCombine sub = Ok ((-123 * 456) mod p))
  /\ (forall BA sigmaA BB sigmaB,
        2 = 0 \/ (0 < wrap (5 * 5) * BA /\ 0 < wrap (5 * 5) * BB) ->
        exists sharesA sharesB prods,
          ShareIntegers (-123) BA sigmaA 2 5 rnd_test = Ok sharesA
          /\ ShareIntegers 456 BB sigmaB 2 5 (fun k => rnd_test (k + 7)) = Ok sharesB
          /\ pointwise ShareMul sharesA sharesB = Ok prods
          /\ Z.of_nat (length prods) = 5
          /\ NoDup prods
          /\ (forall s, In s prods ->
                Degree s = 2 + 2
                /\ Factor s = Some (factorial 5 * factorial 5))
          /\ forall sub,
               NoDup sub -> incl sub prods -> Z.of_nat (length sub) = 2 * 2 + 1 ->
               ShareCombine sub = Ok (-123 * 456)).
Proof.
  apply (ShareMul_homomorphic (-123) 456 2 5 rnd_test (fun k => rnd_test (k + 7))).
  - lia.
  - lia.
  - unfold ptrSize, maxAlloc. lia.
  - unfold shareSize, ptrSize, maxAlloc. lia.
Defined.

(** C5 needs [n <= p]: with [p = 3], [d = 1], [n = 4], secrets 0 and
    1, coefficients 1 and 0; the products at [x = 1, 2, 4] reconstruct 2. *)
Lemma ShareMul_homomorphic_counterexample :
  Z.prime 3
  /\ ShareFiniteField 0 3 1 4 (fun _ => 1)
     = Ok [mkShare (Some 3) None 1 1 (Some 1);
           mkShare (Some 3) None 1 2 (Some 2);
           mkShare (Some 3) None 1 3 (Some 0);
           mkShare (Some 3) None 1 4 (Some 1)]
  /\ ShareFiniteField 1 3 1 4 (fun _ => 0)
     = Ok [mkShare (Some 3) None 1 1 (Some 1);
           mkShare (Some 3) None 1 2 (Some 1);
           mkShare (Some 3) None 1 3 (Some 1);
           mkShare (Some 3) None 1 4 (Some 1)]
  /\ pointwise ShareMul
       [mkShare (Some 3) None 1 1 (Some 1);
        mkShare (Some 3) None 1 2 (Some 2);
        mkShare (Some 3) None 1 3 (Some 0);
        mkShare (Some 3) None 1 4 (Some 1)]
       [mkShare (Some 3) None 1 1 (Some 1);
        mkShare (Some 3) None 1 2 (Some 1);
        mkShare (Some 3) None 1 3 (Some 1);
        mkShare (Some 3) None 1 4 (Some 1)]
     = Ok [mkShare (Some 3) None 2 1 (Some 1);
           mkShare (Some 3) None 2 2 (Some 2);
           mkShare (Some 3) None 2 3 (Some 0);
           mkShare (Some 3) None 2 4 (Some 1)]
  /\ ShareCombine [mkShare (Some 3) None 2 1 (Some 1);
                   mkShare (Some 3) None 2 2 (Some 2);
                   mkShare (Some 3) None 2 4 (Some 1)] = Ok 2
  /\ (0 * 1) mod 3 = 0.
Proof.
  split; [exact Z.prime_3|]. vm_compute. repeat split; reflexivity.
Qed.

(** * Errors of [ShareCombine] *)

Lemma noErr_bind {A B : Type} (m : outcome A) (k : A -> outcome B) :
  noErr m -> (forall a, noErr (k a)) -> noErr (bind m k).
Proof.
  intros Hm Hk e. destruct m as [a|e'|]; cbn [bind].
  - apply Hk.
  - exfalso. now apply (Hm e').
  - discriminate.
Qed.

Lemma noErr_Ok {A : Type} (a : A) : noErr (Ok a).
Proof. intros e. discriminate. Qed.

Lemma noErr_Panic {A : Type} : noErr (@Panic A).
Proof. intros e. discriminate. Qed.

Lemma noErr_deref {A : Type} (p : option A) : noErr (deref p).
Proof. destruct p; [apply noErr_Ok|apply noErr_Panic]. Qed.

Lemma noErr_index {A : Type} (l : list A) i : noErr (index l i).
Proof.
  unfold index. destruct (i <? 0); [apply noErr_Panic|apply noErr_deref].
Qed.

Lemma noErr_fold {A B : Type} (f : outcome A -> B -> outcome A) (l : list B) :
  (forall acc b, noErr acc -> noErr (f acc b)) ->
  forall acc, noErr acc -> noErr (fold_left f l acc).
Proof.
  intros Hf. induction l as [|b l IH]; intros acc Hacc; cbn [fold_left].
  - assumption.
  - apply IH, Hf, Hacc.
Qed.

Lemma noErr_Mod x y : noErr (big.Mod x y).
Proof.
  unfold big.Mod. destruct (y =? 0); [apply noErr_Panic|apply noErr_Ok].
Qed.

Lemma noErr_interpolate shares d : noErr (interpolate shares d).
Proof.
  unfold interpolate. apply noErr_fold; [|apply noErr_Ok].
  intros acc i Hacc. unfold interpolateStep.
  apply noErr_bind; [assumption|]. intros secret.
  apply noErr_bind; [|intros; apply noErr_Ok].
  unfold lagrangeTerm.
  apply noErr_bind; [apply noErr_index|]. intros si.
  apply noErr_bind; [apply noErr_deref|]. intros y.
  apply noErr_fold; [|apply noErr_Ok].
  intros acc' j Hacc'. unfold lagrangeStep.
  apply noErr_bind; [assumption|]. intros term.
  destruct (i =? j); [apply noErr_Ok|].
  apply noErr_bind; [apply noErr_index|]. intros sj.
  apply noErr_bind; [apply noErr_index|]. intros si'.
  apply noErr_bind; [|intros; apply noErr_Ok].
  unfold big.NewRat. destruct (_ =? 0); [apply noErr_Panic|apply noErr_Ok].
Qed.

Lemma existsb_mismatch_true s0 rest :
  existsb (combineMismatch s0) rest = true <->
  exists s, In s rest /\ (FieldSize s <> FieldSize s0 \/ Degree s <> Degree s0).
Proof.
  rewrite existsb_exists. split; intros [s [Hin H]]; exists s; (split; [assumption|]).
  - unfold combineMismatch in H. rewrite orb_true_iff, !negb_true_iff in H.
    destruct H as [H|H].
    + left. intros E. rewrite E, equalOrBothNil_refl in H. discriminate.
    + right. apply Z.eqb_neq in H. congruence.
  - destruct (combineMismatch s0 s) eqn:E; [reflexivity|].
    apply combineMismatch_false in E. destruct E. tauto.
Qed.

(** C3, for returned error values: [ShareCombine] returns [ErrorNoShares] on
    an empty list; otherwise [ErrorTooFewShares] when the number of shares is
    at most [shares[0].Degree]; otherwise [ErrorIncompatibleShares] when two
    of the supplied shares, wherever they stand, differ in field size (one
    absent, or two different values) or in degree; and in the finite-field
    case no other input makes it return an error value: past the three
    checks it returns a result or aborts with a panic. *)
Theorem ShareCombine_errors (shares : list Share) :
  (shares = [] -> ShareCombine shares = Err ErrorNoShares)
  /\ (forall s0 rest, shares = s0 :: rest ->
        (Z.of_nat (length shares) <= Degree s0 ->
         ShareCombine shares = Err ErrorTooFewShares)
        /\ (Degree s0 < Z.of_nat (length shares) ->
            (exists s s', In s shares /\ In s' shares
               /\ (FieldSize s <> FieldSize s' \/ Degree s <> Degree s')) ->
            ShareCombine shares = Err ErrorIncompatibleShares)
        /\ (Degree s0 < Z.of_nat (length shares) ->
            (forall s s', In s shares -> In s' shares ->
               FieldSize s = FieldSize s' /\ Degree s = Degree s') ->
            FieldSize s0 <> None ->
            noErr (ShareCombine shares))).
Proof.
  split; [intros ->; reflexivity|].
  intros s0 rest ->. split; [|split].
  - intros Hlen. unfold ShareCombine.
    destruct (Z.leb_spec (Z.of_nat (length (s0 :: rest))) (Degree s0)); [reflexivity|lia].
  - intros Hlen Hpair. unfold ShareCombine.
    destruct (Z.leb_spec (Z.of_nat (length (s0 :: rest))) (Degree s0)); [lia|].
    destruct (existsb (combineMismatch s0) rest) eqn:E; [reflexivity|].
    exfalso.
    assert (Hsame : forall s, In s (s0 :: rest) ->
                      FieldSize s = FieldSize s0 /\ Degree s = Degree s0).
    { intros s [<-|Hs]; [split; reflexivity|].
      destruct (combineMismatch s0 s) eqn:Es.
      - rewrite (proj2 (existsb_exists _ _)) in E; [discriminate|]. eauto.
      - apply combineMismatch_false in Es. exact Es. }
    destruct Hpair as (s & s' & Hs & Hs' & Hdiff).
    destruct (Hsame s Hs) as [? ?]. destruct (Hsame s' Hs') as [? ?].
    destruct Hdiff; congruence.
  - intros Hlen Hsame Hfield. unfold ShareCombine.
    destruct (Z.leb_spec (Z.of_nat (length (s0 :: rest))) (Degree s0)); [lia|].
    rewrite existsb_mismatch_false.
    2:{ intros s Hs. apply Hsame; [right; assumption|left; reflexivity]. }
    apply noErr_bind; [apply noErr_interpolate|]. intros secret.
    destruct (FieldSize s0) as [p|]; [|contradiction].
    apply noErr_bind; [apply noErr_deref|]. intros inv. apply noErr_Mod.
Qed.

(** C3 does not exclude panics: each of these finite-field lists passes the
    three checks and [ShareCombine] returns no result. In the first,
    [big.NewRat] is handed the denominator [x_1 - x_0 = 0]; in the second the
    [x] are distinct, the interpolated value is [2/3] and [ModInverse(3, 3)]
    is [nil]. *)
Lemma ShareCombine_errors_counterexample :
  Degree (mkShare (Some 7) None 1 1 (Some 5))
  < Z.of_nat (length [mkShare (Some 7) None 1 1 (Some 5);
                      mkShare (Some 7) None 1 1 (Some 6)])
  /\ Forall (fun s => FieldSize s = Some 7 /\ Degree s = 1)
            [mkShare (Some 7) None 1 1 (Some 5);
             mkShare (Some 7) None 1 1 (Some 6)]
  /\ ShareCombine [mkShare (Some 7) None 1 1 (Some 5);
                   mkShare (Some 7) None 1 1 (Some 6)] = Panic
  /\ Degree (mkShare (Some 3) None 1 1 (Some 1))
     < Z.of_nat (length [mkShare (Some 3) None 1 1 (Some 1);
                         mkShare (Some 3) None 1 4 (Some 2)])
  /\ Forall (fun s => FieldSize s = Some 3 /\ Degree s = 1)
            [mkShare (Some 3) None 1 1 (Some 1);
             mkShare (Some 3) None 1 4 (Some 2)]
  /\ ShareCombine [mkShare (Some 3) None 1 1 (Some 1);
                   mkShare (Some 3) None 1 4 (Some 2)] = Panic.
Proof.
  split; [cbn; lia|]. split; [repeat constructor|].
  split; [vm_compute; reflexivity|].
  split; [cbn; lia|]. split; [repeat constructor|].
  vm_compute. reflexivity.
Qed.

(** * [ShareCombine] uses only the first [degree+1] shares *)

Lemma existsb_firstn {A : Type} (f : A -> bool) (l : list A) (k : nat) :
  existsb f l = false -> existsb f (firstn k l) = false.
Proof.
  revert k. induction l as [|a l IH]; intros [|k] H; cbn [firstn existsb] in *;
    try reflexivity.
  apply orb_false_iff in H. destruct H as [-> H]. cbn [orb]. now apply IH.
Qed.

Lemma ShareCombine_firstn s0 rest v :
  0 <= Degree s0 ->
  ShareCombine (s0 :: rest) = Ok v ->
  ShareCombine (firstn (Z.to_nat (Degree s0 + 1)) (s0 :: rest)) = Ok v.
Proof.
  intros Hd H.
  assert (Hk : Z.to_nat (Degree s0 + 1) = S (Z.to_nat (Degree s0))) by lia.
  pose proof (interpolate_firstn (s0 :: rest) (Degree s0)) as Hint.
  rewrite Hk in *. cbn [firstn] in *.
  unfold ShareCombine in *.
  destruct (Z.leb_spec (Z.of_nat (length (s0 :: rest))) (Degree s0)) as [|Hlen];
    [discriminate|].
  destruct (existsb (combineMismatch s0) rest) eqn:E; [discriminate|].
  cbn [length] in *. rewrite length_firstn.
  destruct (Z.leb_spec (Z.of_nat (S (Nat.min (Z.to_nat (Degree s0)) (length rest))))
                       (Degree s0)); [lia|].
  rewrite (existsb_firstn _ _ _ E), Hint. exact H.
Qed.

(** C7, for a non-negative degree: when [shares[0].Degree >= 0] and
    [ShareCombine] succeeds, it returns what it returns on the first
    [degree+1] shares alone; hence two lists with the same first [degree+1]
    shares on which it succeeds give the same value. *)
Theorem ShareCombine_prefix (shares : list Share) (s0 : Share) (v : Z) :
  hd_error shares = Some s0 ->
  0 <= Degree s0 ->
  ShareCombine shares = Ok v ->
  ShareCombine (firstn (Z.to_nat (Degree s0 + 1)) shares) = Ok v
  /\ forall shares' v',
       firstn (Z.to_nat (Degree s0 + 1)) shares'
         = firstn (Z.to_nat (Degree s0 + 1)) shares ->
       ShareCombine shares' = Ok v' -> v' = v.
Proof.
  intros Hhd Hd H.
  destruct shares as [|s rest]; [discriminate|]. injection Hhd as ->.
  pose proof (ShareCombine_firstn s0 rest v Hd H) as Hpre.
  split; [assumption|].
  intros shares' v' Heq H'.
  destruct shares' as [|s0' rest']; [discriminate|].
  assert (s0' = s0).
  { replace (Z.to_nat (Degree s0 + 1)) with (S (Z.to_nat (Degree s0))) in Heq by lia.
    cbn [firstn] in Heq. congruence. }
  subst s0'. apply (ShareCombine_firstn s0 rest' v' Hd) in H'.
  rewrite Heq in H'. congruence.
Qed.

Lemma ShareCombine_prefix_witness :
  ShareCombine (firstn (Z.to_nat (1 + 1))
                  [mkShare (Some 7) None 1 1 (Some 5);
                   mkShare (Some 7) None 1 2 (Some 0);
                   mkShare (Some 7) None 1 3 (Some 4)]) = Ok 3
  /\ forall shares' v',
       firstn (Z.to_nat (1 + 1)) shares'
         = firstn (Z.to_nat (1 + 1))
             [mkShare (Some 7) None 1 1 (Some 5);
              mkShare (Some 7) None 1 2 (Some 0);
              mkShare (Some 7) None 1 3 (Some 4)] ->
       ShareCombine shares' = Ok v' -> v' = 3.
Proof.
  apply (ShareCombine_prefix
           [mkShare (Some 7) None 1 1 (Some 5);
            mkShare (Some 7) None 1 2 (Some 0);
            mkShare (Some 7) None 1 3 (Some 4)]
           (mkShare (Some 7) None 1 1 (Some 5)) 3).
  - reflexivity.
  - cbn. lia.
  - vm_compute. reflexivity.
Defined.

(** C7 needs a non-negative degree: on this one-share list
    [ShareCombine] runs no loop iteration and returns 0, while the first
    [degree+1 = 0] shares are the empty list, on which it fails. *)
Lemma ShareCombine_prefix_counterexample :
  ShareCombine [mkShare (Some 7) None (-1) 1 (Some 5)] = Ok 0
  /\ ShareCombine (firstn (Z.to_nat (-1 + 1)) [mkShare (Some 7) None (-1) 1 (Some 5)])
     = Err ErrorNoShares.
Proof. vm_compute. split; reflexivity. Qed.

(** ** More shares than [degree+1] *)

Lemma NoDup_firstn {A : Type} (l : list A) (k : nat) : NoDup l -> NoDup (firstn k l).
Proof.
  intros H. rewrite <- (firstn_skipn k l) in H.
  eapply NoDup_app_remove_r. eassumption.
Qed.

Lemma In_firstn {A : Type} (l : list A) (k : nat) (a : A) :
  In a (firstn k l) -> In a l.
Proof.
  intros H. rewrite <- (firstn_skipn k l). apply in_or_app. left. assumption.
Qed.

(** Past the checks, [ShareCombine] returns what it returns on the first
    [degree+1] shares. *)
Lemma ShareCombine_extend s0 rest :
  0 <= Degree s0 < Z.of_nat (length (s0 :: rest)) ->
  existsb (combineMismatch s0) rest = false ->
  ShareCombine (s0 :: rest)
  = ShareCombine (firstn (Z.to_nat (Degree s0 + 1)) (s0 :: rest)).
Proof.
  intros Hd E.
  assert (Hk : Z.to_nat (Degree s0 + 1) = S (Z.to_nat (Degree s0))) by lia.
  pose proof (interpolate_firstn (s0 :: rest) (Degree s0)) as Hint.
  rewrite Hk in *. cbn [firstn] in *.
  unfold ShareCombine.
  destruct (Z.leb_spec (Z.of_nat (length (s0 :: rest))) (Degree s0)); [lia|].
  rewrite E. cbn [length] in *. rewrite length_firstn.
  destruct (Z.leb_spec (Z.of_nat (S (Nat.min (Z.to_nat (Degree s0)) (length rest))))
                       (Degree s0)); [lia|].
  rewrite (existsb_firstn _ _ _ E), Hint. reflexivity.
Qed.

Lemma ShareCombine_too_few s0 rest :
  Z.of_nat (length (s0 :: rest)) <= Degree s0 ->
  ShareCombine (s0 :: rest) = Err ErrorTooFewShares.
Proof.
  intros H. unfold ShareCombine.
  destruct (Z.leb_spec (Z.of_nat (length (s0 :: rest))) (Degree s0)); [reflexivity|lia].
Qed.

Lemma ShareCombine_field_more sub p d c :
  Z.prime p -> 0 <= d < Z.of_nat (length sub) ->
  (length c <= Z.to_nat (d + 1))%nat ->
  NoDup (map X sub) ->
  (forall s, In s sub -> onFieldPoly p d c s) ->
  ShareCombine sub = Ok (peval c 0 mod p).
Proof.
  intros Hp Hd Hc Hnd Hall.
  destruct sub as [|s0 rest] eqn:Esub; [cbn in Hd; lia|].
  destruct (Hall s0 (or_introl eq_refl)) as (Hfs & Hdeg & _).
  rewrite ShareCombine_extend.
  - rewrite Hdeg. apply ShareCombine_field with (d := d); try assumption; try lia.
    + rewrite length_firstn. lia.
    + rewrite length_firstn. lia.
    + rewrite <- firstn_map. apply NoDup_firstn. assumption.
    + intros s Hs. apply Hall. eapply In_firstn. eassumption.
  - rewrite Hdeg. assumption.
  - apply existsb_mismatch_false. intros s Hs.
    destruct (Hall s (or_intror Hs)) as (Hfs' & Hdeg' & _). split; congruence.
Qed.

Lemma ShareCombine_integers_more sub d f c :
  0 <= d < Z.of_nat (length sub) -> 0 < f ->
  (length c <= Z.to_nat (d + 1))%nat ->
  NoDup (map X sub) ->
  (forall s, In s sub -> onIntegerPoly d f c s) ->
  ShareCombine sub = Ok (peval c 0 / f).
Proof.
  intros Hd Hf Hc Hnd Hall.
  destruct sub as [|s0 rest] eqn:Esub; [cbn in Hd; lia|].
  destruct (Hall s0 (or_introl eq_refl)) as (Hfs & Hfac & Hdeg & _).
  rewrite ShareCombine_extend.
  - rewrite Hdeg. apply ShareCombine_integers with (d := d); try assumption; try lia.
    + rewrite length_firstn. lia.
    + rewrite length_firstn. lia.
    + rewrite <- firstn_map. apply NoDup_firstn. assumption.
    + intros s Hs. apply Hall. eapply In_firstn. eassumption.
  - rewrite Hdeg. assumption.
  - apply existsb_mismatch_false. intros s Hs.
    destruct (Hall s (or_intror Hs)) as (Hfs' & _ & Hdeg' & _). split; congruence.
Qed.

(** * Errors of [ShareAdd] and [ShareMul] *)

Lemma opMismatch_false s0 s :
  opMismatch s0 s = false <->
  FieldSize s = FieldSize s0 /\ Degree s = Degree s0 /\ X s = X s0.
Proof.
  unfold opMismatch.
  rewrite !orb_false_iff, !negb_false_iff, equalOrBothNil_eq, !Z.eqb_eq.
  split; intros H; decompose [and] H; repeat split; congruence.
Qed.

Lemma opMismatch_differs s0 s : opMismatch s0 s = true <-> differs s0 s.
Proof.
  unfold differs. split.
  - intros H.
    destruct (equalOrBothNil (FieldSize s0) (FieldSize s)) eqn:Ef.
    + destruct (Z.eqb_spec (Degree s0) (Degree s)) as [Ed|Ed]; [|right; left; congruence].
      destruct (Z.eqb_spec (X s0) (X s)) as [Ex|Ex]; [|right; right; congruence].
      apply equalOrBothNil_eq in Ef.
      rewrite (proj2 (opMismatch_false s0 s)) in H by (repeat split; congruence).
      discriminate.
    + left. intros E. rewrite E, equalOrBothNil_refl in Ef. discriminate.
  - intros H. destruct (opMismatch s0 s) eqn:E; [reflexivity|].
    apply opMismatch_false in E. destruct E as (? & ? & ?).
    destruct H as [H|[H|H]]; contradiction.
Qed.

Lemma existsb_opMismatch s0 rest :
  existsb (opMismatch s0) rest = true <-> exists s, In s rest /\ differs s0 s.
Proof.
  rewrite existsb_exists. split; intros [s [Hin H]]; exists s;
    (split; [assumption|]); now apply opMismatch_differs.
Qed.

Lemma fold_left_stuck {A B : Type} (f : outcome A -> B -> outcome A)
    (stuck : outcome A) (l : list B) :
  (forall b, f stuck b = stuck) -> fold_left f l stuck = stuck.
Proof.
  intros H. induction l as [|b l IH]; cbn [fold_left]; [reflexivity|].
  now rewrite H.
Qed.

Lemma reduceY_runs fs y : fs <> Some 0 -> exists y', reduceY fs y = Ok y'.
Proof.
  intros H. destruct fs as [p|]; cbn [reduceY]; [|eauto].
  unfold big.Mod. destruct (Z.eqb_spec p 0) as [->|_]; [contradiction|eauto].
Qed.

Section Operands.

Variable s0 : Share.
Hypothesis field_nonzero : FieldSize s0 <> Some 0.

Lemma addStep_fold : forall rest sum,
  Y sum <> None -> FieldSize sum = FieldSize s0 ->
  (forall s, In s rest -> Y s <> None) ->
  if existsb (opMismatch s0) rest
  then fold_left (addStep s0) rest (Ok sum) = Err ErrorIncompatibleShares
  else exists r, fold_left (addStep s0) rest (Ok sum) = Ok r.
Proof.
  induction rest as [|s rest IH]; intros sum Hy Hfs Hys; cbn [existsb fold_left].
  - eauto.
  - remember (addStep s0 (Ok sum) s) as st eqn:Est.
    unfold addStep in Est. cbn [bind] in Est.
    destruct (opMismatch s0 s) eqn:E; cbn [orb].
    + subst st. apply fold_left_stuck. reflexivity.
    + destruct (Y sum) as [a|] eqn:Ea; [|contradiction].
      destruct (Y s) as [b|] eqn:Eb; [|exfalso; apply (Hys s); [left; reflexivity|assumption]].
      cbn [deref bind] in Est.
      destruct (reduceY_runs (FieldSize sum) (a + b)) as [y Hred]; [congruence|].
      rewrite Hred in Est. cbn [bind] in Est. subst st.
      apply IH; cbn [Y FieldSize]; [discriminate|assumption|].
      intros s' Hs'. apply Hys. right. assumption.
Qed.

Lemma mulStep_fold : forall rest sum,
  Y sum <> None -> FieldSize sum = FieldSize s0 ->
  (forall s, In s rest -> Y s <> None) ->
  (Factor sum <> None -> forall s, In s rest -> Factor s <> None) ->
  if existsb (opMismatch s0) rest
  then fold_left (mulStep s0) rest (Ok sum) = Err ErrorIncompatibleShares
  else exists r, fold_left (mulStep s0) rest (Ok sum) = Ok r.
Proof.
  induction rest as [|s rest IH]; intros sum Hy Hfs Hys Hfac; cbn [existsb fold_left].
  - eauto.
  - remember (mulStep s0 (Ok sum) s) as st eqn:Est.
    unfold mulStep in Est. cbn [bind] in Est.
    destruct (opMismatch s0 s) eqn:E; cbn [orb].
    + subst st. apply fold_left_stuck. reflexivity.
    + destruct (Y sum) as [a|] eqn:Ea; [|contradiction].
      destruct (Y s) as [b|] eqn:Eb; [|exfalso; apply (Hys s); [left; reflexivity|assumption]].
      cbn [deref bind] in Est.
      destruct (reduceY_runs (FieldSize sum) (a * b)) as [y Hred]; [congruence|].
      rewrite Hred in Est. cbn [bind] in Est.
      destruct (Factor sum) as [f|] eqn:Ef.
      * destruct (Factor s) as [g|] eqn:Eg;
          [|exfalso; apply (Hfac ltac:(discriminate) s); [left; reflexivity|assumption]].
        cbn [deref bind] in Est. subst st.
        apply IH; cbn [Y FieldSize Factor]; [discriminate|assumption| |].
        -- intros s' Hs'. apply Hys. right. assumption.
        -- intros _ s' Hs'. apply Hfac; [discriminate|right; assumption].
      * cbn [bind] in Est. subst st.
        apply IH; cbn [Y FieldSize Factor]; [discriminate|assumption| |].
        -- intros s' Hs'. apply Hys. right. assumption.
        -- intros Hcontra. contradiction.
Qed.

(** Once a later share has no factor while the accumulated one has,
    [sum.Factor.Mul] dereferences [nil]. *)
Lemma mulStep_fold_panic : forall rest sum,
  Y sum <> None -> FieldSize sum = FieldSize s0 -> Factor sum <> None ->
  (forall s, In s rest -> Y s <> None) ->
  existsb (opMismatch s0) rest = false ->
  (exists s, In s rest /\ Factor s = None) ->
  fold_left (mulStep s0) rest (Ok sum) = Panic.
Proof.
  induction rest as [|s rest IH]; intros sum Hy Hfs Hfac Hys Hcompat [s' [Hin Hnil]].
  - destruct Hin.
  - cbn [existsb] in Hcompat. apply orb_false_iff in Hcompat.
    destruct Hcompat as [E Hcompat].
    cbn [fold_left]. unfold mulStep at 2. cbn [bind]. rewrite E.
    destruct (Y sum) as [a|] eqn:Ea; [|contradiction].
    destruct (Y s) as [b|] eqn:Eb; [|exfalso; apply (Hys s); [left; reflexivity|assumption]].
    cbn [deref bind].
    destruct (reduceY_runs (FieldSize sum) (a * b)) as [y Hred]; [congruence|].
    rewrite Hred. cbn [bind].
    destruct (Factor sum) as [f|] eqn:Ef; [|contradiction].
    destruct (Factor s) as [g|] eqn:Eg; cbn [deref bind].
    + apply IH; cbn [Y FieldSize Factor]; try discriminate; try assumption.
      * intros s'' Hs''. apply Hys. right. assumption.
      * destruct Hin as [<-|Hin]; [congruence|]. eauto.
    + apply fold_left_stuck. reflexivity.
Qed.

End Operands.

(** C6, for shares that carry their values: both operations return
    [ErrorNoShares] on an empty list. On a non-empty list in which every
    share carries a [y] and the field size of the first share is not zero,
    [ShareAdd] returns [ErrorIncompatibleShares] when some share differs from
    the first in domain, field size, degree or [x], and a share otherwise; so
    does [ShareMul], provided every later share carries a factor when the
    first one does. *)
Theorem ShareAdd_ShareMul_errors :
  ShareAdd [] = Err ErrorNoShares
  /\ ShareMul [] = Err ErrorNoShares
  /\ forall s0 rest,
       (forall s, In s (s0 :: rest) -> Y s <> None) ->
       FieldSize s0 <> Some 0 ->
       ((exists s, In s rest /\ differs s0 s) ->
          ShareAdd (s0 :: rest) = Err ErrorIncompatibleShares
          /\ ((Factor s0 <> None -> forall s, In s rest -> Factor s <> None) ->
              ShareMul (s0 :: rest) = Err ErrorIncompatibleShares))
       /\ ((forall s, In s rest -> ~ differs s0 s) ->
             (exists r, ShareAdd (s0 :: rest) = Ok r)
             /\ ((Factor s0 <> None -> forall s, In s rest -> Factor s <> None) ->
                 exists r, ShareMul (s0 :: rest) = Ok r)).
Proof.
  split; [reflexivity|]. split; [reflexivity|].
  intros s0 rest Hys Hfs.
  assert (Hy0 : exists y0, Y s0 = Some y0).
  { destruct (Y s0) eqn:E; [eauto|]. exfalso. apply (Hys s0); [left; reflexivity|assumption]. }
  destruct Hy0 as [y0 Hy0].
  assert (Hrest : forall s, In s rest -> Y s <> None)
    by (intros s Hs; apply Hys; right; assumption).
  pose proof (addStep_fold s0 Hfs rest
                {| FieldSize := FieldSize s0; Factor := Factor s0;
                   Degree := Degree s0; X := X s0; Y := Some y0 |}
                ltac:(discriminate) eq_refl Hrest) as Hadd.
  pose proof (mulStep_fold s0 Hfs rest
                {| FieldSize := FieldSize s0; Factor := Factor s0;
                   Degree := Degree s0; X := X s0; Y := Some y0 |}
                ltac:(discriminate) eq_refl Hrest) as Hmul.
  cbn [Factor] in Hmul.
  unfold ShareAdd, ShareMul. rewrite Hy0. cbn [deref bind].
  split.
  - intros Hex. apply existsb_opMismatch in Hex. rewrite Hex in Hadd, Hmul.
    split; [assumption|]. intros Hfac. apply Hmul. assumption.
  - intros Hall.
    assert (E : existsb (opMismatch s0) rest = false).
    { destruct (existsb (opMismatch s0) rest) eqn:E; [|reflexivity].
      apply existsb_opMismatch in E. destruct E as [s [Hs Hd]].
      exfalso. apply (Hall s Hs Hd). }
    rewrite E in Hadd, Hmul.
    split; [assumption|]. intros Hfac. apply Hmul. assumption.
Qed.

(** C6 needs the factors: these two integer shares agree on field size, degree
    and [x], yet [ShareMul] does not return a share. *)
Lemma ShareAdd_ShareMul_errors_counterexample :
  Forall (fun s => FieldSize s = None /\ Degree s = 1 /\ X s = 1)
         [mkShare None (Some 6) 1 1 (Some 5); mkShare None None 1 1 (Some 7)]
  /\ ShareMul [mkShare None (Some 6) 1 1 (Some 5); mkShare None None 1 1 (Some 7)]
     = Panic.
Proof. split; [repeat constructor|reflexivity]. Qed.

(** C10: there is a non-empty list whose shares agree on field size (all
    absent), degree and [x], whose first share has a factor and a later one
    has none, on which [ShareMul] panics; and so it does on every such list
    whose shares carry a [y]. *)
Theorem ShareMul_nil_factor :
  (exists s0 rest,
     (forall s, In s (s0 :: rest) ->
        FieldSize s = None /\ Degree s = Degree s0 /\ X s = X s0)
     /\ Factor s0 <> None
     /\ (exists s, In s rest /\ Factor s = None)
     /\ ShareMul (s0 :: rest) = Panic)
  /\ forall s0 rest,
       (forall s, In s (s0 :: rest) ->
          FieldSize s = None /\ Degree s = Degree s0 /\ X s = X s0) ->
       (forall s, In s (s0 :: rest) -> Y s <> None) ->
       Factor s0 <> None ->
       (exists s, In s rest /\ Factor s = None) ->
       ShareMul (s0 :: rest) = Panic.
Proof.
  assert (General : forall s0 rest,
       (forall s, In s (s0 :: rest) ->
          FieldSize s = None /\ Degree s = Degree s0 /\ X s = X s0) ->
       (forall s, In s (s0 :: rest) -> Y s <> None) ->
       Factor s0 <> None ->
       (exists s, In s rest /\ Factor s = None) ->
       ShareMul (s0 :: rest) = Panic).
  { intros s0 rest Hsame Hys Hfac Hnil.
    unfold ShareMul.
    destruct (Y s0) as [y0|] eqn:Hy0;
      [|exfalso; apply (Hys s0); [left; reflexivity|assumption]].
    cbn [deref bind].
    destruct (Hsame s0 (or_introl eq_refl)) as [Hfs0 _].
    apply mulStep_fold_panic; cbn [Y FieldSize Factor];
      try discriminate; try assumption; try reflexivity.
    - rewrite Hfs0. discriminate.
    - intros s Hs. apply Hys. right. assumption.
    - destruct (existsb (opMismatch s0) rest) eqn:E; [|reflexivity].
      apply existsb_opMismatch in E. destruct E as [s [Hs Hd]].
      destruct (Hsame s (or_intror Hs)) as (H1 & H2 & H3).
      destruct Hd as [Hd|[Hd|Hd]]; exfalso; apply Hd; congruence. }
  split; [|exact General].
  exists (mkShare None (Some 120) 2 3 (Some 10)),
         [mkShare None (Some 120) 2 3 (Some 20); mkShare None None 2 3 (Some 30)].
  split; [|split; [|split]].
  - intros s [<-|[<-|[<-|[]]]]; repeat split; reflexivity.
  - discriminate.
  - eexists. split; [right; left; reflexivity|reflexivity].
  - reflexivity.
Qed.

(** * What the integer branch checks *)

(** C9: an integer-domain list passes every check of [ShareCombine], has an
    integer interpolated value that its factor does not divide, and
    [ShareCombine] returns the Euclidean quotient without an error. In
    general, past the three checks the integer branch reports
    [ErrorFractionalSecret] exactly when the interpolated rational is not an
    integer, and otherwise returns the Euclidean quotient of that integer by
    a non-zero factor, whether or not the division is exact. *)
Theorem ShareCombine_inexact_division :
  (exists shares s0 v f q,
     hd_error shares = Some s0
     /\ Degree s0 < Z.of_nat (length shares)
     /\ (forall s, In s shares -> FieldSize s = None /\ Degree s = Degree s0)
     /\ interpolate shares (Degree s0) = Ok (big.Z2Rat v)
     /\ Factor s0 = Some f
     /\ ~ (f | v)
     /\ ShareCombine shares = Ok q
     /\ exists r, v = q * f + r /\ 0 <= r < Z.abs f)
  /\ forall s0 rest secret,
       Degree s0 < Z.of_nat (length (s0 :: rest)) ->
       (forall s, In s rest -> FieldSize s = FieldSize s0 /\ Degree s = Degree s0) ->
       FieldSize s0 = None ->
       interpolate (s0 :: rest) (Degree s0) = Ok secret ->
       (big.IsInt secret = false ->
        ShareCombine (s0 :: rest) = Err ErrorFractionalSecret)
       /\ (big.IsInt secret = true ->
           forall f, Factor s0 = Some f -> f <> 0 ->
           exists q r, ShareCombine (s0 :: rest) = Ok q
                       /\ big.Num secret = q * f + r /\ 0 <= r < Z.abs f).
Proof.
  split.
  - exists [mkShare None (Some 2) 0 1 (Some 3)], (mkShare None (Some 2) 0 1 (Some 3)), 3, 2, 1.
    split; [reflexivity|]. split; [cbn; lia|].
    split; [intros s [<-|[]]; split; reflexivity|].
    split.
    { cbn [Degree].
      rewrite (interpolate_lag [mkShare None (Some 2) 0 1 (Some 3)]
                 (fun _ => big.Z2Rat 3)).
      - apply f_equal. cbn [map lag basis X]. ring.
      - intros s [<-|[]]. cbn. unfold max_int. lia.
      - repeat constructor. intros [].
      - intros s [<-|[]]. exists 3. split; reflexivity.
      - reflexivity. }
    split; [reflexivity|].
    split; [intros [k Hk]; lia|].
    split; [vm_compute; reflexivity|].
    exists 1. cbn. lia.
  - intros s0 rest secret Hlen Hsame Hfs Hint.
    unfold ShareCombine.
    destruct (Z.leb_spec (Z.of_nat (length (s0 :: rest))) (Degree s0)); [lia|].
    rewrite existsb_mismatch_false by (intros s Hs; apply Hsame; assumption).
    rewrite Hint, Hfs. cbn [bind]. split.
    + intros ->. reflexivity.
    + intros -> f Hf Hnz. cbn [negb]. rewrite Hf. cbn [deref bind].
      destruct (Div_euclidean (big.Num secret) f Hnz) as (q & r & Hq & Hr).
      exists q, r. split; assumption.
Qed.

(** * A share with a corrupted [x] *)

(** The coefficients the generators draw when the bound is positive. *)
Lemma drawCoefficients_value rnd max count : forall k,
  0 < max ->
  drawCoefficients rnd max k count
  = Ok (map (fun j => rnd j mod max) (seq k count)).
Proof.
  induction count as [|count IH]; intros k Hmax; cbn [drawCoefficients seq map].
  - reflexivity.
  - unfold rand_Int. destruct (Z.leb_spec max 0); [lia|]. cbn [bind].
    rewrite IH by assumption. reflexivity.
Qed.

Lemma ShareIntegers_drawn secret B sigma d n rnd :
  0 <= d -> ptrSize * d <= maxAlloc -> 0 <= n -> shareSize * n <= maxAlloc ->
  0 < coefficientUpperBound sigma n B ->
  ShareIntegers secret B sigma d n rnd
  = Ok (map (intShareAt (factorial n) d
               (secret * factorial n
                :: map (fun j => rnd j mod coefficientUpperBound sigma n B)
                       (seq 0 (Z.to_nat d))))
            (seq 0 (Z.to_nat n))).
Proof.
  intros Hd Hda Hn Hna Hb. unfold ShareIntegers.
  pose proof (alloc_int d (or_introl Hda)) as Hdi.
  pose proof (alloc_int n (or_intror Hna)) as Hni.
  rewrite make_len_ok by assumption. cbn [bind].
  rewrite drawCoefficients_value by assumption. cbn [bind].
  rewrite make_len_ok by assumption. cbn [bind].
  apply mapM_ok. intros i Hi. apply in_seq in Hi.
  rewrite wrap_small by (unfold min_int, max_int in *; lia).
  rewrite addTerms_poly by (rewrite length_map, length_seq; lia).
  reflexivity.
Qed.

Lemma isFrac_Z z : isFrac (big.Z2Rat z) z 1.
Proof. split; [lia|]. rewrite Z2Rat_1. ring. Qed.

Lemma isFrac_one : isFrac 1%Qc 1 1.
Proof. rewrite <- Z2Rat_1. apply isFrac_Z. Qed.

Lemma isFrac_zero : isFrac 0%Qc 0 1.
Proof. rewrite <- Z2Rat_0. apply isFrac_Z. Qed.

Lemma isFrac_mul q1 n1 d1 q2 n2 d2 :
  isFrac q1 n1 d1 -> isFrac q2 n2 d2 -> isFrac (q1 * q2)%Qc (n1 * n2) (d1 * d2).
Proof.
  intros [H1 E1] [H2 E2]. split; [nia|].
  rewrite !Z2Rat_mul, <- E1, <- E2. ring.
Qed.

Lemma isFrac_add q1 n1 d1 q2 n2 d2 :
  isFrac q1 n1 d1 -> isFrac q2 n2 d2 ->
  isFrac (q1 + q2)%Qc (n1 * d2 + n2 * d1) (d1 * d2).
Proof.
  intros [H1 E1] [H2 E2]. split; [nia|].
  rewrite Z2Rat_add, !Z2Rat_mul, <- E1, <- E2. ring.
Qed.

Lemma isFrac_ratio a b : a - b <> 0 -> isFrac (ratio a b) a (a - b).
Proof.
  intros H. split; [assumption|]. unfold ratio. field.
  now apply Z2Rat_nonzero.
Qed.

Ltac frac :=
  lazymatch goal with
  | |- isFrac (ratio _ _) _ _ => apply isFrac_ratio; discriminate
  | |- isFrac (big.Z2Rat _) _ _ => apply isFrac_Z
  | |- isFrac (_ + _)%Qc _ _ => apply isFrac_add; frac
  | |- isFrac (_ * _)%Qc _ _ => apply isFrac_mul; frac
  | |- isFrac 1%Qc _ _ => apply isFrac_one
  | |- isFrac 0%Qc _ _ => apply isFrac_zero
  end.

(** A fraction is an integer exactly when its denominator divides its
    numerator. *)
Lemma isFrac_exact q m d : isFrac q (m * d) d -> q = big.Z2Rat m.
Proof.
  intros [Hd E]. rewrite Z2Rat_mul in E.
  pose proof (Z2Rat_nonzero d Hd) as Hnz.
  transitivity ((q * big.Z2Rat d) / big.Z2Rat d)%Qc.
  - field. assumption.
  - rewrite E. field. assumption.
Qed.

Lemma isFrac_IsInt q n d : isFrac q n d -> big.IsInt q = true -> (d | n).
Proof.
  intros [Hd E] Hint. apply IsInt_inv in Hint. rewrite Hint, <- Z2Rat_mul in E.
  apply Z2Rat_inj in E. exists (big.Num q). congruence.
Qed.

(** C8 does not hold for every draw. In
    [ShareIntegers(456, 7919, 100, 2, 5)] with drawn coefficients [c1] and
    [c2]: when both are 0, whichever share gets its [x] replaced by an
    out-of-range value (0, or above 5), [ShareCombine] returns 456 and no
    error; and after [shares[0].X = 500], the corruption of the package's
    test, [ShareCombine] returns [ErrorFractionalSecret] exactly when
    [499*c1 + 249999*c2] is not a multiple of 41251, and a value
    otherwise. *)
Theorem ShareCombine_corrupted_x (rnd : nat -> Z) :
  exists shares,
    ShareIntegers 456 7919 100 2 5 rnd = Ok shares
    /\ Z.of_nat (length shares) = 5
    /\ (drawn rnd 0 = 0 -> drawn rnd 1 = 0 ->
        forall k x, (k < 5)%nat -> x = 0 \/ 5 < x <= max_int ->
        exists corrupted,
          assignX shares k x = Ok corrupted
          /\ ShareCombine corrupted = Ok 456)
    /\ exists corrupted,
         assignX shares 0 500 = Ok corrupted
         /\ ShareCombine corrupted
            = if (499 * drawn rnd 0 + 249999 * drawn rnd 1) mod 41251 =? 0
              then Ok ((54720 - (499 * drawn rnd 0 + 249999 * drawn rnd 1) / 41251) / 120)
              else Err ErrorFractionalSecret.
Proof.
  assert (HU : 0 < coefficientUpperBound 100 5 7919) by (vm_compute; reflexivity).
  assert (Hf : factorial 5 = 120) by (vm_compute; reflexivity).
  pose proof (ShareIntegers_drawn 456 7919 100 2 5 rnd) as Hgen.
  rewrite Hf in Hgen.
  change (Z.to_nat 2) with 2%nat in Hgen. change (Z.to_nat 5) with 5%nat in Hgen.
  cbn [seq map] in Hgen. change (456 * 120) with 54720 in Hgen.
  fold (drawn rnd 0) in Hgen. fold (drawn rnd 1) in Hgen.
  set (c1 := drawn rnd 0) in *. set (c2 := drawn rnd 1) in *.
  set (c := [54720; c1; c2]) in *.
  eexists. split.
  { apply Hgen; [lia|unfold ptrSize, maxAlloc; lia|lia
                 |unfold shareSize, ptrSize, maxAlloc; lia|assumption]. }
  clear Hgen. split; [reflexivity|]. split.
  { intros H1 H2 k x Hk Hx.
    assert (Hc : forall t, peval c t = 54720).
    { intros t. unfold c. rewrite H1, H2. cbn [peval]. ring. }
    assert (Hall : forall i t, 0 <= t <= max_int ->
                     onIntegerPoly 2 120 c (setX (intShareAt 120 2 c i) t)).
    { intros i t Ht. unfold onIntegerPoly, setX, intShareAt.
      cbn [FieldSize Factor Degree X Y]. rewrite !Hc. repeat split; lia. }
    assert (Hsame : forall i, (i < 5)%nat ->
                      onIntegerPoly 2 120 c (intShareAt 120 2 c i)).
    { intros i Hi. unfold onIntegerPoly, intShareAt.
      cbn [FieldSize Factor Degree X Y]. unfold max_int. repeat split; lia. }
    assert (Hx' : 0 <= x <= max_int) by (unfold max_int in *; lia).
    destruct k as [|[|[|[|[|k]]]]]; [| | | | |lia];
      (eexists; split; [reflexivity|];
       apply (ShareCombine_integers_more _ 2 120 c);
       [cbn [length]; lia
       |lia
       |unfold c; cbn [length]; lia
       |cbn [map X setX intShareAt];
        repeat (constructor; [cbn [In]; lia|]); constructor
       |intros s Hs; cbn [In] in Hs;
        repeat (destruct Hs as [<-|Hs]; [first [apply Hall; assumption|apply Hsame; lia]|]);
        destruct Hs]). }
  eexists. split; [reflexivity|].
  set (F := fun x => if x =? 500 then big.Z2Rat (peval c 1) else big.Z2Rat (peval c x)).
  assert (Hint : interpolate (setX (intShareAt 120 2 c 0) 500
                               :: [intShareAt 120 2 c 1; intShareAt 120 2 c 2;
                                   intShareAt 120 2 c 3; intShareAt 120 2 c 4]) 2
                 = Ok (lag F [500; 2; 3])).
  { rewrite <- interpolate_firstn.
    change (Z.to_nat (2 + 1)) with 3%nat. cbn [firstn].
    rewrite (interpolate_lag
               [setX (intShareAt 120 2 c 0) 500; intShareAt 120 2 c 1;
                intShareAt 120 2 c 2] F).
    - reflexivity.
    - intros s [<-|[<-|[<-|[]]]]; cbn; unfold max_int; lia.
    - repeat constructor; cbn; intuition discriminate.
    - intros s [<-|[<-|[<-|[]]]]; eexists; split; reflexivity.
    - reflexivity. }
  assert (Hfrac : isFrac (lag F [500; 2; 3])
                    (1485036 * (499 * c1 + 249999 * c2 - 41251 * 54720))
                    (-61259220036)).
  { assert (H : exists N D, isFrac (lag F [500; 2; 3]) N D
                  /\ D = -61259220036
                  /\ N = 1485036 * (499 * c1 + 249999 * c2 - 41251 * 54720)).
    { do 2 eexists. split; [|split].
      - unfold F. cbn [lag basis Z.eqb Pos.eqb]. frac.
      - vm_compute. reflexivity.
      - unfold c. cbn [peval]. ring. }
    destruct H as (N & D & H & -> & ->). exact H. }
  unfold ShareCombine.
  cbn [length Degree setX intShareAt FieldSize Factor].
  destruct (Z.leb_spec (Z.of_nat 5) 2); [lia|].
  rewrite existsb_mismatch_false.
  2:{ intros s [<-|[<-|[<-|[<-|[]]]]]; split; reflexivity. }
  rewrite Hint. cbn [bind].
  destruct (Z.eqb_spec ((499 * c1 + 249999 * c2) mod 41251) 0) as [Hmod|Hmod].
  - apply Z.mod_divide in Hmod; [|lia]. destruct Hmod as [m Hm].
    assert (Eq : lag F [500; 2; 3] = big.Z2Rat (54720 - m)).
    { apply isFrac_exact with (d := -61259220036).
      replace ((54720 - m) * -61259220036)
        with (1485036 * (499 * c1 + 249999 * c2 - 41251 * 54720)) by lia.
      exact Hfrac. }
    rewrite Eq, IsInt_Z2Rat. cbn [negb deref bind]. rewrite Num_Z2Rat.
    rewrite Div_pos by lia. rewrite Hm, Z.div_mul by lia. reflexivity.
  - destruct (big.IsInt (lag F [500; 2; 3])) eqn:Eint; [|reflexivity].
    exfalso. apply Hmod. apply Z.mod_divide; [lia|].
    destruct (isFrac_IsInt _ _ _ Hfrac Eint) as [k Hk].
    exists (54720 - k). lia.
Qed.

(** C8 on concrete draws. When both drawn coefficients are 0 the corrupted
    shares reconstruct 456 without an error, with [x = 500] and with the
    out-of-range value [x = 0]; when they are 41251 and 0 the shares
    corrupted with [x = 500] reconstruct 451 without an error. *)
Lemma ShareCombine_corrupted_x_counterexample :
  ShareIntegers 456 7919 100 2 5 (fun _ => 0)
  = Ok [mkShare None (Some 120) 2 1 (Some 54720);
        mkShare None (Some 120) 2 2 (Some 54720);
        mkShare None (Some 120) 2 3 (Some 54720);
        mkShare None (Some 120) 2 4 (Some 54720);
        mkShare None (Some 120) 2 5 (Some 54720)]
  /\ ShareCombine [setX (mkShare None (Some 120) 2 1 (Some 54720)) 500;
                   mkShare None (Some 120) 2 2 (Some 54720);
                   mkShare None (Some 120) 2 3 (Some 54720);
                   mkShare None (Some 120) 2 4 (Some 54720);
                   mkShare None (Some 120) 2 5 (Some 54720)] = Ok 456
  /\ ShareCombine [setX (mkShare None (Some 120) 2 1 (Some 54720)) 0;
                   mkShare None (Some 120) 2 2 (Some 54720);
                   mkShare None (Some 120) 2 3 (Some 54720);
                   mkShare None (Some 120) 2 4 (Some 54720);
                   mkShare None (Some 120) 2 5 (Some 54720)] = Ok 456
  /\ ShareIntegers 456 7919 100 2 5 (fun k => if Nat.eqb k 0 then 41251 else 0)
     = Ok [mkShare None (Some 120) 2 1 (Some 95971);
           mkShare None (Some 120) 2 2 (Some 137222);
           mkShare None (Some 120) 2 3 (Some 178473);
           mkShare None (Some 120) 2 4 (Some 219724);
           mkShare None (Some 120) 2 5 (Some 260975)]
  /\ ShareCombine [setX (mkShare None (Some 120) 2 1 (Some 95971)) 500;
                   mkShare None (Some 120) 2 2 (Some 137222);
                   mkShare None (Some 120) 2 3 (Some 178473);
                   mkShare None (Some 120) 2 4 (Some 219724);
                   mkShare None (Some 120) 2 5 (Some 260975)] = Ok 451.
Proof. vm_compute. repeat split; reflexivity. Qed.

(** * The helper [factorial] *)

Lemma MulRange_from_one m :
  fold_left Z.mul (map (fun k => 1 + Z.of_nat k) (seq 0 m)) 1 = Z.of_nat (fact m).
Proof.
  induction m as [|m IH]; [reflexivity|].
  rewrite seq_S, map_app, fold_left_app, IH. cbn [map fold_left Nat.add].
  change (fact (S m)) with (S m * fact m)%nat. lia.
Qed.

Lemma factorial_of_nat (n : Z) : factorial n = Z.of_nat (fact (Z.to_nat n)).
Proof.
  unfold factorial, big.MulRange.
  replace (Z.to_nat (n - 1 + 1)) with (Z.to_nat n) by lia.
  apply MulRange_from_one.
Qed.

Lemma fact_divide m : forall k, (1 <= k <= m)%nat -> Nat.divide k (fact m).
Proof.
  induction m as [|m IH]; intros k Hk; [lia|].
  cbn [fact]. destruct (Nat.eq_dec k (S m)) as [->|Hne].
  - apply Nat.divide_factor_l.
  - apply Nat.divide_mul_r. apply IH. lia.
Qed.

Lemma factorial_divide n k : 1 <= k <= n -> (k | factorial n).
Proof.
  intros Hk. rewrite factorial_of_nat.
  destruct (fact_divide (Z.to_nat n) (Z.to_nat k) ltac:(lia)) as [q Hq].
  exists (Z.of_nat q). rewrite Hq. lia.
Qed.

(** X1: [factorial(n)] is [n!]: 1 for [n <= 0] (the empty range of
    [MulRange]) and [n * factorial(n-1)] for [n > 0]; every [k] in
    [[1, n]], in particular every [x] of a share, divides it. *)
Theorem factorial_fact (n : Z) :
  factorial n = Z.of_nat (fact (Z.to_nat n))
  /\ (n <= 0 -> factorial n = 1)
  /\ (0 < n -> factorial n = n * factorial (n - 1))
  /\ forall k, 1 <= k <= n -> (k | factorial n).
Proof.
  split; [apply factorial_of_nat|]. split; [|split].
  - intros Hn. rewrite factorial_of_nat.
    replace (Z.to_nat n) with 0%nat by lia. reflexivity.
  - intros Hn. rewrite !factorial_of_nat.
    replace (Z.to_nat n) with (S (Z.to_nat (n - 1))) by lia.
    change (fact (S (Z.to_nat (n - 1))))
      with (S (Z.to_nat (n - 1)) * fact (Z.to_nat (n - 1)))%nat.
    rewrite Nat2Z.inj_mul.
    replace (Z.of_nat (S (Z.to_nat (n - 1)))) with n by lia. reflexivity.
  - intros k Hk. now apply factorial_divide.
Qed.

(** * The shape of the generated shares *)

Lemma drawCoefficients_range rnd max count : forall k cs,
  drawCoefficients rnd max k count = Ok cs ->
  Forall (fun c => 0 <= c < max) cs.
Proof.
  induction count as [|count IH]; intros k cs H; cbn [drawCoefficients] in H.
  - injection H as <-. constructor.
  - unfold rand_Int in H. destruct (Z.leb_spec max 0); [discriminate|].
    cbn [bind] in H.
    destruct (drawCoefficients rnd max (S k) count) as [cs'| |] eqn:E;
      cbn [bind] in H; try discriminate.
    injection H as <-. constructor.
    + apply Z.mod_pos_bound. lia.
    + eapply IH. eassumption.
Qed.

Lemma peval_nonneg cs x :
  Forall (fun c => 0 <= c) cs -> 0 <= x -> 0 <= peval cs x.
Proof.
  intros Hcs Hx. induction Hcs as [|c cs Hc _ IH]; cbn [peval]; [lia|nia].
Qed.

Lemma nth_error_map_seq {A : Type} (g : nat -> A) n i a :
  nth_error (map g (seq 0 n)) i = Some a -> (i < n)%nat /\ a = g i.
Proof.
  intros H. rewrite nth_error_map in H.
  destruct (nth_error (seq 0 n) i) as [j|] eqn:E; [|discriminate].
  injection H as <-.
  assert (Hi : (i < n)%nat).
  { assert (Hsome : nth_error (seq 0 n) i <> None) by congruence.
    apply nth_error_Some in Hsome. now rewrite length_seq in Hsome. }
  apply (nth_error_nth _ _ 0%nat) in E. rewrite seq_nth in E by assumption.
  subst j. split; [assumption|reflexivity].
Qed.

(** X2: for a positive field size and non-negative lengths that [make]
    accepts, [ShareFiniteField] returns exactly [nShares] shares; the share
    at index [i] has [x = i+1], the given degree and field size, no factor,
    and a [y] in [[0, fieldSize)]. *)
Theorem ShareFiniteField_shape (secret p d n : Z) (rnd : nat -> Z) :
  0 < p -> 0 <= d -> ptrSize * d <= maxAlloc ->
  0 <= n -> shareSize * n <= maxAlloc ->
  exists shares,
    ShareFiniteField secret p d n rnd = Ok shares
    /\ Z.of_nat (length shares) = n
    /\ forall i s, nth_error shares i = Some s ->
         FieldSize s = Some p /\ Factor s = None /\ Degree s = d
         /\ X s = Z.of_nat i + 1
         /\ exists y, Y s = Some y /\ 0 <= y < p.
Proof.
  intros Hp Hd Hda Hn Hna.
  destruct (ShareFiniteField_value secret p d n rnd Hp Hd Hda Hn Hna) as [cs [_ Hgen]].
  eexists. split; [exact Hgen|]. split.
  - rewrite length_map, length_seq. lia.
  - intros i s Hs. apply nth_error_map_seq in Hs. destruct Hs as [_ ->].
    unfold fieldShareAt. cbn [FieldSize Factor Degree X Y].
    repeat split. eexists. split; [reflexivity|].
    apply Z.mod_pos_bound. assumption.
Qed.

Lemma ShareFiniteField_shape_witness :
  exists shares,
    ShareFiniteField 123 7919 3 5 rnd_test = Ok shares
    /\ Z.of_nat (length shares) = 5
    /\ forall i s, nth_error shares i = Some s ->
         FieldSize s = Some 7919 /\ Factor s = None /\ Degree s = 3
         /\ X s = Z.of_nat i + 1
         /\ exists y, Y s = Some y /\ 0 <= y < 7919.
Proof.
  apply (ShareFiniteField_shape 123 7919 3 5 rnd_test).
  - lia.
  - lia.
  - unfold ptrSize, maxAlloc. lia.
  - lia.
  - unfold shareSize, ptrSize, maxAlloc. lia.
Defined.

Lemma ShareIntegers_coefficients secret B sigma d n rnd shares :
  0 <= d <= max_int -> 0 <= n <= max_int ->
  ShareIntegers secret B sigma d n rnd = Ok shares ->
  exists cs, length cs = Z.to_nat d
    /\ Forall (fun c => 0 <= c < coefficientUpperBound sigma n B) cs
    /\ shares = map (intShareAt (factorial n) d (secret * factorial n :: cs))
                    (seq 0 (Z.to_nat n)).
Proof.
  intros Hd Hn Hgen.
  destruct (ShareIntegers_value secret B sigma d n rnd shares Hd Hn Hgen)
    as [cs [Hlen Hshares]].
  unfold ShareIntegers in Hgen.
  destruct (make_len ptrSize d) as [dlen| |] eqn:Ed; cbn [bind] in Hgen;
    try discriminate.
  apply make_len_inv in Ed. destruct Ed as (_ & _ & ->).
  destruct (drawCoefficients rnd _ 0 (Z.to_nat d)) as [cs'| |] eqn:Hcs;
    cbn [bind] in Hgen; try discriminate.
  destruct (make_len shareSize n) as [nlen| |] eqn:En; cbn [bind] in Hgen;
    try discriminate.
  apply make_len_inv in En. destruct En as (_ & _ & ->).
  exists cs'. split; [eapply drawCoefficients_length; eassumption|].
  split; [eapply drawCoefficients_range; eassumption|].
  rewrite mapM_ok with (g := intShareAt (factorial n) d (secret * factorial n :: cs'))
    in Hgen.
  - congruence.
  - intros i Hi. apply in_seq in Hi.
    rewrite wrap_small by (unfold min_int, max_int in *; lia).
    rewrite addTerms_poly
      by (rewrite (drawCoefficients_length _ _ _ _ _ Hcs); lia).
    reflexivity.
Qed.

(** X3: the shares [ShareIntegers] returns: exactly [nShares] of them; the
    share at index [i] has [x = i+1], the given degree, no field size and
    the factor [nShares!]; its [y] is at least [secret * nShares!] and is a
    multiple of its [x]. *)
Theorem ShareIntegers_shape (secret B sigma d n : Z) (rnd : nat -> Z) shares :
  0 <= d <= max_int -> 0 <= n <= max_int ->
  ShareIntegers secret B sigma d n rnd = Ok shares ->
  Z.of_nat (length shares) = n
  /\ forall i s, nth_error shares i = Some s ->
       FieldSize s = None /\ Factor s = Some (factorial n) /\ Degree s = d
       /\ X s = Z.of_nat i + 1
       /\ exists y, Y s = Some y /\ secret * factorial n <= y /\ (X s | y).
Proof.
  intros Hd Hn Hgen.
  destruct (ShareIntegers_coefficients _ _ _ _ _ _ _ Hd Hn Hgen)
    as (cs & _ & Hrange & ->).
  split; [rewrite length_map, length_seq; lia|].
  intros i s Hs. apply nth_error_map_seq in Hs. destruct Hs as [Hi ->].
  unfold intShareAt. cbn [FieldSize Factor Degree X Y].
  repeat split. eexists. split; [reflexivity|].
  cbn [peval]. split.
  - assert (0 <= peval cs (Z.of_nat i + 1)).
    { apply peval_nonneg; [|lia].
      eapply Forall_impl; [|exact Hrange]. cbn. intros; lia. }
    nia.
  - apply Z.divide_add_r.
    + apply Z.divide_mul_r. apply factorial_divide. lia.
    + apply Z.divide_factor_l.
Qed.

Lemma ShareIntegers_shape_witness :
  Z.of_nat (length [mkShare None (Some 2) 1 1 (Some 7); mkShare None (Some 2) 1 2 (Some 8)]) = 2
  /\ forall i s,
       nth_error [mkShare None (Some 2) 1 1 (Some 7); mkShare None (Some 2) 1 2 (Some 8)] i
       = Some s ->
       FieldSize s = None /\ Factor s = Some (factorial 2) /\ Degree s = 1
       /\ X s = Z.of_nat i + 1
       /\ exists y, Y s = Some y /\ 3 * factorial 2 <= y /\ (X s | y).
Proof.
  apply (ShareIntegers_shape 3 1 0 1 2 (fun _ => 1)).
  - unfold max_int. lia.
  - unfold max_int. lia.
  - vm_compute. reflexivity.
Defined.

(** X4: with degree 0 no coefficient is drawn: for a share count [make]
    accepts, every share of [ShareFiniteField] carries
    [secret mod fieldSize], and every share of [ShareIntegers] carries
    [secret * nShares!]. *)
Theorem generators_degree_zero (secret p B sigma n : Z) (rnd : nat -> Z) :
  0 <= n -> shareSize * n <= maxAlloc ->
  (0 < p ->
   exists shares,
     ShareFiniteField secret p 0 n rnd = Ok shares
     /\ Z.of_nat (length shares) = n
     /\ forall s, In s shares -> Y s = Some (secret mod p))
  /\ exists shares,
       ShareIntegers secret B sigma 0 n rnd = Ok shares
       /\ Z.of_nat (length shares) = n
       /\ forall s, In s shares -> Y s = Some (secret * factorial n).
Proof.
  intros Hn Hna.
  pose proof (alloc_int n (or_intror Hna)) as Hni.
  assert (Hda : ptrSize * 0 <= maxAlloc) by (unfold ptrSize, maxAlloc; lia).
  split.
  - intros Hp.
    destruct (ShareFiniteField_value secret p 0 n rnd Hp) as [cs [Hlen Hgen]];
      try assumption; try lia.
    destruct cs; [|discriminate].
    eexists. split; [exact Hgen|]. split; [rewrite length_map, length_seq; lia|].
    intros s Hs. apply in_map_iff in Hs. destruct Hs as [i [<- _]].
    unfold fieldShareAt. cbn [Y peval]. do 2 f_equal. ring.
  - destruct (ShareIntegers_runs secret B sigma 0 n rnd) as [shares Hgen];
      try assumption; try lia.
    exists shares. split; [assumption|].
    assert (H0 : 0 <= 0 <= max_int) by (unfold max_int; lia).
    destruct (ShareIntegers_value secret B sigma 0 n rnd shares H0
                ltac:(lia) Hgen) as [cs [Hlen ->]].
    destruct cs; [|discriminate].
    split; [rewrite length_map, length_seq; lia|].
    intros s Hs. apply in_map_iff in Hs. destruct Hs as [i [<- _]].
    unfold intShareAt. cbn [Y peval]. f_equal. ring.
Qed.

Lemma generators_degree_zero_witness :
  (0 < 7919 ->
   exists shares,
     ShareFiniteField 8000 7919 0 3 rnd_test = Ok shares
     /\ Z.of_nat (length shares) = 3
     /\ forall s, In s shares -> Y s = Some (8000 mod 7919))
  /\ exists shares,
       ShareIntegers 8000 10000 100 0 3 rnd_test = Ok shares
       /\ Z.of_nat (length shares) = 3
       /\ forall s, In s shares -> Y s = Some (8000 * factorial 3).
Proof.
  apply (generators_degree_zero 8000 7919 10000 100 3 rnd_test).
  - lia.
  - unfold shareSize, ptrSize, maxAlloc. lia.
Defined.

(** * Panics of the generators *)

Lemma drawCoefficients_noErr rnd max count : forall k,
  noErr (drawCoefficients rnd max k count).
Proof.
  induction count as [|count IH]; intros k; cbn [drawCoefficients].
  - apply noErr_Ok.
  - apply noErr_bind.
    + unfold rand_Int. destruct (max <=? 0); [apply noErr_Panic|apply noErr_Ok].
    + intros c. apply noErr_bind; [apply IH|]. intros cs. apply noErr_Ok.
Qed.

Lemma drawCoefficients_panics rnd max count k :
  max <= 0 -> (0 < count)%nat -> drawCoefficients rnd max k count = Panic.
Proof.
  intros Hmax Hcount. destruct count as [|count]; [lia|].
  cbn [drawCoefficients]. unfold rand_Int.
  destruct (Z.leb_spec max 0); [reflexivity|lia].
Qed.

(** X5: the generators return no error value; they panic on a negative
    degree or share count, and when a coefficient has to be drawn below a
    bound that is not positive: a field size [<= 0] for [ShareFiniteField],
    and for [ShareIntegers] a coefficient bound [<= 0], as with a secret
    bound of 0. *)
Theorem generators_panic (secret p B sigma d n : Z) (rnd : nat -> Z) :
  noErr (ShareFiniteField secret p d n rnd)
  /\ noErr (ShareIntegers secret B sigma d n rnd)
  /\ (d < 0 \/ n < 0 ->
      ShareFiniteField secret p d n rnd = Panic
      /\ ShareIntegers secret B sigma d n rnd = Panic)
  /\ (0 < d -> p <= 0 -> ShareFiniteField secret p d n rnd = Panic)
  /\ (0 < d -> coefficientUpperBound sigma n B <= 0 ->
      ShareIntegers secret B sigma d n rnd = Panic)
  /\ (0 < d -> B = 0 -> ShareIntegers secret B sigma d n rnd = Panic).
Proof.
  assert (HF : noErr (ShareFiniteField secret p d n rnd)).
  { unfold ShareFiniteField.
    apply noErr_bind; [apply make_len_noErr|].
    intros dlen. apply noErr_bind; [apply drawCoefficients_noErr|].
    intros cs. apply noErr_bind; [apply make_len_noErr|].
    intros nlen. generalize (seq 0 nlen). intros l.
    induction l as [|i l IH]; cbn [mapM]; [apply noErr_Ok|].
    apply noErr_bind.
    - apply noErr_bind; [apply noErr_Mod|]. intros y. apply noErr_Ok.
    - intros b. apply noErr_bind; [exact IH|]. intros bs. apply noErr_Ok. }
  assert (HI : noErr (ShareIntegers secret B sigma d n rnd)).
  { unfold ShareIntegers.
    apply noErr_bind; [apply make_len_noErr|].
    intros dlen. apply noErr_bind; [apply drawCoefficients_noErr|].
    intros cs. apply noErr_bind; [apply make_len_noErr|].
    intros nlen. generalize (seq 0 nlen). intros l.
    induction l as [|i l IH]; cbn [mapM]; [apply noErr_Ok|].
    apply noErr_bind; [apply noErr_Ok|].
    intros b. apply noErr_bind; [exact IH|]. intros bs. apply noErr_Ok. }
  assert (Hdraw : forall (max : Z) (k : list Z -> outcome (list Share)),
             0 < d -> max <= 0 ->
             (dlen <- make_len ptrSize d ;;
              coefficients <- drawCoefficients rnd max 0 dlen ;; k coefficients)
             = Panic).
  { intros max k Hd Hmax.
    destruct (make_len ptrSize d) as [dlen|e|] eqn:Ed; cbn [bind].
    - apply make_len_inv in Ed. destruct Ed as (_ & _ & ->).
      rewrite drawCoefficients_panics by lia. reflexivity.
    - exfalso. exact (make_len_noErr _ _ e Ed).
    - reflexivity. }
  assert (Hneg : forall (max : Z) (k : list Z -> nat -> outcome (list Share)),
             d < 0 \/ n < 0 ->
             (dlen <- make_len ptrSize d ;;
              coefficients <- drawCoefficients rnd max 0 dlen ;;
              nlen <- make_len shareSize n ;; k coefficients nlen)
             = Panic).
  { intros max k Hdn.
    destruct (make_len ptrSize d) as [dlen|e|] eqn:Ed; cbn [bind].
    - apply make_len_inv in Ed. destruct Ed as (Hd0 & _ & ->).
      pose proof (drawCoefficients_noErr rnd max (Z.to_nat d) 0) as Hne.
      destruct (drawCoefficients rnd max 0 (Z.to_nat d)) as [cs|e|]; cbn [bind].
      + unfold make_len. destruct (Z.ltb_spec n 0); [reflexivity|lia].
      + exfalso. now apply (Hne e).
      + reflexivity.
    - exfalso. exact (make_len_noErr _ _ e Ed).
    - reflexivity. }
  assert (HIp : 0 < d -> coefficientUpperBound sigma n B <= 0 ->
                ShareIntegers secret B sigma d n rnd = Panic).
  { intros Hd Hb. unfold ShareIntegers. now apply Hdraw. }
  split; [exact HF|]. split; [exact HI|]. split; [|split; [|split]].
  - intros Hdn. split.
    + unfold ShareFiniteField. now apply Hneg.
    + unfold ShareIntegers. now apply Hneg.
  - intros Hd Hp. unfold ShareFiniteField. now apply Hdraw.
  - exact HIp.
  - intros Hd ->. apply HIp; [assumption|].
    unfold coefficientUpperBound. lia.
Qed.

(** * The threshold on generated shares *)

(** X6: the threshold of a finite-field sharing with [d < n <= p], [p]
    prime, and lengths [make] accepts: [n] pairwise different shares are
    returned, and on a non-empty selection of distinct ones, in any order,
    [ShareCombine] returns [ErrorTooFewShares] when it holds at most [d]
    shares and [secret mod p] when it holds more than [d], however many
    more. *)
Theorem ShareFiniteField_threshold (secret p d n : Z) (rnd : nat -> Z) :
  Z.prime p -> 0 <= d < n -> n <= p ->
  ptrSize * d <= maxAlloc -> shareSize * n <= maxAlloc ->
  exists shares,
    ShareFiniteField secret p d n rnd = Ok shares
    /\ Z.of_nat (length shares) = n
    /\ NoDup shares
    /\ forall sub,
         sub <> [] -> NoDup sub -> incl sub shares ->
         (Z.of_nat (length sub) <= d -> ShareCombine sub = Err ErrorTooFewShares)
         /\ (d < Z.of_nat (length sub) -> ShareCombine sub = Ok (secret mod p)).
Proof.
  intros Hp Hd Hnp Hda Hna.
  pose proof (Z.prime_ge_2 p Hp) as Hp2.
  pose proof (alloc_int n (or_intror Hna)) as Hni.
  destruct (ShareFiniteField_value secret p d n rnd) as [cs [Hcs Hgen]]; try lia.
  eexists. split; [exact Hgen|].
  split; [rewrite length_map, length_seq; lia|].
  split; [apply generated_NoDup; reflexivity|].
  intros sub Hne Hnd Hincl.
  assert (Hall : forall s, In s sub -> onFieldPoly p d (secret :: cs) s).
  { intros s Hs. apply Hincl, in_map_iff in Hs. destruct Hs as [i [<- Hi]].
    apply in_seq in Hi. unfold onFieldPoly, fieldShareAt.
    cbn [FieldSize Degree X Y]. repeat split; lia. }
  split.
  - intros Hlen. destruct sub as [|s0 rest]; [contradiction|].
    apply ShareCombine_too_few.
    destruct (Hall s0 (or_introl eq_refl)) as (_ & -> & _). assumption.
  - intros Hlen.
    rewrite (ShareCombine_field_more sub p d (secret :: cs)); try assumption; try lia.
    + do 2 f_equal. cbn [peval]. ring.
    + cbn [length]. lia.
    + eapply selection_nodes; [|eassumption|eassumption]. reflexivity.
Qed.

Lemma ShareFiniteField_threshold_witness :
  exists shares,
    ShareFiniteField 123 7919 3 5 rnd_test = Ok shares
    /\ Z.of_nat (length shares) = 5
    /\ NoDup shares
    /\ forall sub,
         sub <> [] -> NoDup sub -> incl sub shares ->
         (Z.of_nat (length sub) <= 3 -> ShareCombine sub = Err ErrorTooFewShares)
         /\ (3 < Z.of_nat (length sub) -> ShareCombine sub = Ok (123 mod 7919)).
Proof.
  apply (ShareFiniteField_threshold 123 7919 3 5 rnd_test).
  - exact prime_7919.
  - lia.
  - lia.
  - unfold ptrSize, maxAlloc. lia.
  - unfold shareSize, ptrSize, maxAlloc. lia.
Defined.

(** X7: the threshold of an integer sharing with [d < n]: on a non-empty
    selection of distinct returned shares, in any order, [ShareCombine]
    returns [ErrorTooFewShares] when it holds at most [d] shares and
    [secret] when it holds more than [d]. *)
Theorem ShareIntegers_threshold (secret B sigma d n : Z) (rnd : nat -> Z) shares :
  0 <= d < n -> n <= max_int ->
  ShareIntegers secret B sigma d n rnd = Ok shares ->
  forall sub,
    sub <> [] -> NoDup sub -> incl sub shares ->
    (Z.of_nat (length sub) <= d -> ShareCombine sub = Err ErrorTooFewShares)
    /\ (d < Z.of_nat (length sub) -> ShareCombine sub = Ok secret).
Proof.
  intros Hd Hn Hgen sub Hne Hnd Hincl.
  destruct (ShareIntegers_value secret B sigma d n rnd shares
              ltac:(lia) ltac:(lia) Hgen) as [cs [Hcs ->]].
  pose proof (factorial_pos n) as Hf.
  assert (Hall : forall s, In s sub ->
            onIntegerPoly d (factorial n) (secret * factorial n :: cs) s).
  { intros s Hs. apply Hincl, in_map_iff in Hs. destruct Hs as [i [<- Hi]].
    apply in_seq in Hi. unfold onIntegerPoly, intShareAt.
    cbn [FieldSize Factor Degree X Y]. repeat split; lia. }
  split.
  - intros Hlen. destruct sub as [|s0 rest]; [contradiction|].
    apply ShareCombine_too_few.
    destruct (Hall s0 (or_introl eq_refl)) as (_ & _ & -> & _). assumption.
  - intros Hlen.
    rewrite (ShareCombine_integers_more sub d (factorial n) (secret * factorial n :: cs));
      try assumption; try lia.
    + f_equal. cbn [peval]. rewrite Z.mul_0_l, Z.add_0_r. apply Z.div_mul. lia.
    + cbn [length]. lia.
    + eapply selection_nodes; [|eassumption|eassumption]. reflexivity.
Qed.

Lemma ShareIntegers_threshold_witness :
  (Z.of_nat (length [mkShare None (Some 2) 1 2 (Some 8); mkShare None (Some 2) 1 1 (Some 7)])
   <= 1 ->
   ShareCombine [mkShare None (Some 2) 1 2 (Some 8); mkShare None (Some 2) 1 1 (Some 7)]
   = Err ErrorTooFewShares)
  /\ (1 < Z.of_nat (length [mkShare None (Some 2) 1 2 (Some 8);
                            mkShare None (Some 2) 1 1 (Some 7)]) ->
      ShareCombine [mkShare None (Some 2) 1 2 (Some 8); mkShare None (Some 2) 1 1 (Some 7)]
      = Ok 3).
Proof.
  apply (ShareIntegers_threshold 3 1 0 1 2 (fun _ => 1)
           [mkShare None (Some 2) 1 1 (Some 7); mkShare None (Some 2) 1 2 (Some 8)]).
  - lia.
  - unfold max_int. lia.
  - vm_compute. reflexivity.
  - discriminate.
  - constructor; [|constructor; [|constructor]].
    + intros [H|[]]. discriminate H.
    + intros [].
  - intros s [<-|[<-|[]]]; [right; left|left]; reflexivity.
Defined.

(** * The range of a finite-field result *)

Lemma Mod_range x y r : big.Mod x y = Ok r -> 0 <= r < Z.abs y.
Proof.
  unfold big.Mod. destruct (Z.eqb_spec y 0) as [|Hy]; [discriminate|].
  intros H. injection H as <-.
  pose proof (Z.rem_bound_abs x y Hy).
  destruct (Z.ltb_spec (Z.rem x y) 0); [destruct (Z.ltb_spec y 0)|]; lia.
Qed.

(** X8: whatever the shares, a value [ShareCombine] returns in the
    finite-field case lies in [[0, |fieldSize|)]. *)
Theorem ShareCombine_field_range (shares : list Share) (s0 : Share) (p v : Z) :
  hd_error shares = Some s0 -> FieldSize s0 = Some p ->
  ShareCombine shares = Ok v ->
  0 <= v < Z.abs p.
Proof.
  intros Hhd Hfs H. destruct shares as [|s rest]; [discriminate|].
  injection Hhd as ->. unfold ShareCombine in H.
  destruct (Z.of_nat (length (s0 :: rest)) <=? Degree s0); [discriminate|].
  destruct (existsb (combineMismatch s0) rest); [discriminate|].
  destruct (interpolate (s0 :: rest) (Degree s0)) as [secret| |];
    cbn [bind] in H; try discriminate.
  rewrite Hfs in H.
  destruct (deref (big.ModInverse (big.Denom secret) p)) as [inv| |];
    cbn [bind] in H; try discriminate.
  eapply Mod_range. eassumption.
Qed.

Lemma ShareCombine_field_range_witness : 0 <= 3 < Z.abs 7.
Proof.
  apply (ShareCombine_field_range
           [mkShare (Some 7) None 1 1 (Some 5); mkShare (Some 7) None 1 2 (Some 0)]
           (mkShare (Some 7) None 1 1 (Some 5)) 7 3).
  - reflexivity.
  - reflexivity.
  - vm_compute. reflexivity.
Defined.

(** * The order of the shares *)

Lemma basis_perm x r r' : Permutation r r' -> basis x r = basis x r'.
Proof.
  induction 1 as [|a r r' _ IH|a b r|r r' r'' _ IH1 _ IH2]; cbn [basis].
  - reflexivity.
  - now rewrite IH.
  - ring.
  - congruence.
Qed.

Lemma lag_perm l l' : Permutation l l' -> forall F, lag F l = lag F l'.
Proof.
  induction 1 as [|a r r' Hp IH|a b r|r r' r'' _ IH1 _ IH2]; intros F.
  - reflexivity.
  - cbn [lag]. rewrite (basis_perm a r r' Hp), IH. reflexivity.
  - apply lag_swap.
  - rewrite IH1. apply IH2.
Qed.

Lemma valueAt_spec l : NoDup (map X l) ->
  forall s y, In s l -> Y s = Some y -> valueAt l (X s) = big.Z2Rat y.
Proof.
  induction l as [|a r IH]; intros Hnd s y Hs Hy; [destruct Hs|].
  cbn [map] in Hnd. inversion Hnd as [|? ? Hna Hnd']; subst.
  cbn [valueAt]. destruct Hs as [->|Hs].
  - rewrite Z.eqb_refl, Hy. reflexivity.
  - destruct (Z.eqb_spec (X a) (X s)) as [E|_].
    + exfalso. apply Hna. rewrite E. apply in_map. assumption.
    + apply IH; assumption.
Qed.

(** The value [ShareCombine] computes on [degree+1] well-formed shares that
    agree on their parameters. *)
Lemma ShareCombine_lag l s0 :
  hd_error l = Some s0 ->
  Z.of_nat (length l) = Degree s0 + 1 ->
  (forall s, In s l -> FieldSize s = FieldSize s0 /\ Degree s = Degree s0) ->
  (forall s, In s l -> 0 <= X s <= max_int /\ Y s <> None) ->
  NoDup (map X l) ->
  ShareCombine l
  = match FieldSize s0 with
    | Some p =>
        inv <- deref (big.ModInverse (big.Denom (lag (valueAt l) (map X l))) p) ;;
        big.Mod (big.Num (lag (valueAt l) (map X l)) * inv) p
    | None =>
        if negb (big.IsInt (lag (valueAt l) (map X l))) then Err ErrorFractionalSecret
        else f <- deref (Factor s0) ;; big.Div (big.Num (lag (valueAt l) (map X l))) f
    end.
Proof.
  intros Hhd Hlen Hsame Hwf Hnd.
  destruct l as [|s rest] eqn:El; [discriminate|]. injection Hhd as ->.
  rewrite <- El in *.
  assert (Hint : interpolate l (Degree s0) = Ok (lag (valueAt l) (map X l))).
  { apply interpolate_lag; try assumption.
    - intros s Hs. apply (Hwf s Hs).
    - intros s Hs. destruct (Hwf s Hs) as [_ Hy].
      destruct (Y s) as [y|] eqn:Ey; [|contradiction].
      exists y. split; [reflexivity|]. now apply valueAt_spec. }
  rewrite El at 1. unfold ShareCombine. rewrite <- El.
  destruct (Z.leb_spec (Z.of_nat (length l)) (Degree s0)); [lia|].
  rewrite existsb_mismatch_false.
  - rewrite Hint. reflexivity.
  - intros s Hs. apply Hsame. rewrite El. right. assumption.
Qed.

(** X9: the order of the shares does not matter: on at most [degree+1]
    shares that agree on field size, degree and factor, with a [y] each and
    pairwise different [x] in [[0, max_int]], [ShareCombine] returns the
    same outcome on every permutation of the list. *)
Theorem ShareCombine_permutation (l l' : list Share) :
  Permutation l l' ->
  (forall s s', In s l -> In s' l ->
     FieldSize s = FieldSize s' /\ Degree s = Degree s' /\ Factor s = Factor s') ->
  (forall s, In s l -> Z.of_nat (length l) <= Degree s + 1) ->
  (forall s, In s l -> 0 <= X s <= max_int /\ Y s <> None) ->
  NoDup (map X l) ->
  ShareCombine l = ShareCombine l'.
Proof.
  intros Hperm Hsame Hlen Hwf Hnd.
  destruct l as [|s0 rest] eqn:El.
  { apply Permutation_nil in Hperm. now subst. }
  destruct l' as [|s0' rest'] eqn:El'.
  { apply Permutation_sym, Permutation_nil in Hperm. discriminate. }
  rewrite <- El, <- El' in *.
  assert (Hs0 : In s0 l) by (rewrite El; left; reflexivity).
  assert (Hs0' : In s0' l).
  { eapply Permutation_in; [apply Permutation_sym; eassumption|].
    rewrite El'. left. reflexivity. }
  pose proof (Permutation_length Hperm) as Hlenp.
  destruct (Hsame s0' s0 Hs0' Hs0) as (Hfs & Hdeg & Hfac).
  destruct (Z.eq_dec (Z.of_nat (length l)) (Degree s0 + 1)) as [Heq|Hneq].
  - rewrite (ShareCombine_lag l s0); try assumption; try (rewrite El; reflexivity).
    2:{ intros s Hs. destruct (Hsame s s0 Hs Hs0) as (? & ? & _). split; assumption. }
    rewrite (ShareCombine_lag l' s0'); try (rewrite El'; reflexivity).
    + assert (E : lag (valueAt l') (map X l') = lag (valueAt l) (map X l)).
      { rewrite (lag_perm (map X l) (map X l')) by (apply Permutation_map; assumption).
        apply lag_ext. intros x Hx. apply in_map_iff in Hx.
        destruct Hx as [s [<- Hs]].
        assert (Hs' : In s l) by (eapply Permutation_in;
                                  [apply Permutation_sym; eassumption|assumption]).
        destruct (Hwf s Hs') as [_ Hy].
        destruct (Y s) as [y|] eqn:Ey; [|contradiction].
        rewrite (valueAt_spec l' ltac:(eapply Permutation_NoDup;
                   [apply Permutation_map; eassumption|assumption]) s y Hs Ey).
        rewrite (valueAt_spec l Hnd s y Hs' Ey). reflexivity. }
      rewrite E, Hfs, Hfac. reflexivity.
    + rewrite <- Hlenp, Hdeg. assumption.
    + intros s Hs.
      assert (Hs' : In s l) by (eapply Permutation_in;
                                [apply Permutation_sym; eassumption|assumption]).
      destruct (Hsame s s0' Hs' Hs0') as (? & ? & _). split; assumption.
    + intros s Hs. apply Hwf. eapply Permutation_in;
        [apply Permutation_sym; eassumption|assumption].
    + eapply Permutation_NoDup; [apply Permutation_map; eassumption|assumption].
  - pose proof (Hlen s0 Hs0) as Hle.
    rewrite El, El'. rewrite !ShareCombine_too_few; [reflexivity| |].
    + rewrite <- El', <- Hlenp, Hdeg. lia.
    + rewrite <- El. lia.
Qed.

Lemma ShareCombine_permutation_witness :
  ShareCombine [mkShare (Some 7) None 1 1 (Some 5); mkShare (Some 7) None 1 2 (Some 0)]
  = ShareCombine [mkShare (Some 7) None 1 2 (Some 0); mkShare (Some 7) None 1 1 (Some 5)].
Proof.
  apply ShareCombine_permutation.
  - apply perm_swap.
  - intros s s' [<-|[<-|[]]] [<-|[<-|[]]]; repeat split; reflexivity.
  - intros s [<-|[<-|[]]]; cbn; lia.
  - intros s [<-|[<-|[]]]; cbn; unfold max_int; (split; [lia|discriminate]).
  - repeat constructor; cbn; intuition discriminate.
Defined.

(** * The values [ShareAdd] and [ShareMul] return *)

Lemma Zsum_cons y ys : Zsum (y :: ys) = y + Zsum ys.
Proof. reflexivity. Qed.

Lemma Zsum_nil : Zsum [] = 0.
Proof. reflexivity. Qed.

Lemma Zprod_cons y ys : Zprod (y :: ys) = y * Zprod ys.
Proof. reflexivity. Qed.

Lemma Zprod_nil : Zprod [] = 1.
Proof. reflexivity. Qed.

Lemma opMismatch_not_differs s0 s : ~ differs s0 s -> opMismatch s0 s = false.
Proof.
  intros H. destruct (opMismatch s0 s) eqn:E; [|reflexivity].
  exfalso. apply H. now apply opMismatch_differs.
Qed.

Lemma addStep_fold_value s0 p : forall rest ys sum a,
  0 < p -> FieldSize sum = Some p -> Y sum = Some a ->
  map Y rest = map Some ys ->
  (forall s, In s rest -> ~ differs s0 s) ->
  fold_left (addStep s0) rest (Ok sum)
  = Ok {| FieldSize := Some p; Factor := Factor sum; Degree := Degree sum;
          X := X sum;
          Y := Some (match rest with [] => a | _ :: _ => (a + Zsum ys) mod p end) |}.
Proof.
  induction rest as [|s rest IH]; intros ys sum a Hp Hfs Hy Hys Hcompat.
  - cbn [fold_left]. destruct sum. cbn in *. congruence.
  - destruct ys as [|y ys]; [discriminate|]. cbn [map] in Hys.
    injection Hys as Hys1 Hys.
    cbn [fold_left]. unfold addStep at 2. cbn [bind].
    rewrite opMismatch_not_differs by (apply Hcompat; left; reflexivity).
    rewrite Hy, Hys1, Hfs. cbn [deref bind reduceY]. rewrite Mod_pos by assumption.
    cbn [bind].
    rewrite (IH ys _ ((a + y) mod p)); cbn [FieldSize Factor Degree X Y];
      try assumption; try reflexivity.
    + do 3 f_equal. destruct rest as [|s' rest'].
      * destruct ys; [|discriminate]. rewrite ?Zsum_cons, ?Zsum_nil. now rewrite Z.add_0_r.
      * rewrite ?Zsum_cons, ?Zsum_nil. rewrite Z.add_mod_idemp_l by lia. now rewrite Z.add_assoc.
    + intros s' Hs'. apply Hcompat. right. assumption.
Qed.

Lemma addStep_fold_value_int s0 : forall rest ys sum a,
  FieldSize sum = None -> Y sum = Some a ->
  map Y rest = map Some ys ->
  (forall s, In s rest -> ~ differs s0 s) ->
  fold_left (addStep s0) rest (Ok sum)
  = Ok {| FieldSize := None; Factor := Factor sum; Degree := Degree sum;
          X := X sum; Y := Some (a + Zsum ys) |}.
Proof.
  induction rest as [|s rest IH]; intros ys sum a Hfs Hy Hys Hcompat.
  - destruct ys; [|discriminate]. cbn [fold_left]; rewrite ?Zsum_cons, ?Zsum_nil.
    rewrite Z.add_0_r. destruct sum. cbn in *. congruence.
  - destruct ys as [|y ys]; [discriminate|]. cbn [map] in Hys.
    injection Hys as Hys1 Hys.
    cbn [fold_left]. unfold addStep at 2. cbn [bind].
    rewrite opMismatch_not_differs by (apply Hcompat; left; reflexivity).
    rewrite Hy, Hys1, Hfs. cbn [deref bind reduceY].
    rewrite (IH ys _ (a + y)); cbn [FieldSize Factor Degree X Y];
      try assumption; try reflexivity.
    + do 3 f_equal. rewrite ?Zsum_cons, ?Zsum_nil. ring.
    + intros s' Hs'. apply Hcompat. right. assumption.
Qed.

(** X10: what [ShareAdd] returns on shares that carry the values [y0 :: ys]
    and do not differ from the first in field size, degree or [x]: the
    field size, factor, degree and [x] of the first share, with the sum of
    the values, which is reduced modulo a positive field size as soon as
    there are two shares; the factors of the later shares play no part. *)
Theorem ShareAdd_value (s0 : Share) (rest : list Share) (y0 : Z) (ys : list Z) :
  Y s0 = Some y0 -> map Y rest = map Some ys ->
  (forall s, In s rest -> ~ differs s0 s) ->
  (forall p, FieldSize s0 = Some p -> 0 < p) ->
  ShareAdd (s0 :: rest)
  = Ok {| FieldSize := FieldSize s0;
          Factor := Factor s0;
          Degree := Degree s0;
          X := X s0;
          Y := Some (match FieldSize s0, rest with
                     | Some p, _ :: _ => (y0 + Zsum ys) mod p
                     | _, _ => y0 + Zsum ys
                     end) |}.
Proof.
  intros Hy0 Hys Hcompat Hpos. unfold ShareAdd. rewrite Hy0. cbn [deref bind].
  destruct (FieldSize s0) as [p|] eqn:Hfs.
  - rewrite (addStep_fold_value s0 p rest ys _ y0); cbn [FieldSize Factor Degree X Y];
      try assumption; try reflexivity; [|now apply Hpos].
    destruct rest; [|reflexivity].
    destruct ys; [|discriminate]. rewrite ?Zsum_cons, ?Zsum_nil. now rewrite Z.add_0_r.
  - rewrite (addStep_fold_value_int s0 rest ys _ y0); cbn [FieldSize Factor Degree X Y];
      try assumption; reflexivity.
Qed.

Lemma ShareAdd_value_witness :
  ShareAdd [mkShare (Some 7) None 1 2 (Some 5); mkShare (Some 7) (Some 4) 1 2 (Some 6);
            mkShare (Some 7) None 1 2 (Some 3)]
  = Ok {| FieldSize := Some 7; Factor := None; Degree := 1; X := 2;
          Y := Some ((5 + Zsum [6; 3]) mod 7) |}.
Proof.
  apply (ShareAdd_value (mkShare (Some 7) None 1 2 (Some 5))
           [mkShare (Some 7) (Some 4) 1 2 (Some 6); mkShare (Some 7) None 1 2 (Some 3)]
           5 [6; 3]).
  - reflexivity.
  - reflexivity.
  - intros s [<-|[<-|[]]] [H|[H|H]]; apply H; reflexivity.
  - intros p H. injection H as <-. lia.
Defined.

Lemma degreeAfter_exact d : forall k acc,
  0 <= d -> 0 <= acc -> acc + d * Z.of_nat k <= max_int ->
  degreeAfter acc d k = acc + d * Z.of_nat k.
Proof.
  induction k as [|k IH]; intros acc Hd Hacc Hmax; cbn [degreeAfter]; [lia|].
  rewrite wrap_small by (unfold min_int, max_int in *; nia).
  rewrite IH by nia. lia.
Qed.

Lemma mulStep_fold_value s0 : forall rest ys fs sum a,
  (forall p, FieldSize sum = Some p -> 0 < p) -> Y sum = Some a ->
  map Y rest = map Some ys ->
  (Factor sum = None \/ map Factor rest = map Some fs) ->
  (forall s, In s rest -> ~ differs s0 s) ->
  fold_left (mulStep s0) rest (Ok sum)
  = Ok {| FieldSize := FieldSize sum;
          Factor := match Factor sum with
                    | Some f => Some (f * Zprod fs)
                    | None => None
                    end;
          Degree := degreeAfter (Degree sum) (Degree s0) (length rest);
          X := X sum;
          Y := Some (match FieldSize sum, rest with
                     | Some p, _ :: _ => (a * Zprod ys) mod p
                     | _, _ => a * Zprod ys
                     end) |}.
Proof.
  induction rest as [|s rest IH]; intros ys fs sum a Hpos Hy Hys Hfac Hcompat.
  - destruct ys; [|discriminate]. cbn [fold_left length degreeAfter].
    rewrite Zprod_nil, Z.mul_1_r.
    assert (Ef : match Factor sum with Some f => Some (f * Zprod fs) | None => None end
                 = Factor sum).
    { destruct Hfac as [->|Hfs]; [reflexivity|].
      destruct fs; [|discriminate]. rewrite Zprod_nil.
      destruct (Factor sum); [|reflexivity]. now rewrite Z.mul_1_r. }
    rewrite Ef. destruct sum as [fs0 fa0 de0 x0 yy0].
    cbn [FieldSize Factor Degree X Y] in *. rewrite Hy.
    destruct fs0; reflexivity.
  - destruct ys as [|y ys]; [discriminate|]. cbn [map] in Hys.
    injection Hys as Hys1 Hys.
    assert (Hne : ~ differs s0 s) by (apply Hcompat; left; reflexivity).
    assert (Hrest : forall s', In s' rest -> ~ differs s0 s')
      by (intros s' Hs'; apply Hcompat; right; assumption).
    assert (Hdeg : Degree s = Degree s0).
    { destruct (Z.eq_dec (Degree s) (Degree s0)); [assumption|].
      exfalso. apply Hne. right. left. assumption. }
    cbn [fold_left length degreeAfter]. unfold mulStep at 2. cbn [bind].
    rewrite opMismatch_not_differs by assumption.
    rewrite Hy, Hys1. cbn [deref bind]. rewrite Hdeg, Zprod_cons.
    destruct (FieldSize sum) as [p|] eqn:Hfs; cbn [reduceY].
    + assert (Hp : 0 < p) by now apply Hpos.
      rewrite Mod_pos by assumption. cbn [bind].
      assert (Hpos' : forall q, Some p = Some q -> 0 < q)
        by (intros q Hq; injection Hq as <-; assumption).
      assert (Ey : match rest with
                   | [] => (a * y) mod p * Zprod ys
                   | _ :: _ => (a * y mod p * Zprod ys) mod p
                   end = (a * (y * Zprod ys)) mod p).
      { destruct rest as [|s' rest'].
        - destruct ys; [|discriminate]. now rewrite Zprod_nil, !Z.mul_1_r.
        - rewrite Z.mul_mod_idemp_l by lia. now rewrite Z.mul_assoc. }
      destruct (Factor sum) as [f|] eqn:Ef.
      * destruct Hfac as [Hfac|Hfac]; [discriminate|].
        destruct fs as [|g fs]; [discriminate|]. cbn [map] in Hfac.
        injection Hfac as Hg Hfac. rewrite Hg. cbn [deref bind].
        match goal with |- fold_left _ _ (Ok ?S0) = _ =>
          rewrite (IH ys fs S0 ((a * y) mod p) Hpos' eq_refl Hys (or_intror Hfac) Hrest) end.
        cbn [FieldSize Factor Degree X Y].
        rewrite Ey, Zprod_cons, !Z.mul_assoc. reflexivity.
      * cbn [bind].
        match goal with |- fold_left _ _ (Ok ?S0) = _ =>
          rewrite (IH ys fs S0 ((a * y) mod p) Hpos' eq_refl Hys (or_introl eq_refl) Hrest) end.
        cbn [FieldSize Factor Degree X Y].
        rewrite Ey. reflexivity.
    + cbn [bind].
      assert (Hpos' : forall q, @None Z = Some q -> 0 < q) by discriminate.
      destruct (Factor sum) as [f|] eqn:Ef.
      * destruct Hfac as [Hfac|Hfac]; [discriminate|].
        destruct fs as [|g fs]; [discriminate|]. cbn [map] in Hfac.
        injection Hfac as Hg Hfac. rewrite Hg. cbn [deref bind].
        match goal with |- fold_left _ _ (Ok ?S0) = _ =>
          rewrite (IH ys fs S0 (a * y) Hpos' eq_refl Hys (or_intror Hfac) Hrest) end.
        cbn [FieldSize Factor Degree X Y].
        rewrite Zprod_cons, !Z.mul_assoc. reflexivity.
      * cbn [bind].
        match goal with |- fold_left _ _ (Ok ?S0) = _ =>
          rewrite (IH ys fs S0 (a * y) Hpos' eq_refl Hys (or_introl eq_refl) Hrest) end.
        cbn [FieldSize Factor Degree X Y].
        rewrite !Z.mul_assoc. reflexivity.
Qed.

(** X11: what [ShareMul] returns on [k] shares of the same non-negative
    degree [d] that carry the values [y0 :: ys] and do not differ from the
    first in field size, degree or [x]: the product of the values (reduced
    modulo a positive field size as soon as there are two shares), the
    degree [k * d] as long as it fits a machine integer, and the product of
    the factors when the first share has one. *)
Theorem ShareMul_value (s0 : Share) (rest : list Share) (y0 : Z) (ys fs : list Z) :
  Y s0 = Some y0 -> map Y rest = map Some ys ->
  (Factor s0 = None \/ map Factor rest = map Some fs) ->
  (forall s, In s rest -> ~ differs s0 s) ->
  (forall p, FieldSize s0 = Some p -> 0 < p) ->
  0 <= Degree s0 -> Degree s0 * Z.of_nat (length (s0 :: rest)) <= max_int ->
  ShareMul (s0 :: rest)
  = Ok {| FieldSize := FieldSize s0;
          Factor := match Factor s0 with
                    | Some f => Some (f * Zprod fs)
                    | None => None
                    end;
          Degree := Degree s0 * Z.of_nat (length (s0 :: rest));
          X := X s0;
          Y := Some (match FieldSize s0, rest with
                     | Some p, _ :: _ => (y0 * Zprod ys) mod p
                     | _, _ => y0 * Zprod ys
                     end) |}.
Proof.
  intros Hy0 Hys Hfac Hcompat Hpos Hd Hmax. unfold ShareMul. rewrite Hy0.
  cbn [deref bind].
  match goal with |- fold_left _ _ (Ok ?S0) = _ =>
    rewrite (mulStep_fold_value s0 rest ys fs S0 y0 Hpos eq_refl Hys Hfac Hcompat) end.
  cbn [FieldSize Factor Degree X Y].
  rewrite degreeAfter_exact; cbn [length] in *; try lia.
  replace (Degree s0 + Degree s0 * Z.of_nat (length rest))
    with (Degree s0 * Z.of_nat (S (length rest))) by lia.
  reflexivity.
Qed.

Lemma ShareMul_value_witness :
  ShareMul [mkShare None (Some 2) 1 3 (Some 5); mkShare None (Some 6) 1 3 (Some 4);
            mkShare None (Some 24) 1 3 (Some (-2))]
  = Ok {| FieldSize := None; Factor := Some (2 * Zprod [6; 24]);
          Degree := 1 * Z.of_nat 3; X := 3;
          Y := Some (5 * Zprod [4; -2]) |}.
Proof.
  apply (ShareMul_value (mkShare None (Some 2) 1 3 (Some 5))
           [mkShare None (Some 6) 1 3 (Some 4); mkShare None (Some 24) 1 3 (Some (-2))]
           5 [4; -2] [6; 24]).
  - reflexivity.
  - reflexivity.
  - right. reflexivity.
  - intros s [<-|[<-|[]]] [H|[H|H]]; apply H; reflexivity.
  - intros p H. discriminate H.
  - cbn [Degree]. lia.
  - cbn [Degree length]. unfold max_int. lia.
Defined.

(** ** Feeding a result back into [ShareAdd] and [ShareMul] *)

Lemma addStep_fold_inv s0 : forall rest sum r,
  fold_left (addStep s0) rest (Ok sum) = Ok r ->
  Y sum <> None ->
  FieldSize r = FieldSize sum /\ Factor r = Factor sum /\ Degree r = Degree sum
  /\ X r = X sum /\ Y r <> None.
Proof.
  induction rest as [|s rest IH]; intros sum r Hr Hy; cbn [fold_left] in Hr.
  - injection Hr as <-. repeat split; try reflexivity. assumption.
  - remember (addStep s0 (Ok sum) s) as st eqn:Est.
    unfold addStep in Est. cbn [bind] in Est.
    destruct (opMismatch s0 s).
    { subst st. rewrite fold_left_stuck in Hr by reflexivity. discriminate. }
    destruct (Y sum) as [a|]; [|contradiction].
    destruct (Y s) as [b|]; cbn [deref bind] in Est;
      [|subst st; rewrite fold_left_stuck in Hr by reflexivity; discriminate].
    destruct (reduceY (FieldSize sum) (a + b)) as [y|e|]; cbn [bind] in Est;
      subst st; try (rewrite fold_left_stuck in Hr by reflexivity; discriminate).
    apply IH in Hr; cbn [FieldSize Factor Degree X Y] in *; [assumption|discriminate].
Qed.

Lemma opMismatch_ext s0 s0' s :
  FieldSize s0' = FieldSize s0 -> Degree s0' = Degree s0 -> X s0' = X s0 ->
  opMismatch s0' s = opMismatch s0 s.
Proof. intros H1 H2 H3. unfold opMismatch. now rewrite H1, H2, H3. Qed.

Lemma fold_left_ext {A B : Type} (f g : A -> B -> A) (l : list B) :
  (forall a b, f a b = g a b) -> forall a, fold_left f l a = fold_left g l a.
Proof.
  intros H. induction l as [|b l IH]; intros a; cbn [fold_left]; [reflexivity|].
  now rewrite H, IH.
Qed.

(** X12: a result of [ShareAdd] can be fed back: adding further shares to
    the sum of a list gives what one call on the whole list gives, error
    and panic included. *)
Theorem ShareAdd_nested (l1 l2 : list Share) (s : Share) :
  ShareAdd l1 = Ok s -> ShareAdd (s :: l2) = ShareAdd (l1 ++ l2).
Proof.
  intros H. destruct l1 as [|a r1]; [discriminate|].
  cbn [app]. unfold ShareAdd in *.
  destruct (Y a) as [y0|]; [|discriminate]. cbn [deref bind] in *.
  rewrite fold_left_app, H.
  apply addStep_fold_inv in H; [|discriminate].
  cbn [FieldSize Factor Degree X Y] in H.
  destruct H as (Hf & Hfa & Hd & Hx & Hy).
  destruct (Y s) as [y|] eqn:Ey; [|contradiction]. cbn [deref bind].
  replace {| FieldSize := FieldSize s; Factor := Factor s; Degree := Degree s;
             X := X s; Y := Some y |} with s
    by (destruct s as [s1 s2 s3 s4 s5]; cbn [FieldSize Factor Degree X Y] in *; congruence).
  apply fold_left_ext. intros acc c. unfold addStep.
  now rewrite (opMismatch_ext a s c).
Qed.

Lemma ShareAdd_nested_witness :
  ShareAdd (mkShare (Some 7) None 1 2 (Some 4)
            :: [mkShare (Some 7) None 1 2 (Some 3); mkShare (Some 5) None 1 2 (Some 3)])
  = ShareAdd ([mkShare (Some 7) None 1 2 (Some 5); mkShare (Some 7) None 1 2 (Some 6)]
              ++ [mkShare (Some 7) None 1 2 (Some 3); mkShare (Some 5) None 1 2 (Some 3)]).
Proof.
  apply (ShareAdd_nested
           [mkShare (Some 7) None 1 2 (Some 5); mkShare (Some 7) None 1 2 (Some 6)]
           [mkShare (Some 7) None 1 2 (Some 3); mkShare (Some 5) None 1 2 (Some 3)]
           (mkShare (Some 7) None 1 2 (Some 4))).
  reflexivity.
Defined.

Lemma mulStep_fold_inv s0 : forall rest sum r,
  fold_left (mulStep s0) rest (Ok sum) = Ok r ->
  Y sum <> None ->
  FieldSize r = FieldSize sum
  /\ Degree r = degreeAfter (Degree sum) (Degree s0) (length rest)
  /\ X r = X sum /\ Y r <> None.
Proof.
  induction rest as [|s rest IH]; intros sum r Hr Hy; cbn [fold_left] in Hr.
  - injection Hr as <-. repeat split; try reflexivity. assumption.
  - remember (mulStep s0 (Ok sum) s) as st eqn:Est.
    unfold mulStep in Est. cbn [bind] in Est.
    destruct (opMismatch s0 s) eqn:Emis.
    { subst st. rewrite fold_left_stuck in Hr by reflexivity. discriminate. }
    apply opMismatch_false in Emis.
    destruct (Y sum) as [a|]; [|contradiction].
    destruct (Y s) as [b|]; cbn [deref bind] in Est;
      [|subst st; rewrite fold_left_stuck in Hr by reflexivity; discriminate].
    destruct (reduceY (FieldSize sum) (a * b)) as [y|e|]; cbn [bind] in Est;
      try (subst st; rewrite fold_left_stuck in Hr by reflexivity; discriminate).
    destruct (Factor sum) as [f|].
    + destruct (Factor s) as [g|]; cbn [deref bind] in Est; subst st;
        [|rewrite fold_left_stuck in Hr by reflexivity; discriminate].
      apply IH in Hr; cbn [FieldSize Factor Degree X Y length degreeAfter] in *;
        [|discriminate].
      replace (Degree s0) with (Degree s) at 1 by apply Emis. assumption.
    + cbn [bind] in Est. subst st.
      apply IH in Hr; cbn [FieldSize Factor Degree X Y length degreeAfter] in *;
        [|discriminate].
      replace (Degree s0) with (Degree s) at 1 by apply Emis. assumption.
Qed.

(** X13: a product can be multiplied further only through one call: the
    product of two or more shares of degree [d > 0] has degree [k * d], so
    [ShareMul] and [ShareAdd] refuse it next to any share of degree [d]. *)
Theorem ShareMul_nested_refused (a b : Share) (r1 : list Share) (s c : Share)
    (l2 : list Share) :
  ShareMul (a :: b :: r1) = Ok s ->
  0 < Degree a -> Degree a * Z.of_nat (length (a :: b :: r1)) <= max_int ->
  Degree c = Degree a ->
  Degree s = Degree a * Z.of_nat (length (a :: b :: r1))
  /\ ShareMul (s :: c :: l2) = Err ErrorIncompatibleShares
  /\ ShareAdd (s :: c :: l2) = Err ErrorIncompatibleShares.
Proof.
  intros H Hd Hmax Hc. unfold ShareMul in H.
  destruct (Y a) as [y0|]; [|discriminate]. cbn [deref bind] in H.
  apply mulStep_fold_inv in H; [|discriminate].
  cbn [FieldSize Factor Degree X Y] in H.
  destruct H as (Hf & Hdeg & Hx & Hy).
  rewrite degreeAfter_exact in Hdeg by (cbn [length] in *; lia).
  assert (Es : Degree s = Degree a * Z.of_nat (length (a :: b :: r1)))
    by (cbn [length] in *; lia).
  assert (Hmis : opMismatch s c = true).
  { apply opMismatch_differs. right. left. cbn [length] in *. nia. }
  destruct (Y s) as [y|] eqn:Ey; [|contradiction].
  split; [assumption|]. unfold ShareMul, ShareAdd. rewrite Ey.
  cbn [deref bind fold_left]. unfold mulStep at 2, addStep at 2. cbn [bind].
  rewrite Hmis. split; apply fold_left_stuck; reflexivity.
Qed.

Lemma ShareMul_nested_refused_witness :
  Degree (mkShare (Some 7) None 4 2 (Some 2)) = 2 * Z.of_nat 2
  /\ ShareMul [mkShare (Some 7) None 4 2 (Some 2); mkShare (Some 7) None 2 2 (Some 3)]
     = Err ErrorIncompatibleShares
  /\ ShareAdd [mkShare (Some 7) None 4 2 (Some 2); mkShare (Some 7) None 2 2 (Some 3)]
     = Err ErrorIncompatibleShares.
Proof.
  apply (ShareMul_nested_refused
           (mkShare (Some 7) None 2 2 (Some 5)) (mkShare (Some 7) None 2 2 (Some 6)) []
           (mkShare (Some 7) None 4 2 (Some 2)) (mkShare (Some 7) None 2 2 (Some 3)) []).
  - reflexivity.
  - cbn [Degree]. lia.
  - cbn [Degree length]. unfold max_int. lia.
  - reflexivity.
Defined.

(** X14: when the product has the degree of its operands (a single operand,
    or operands of degree 0), it can be fed back: multiplying it with
    further shares gives what one call on the whole list gives. *)
Theorem ShareMul_nested (l1 l2 : list Share) (a s : Share) :
  ShareMul l1 = Ok s -> hd_error l1 = Some a -> Degree s = Degree a ->
  ShareMul (s :: l2) = ShareMul (l1 ++ l2).
Proof.
  intros H Ha Hdeg. destruct l1 as [|a' r1]; [discriminate|].
  cbn [hd_error] in Ha. injection Ha as ->.
  cbn [app]. unfold ShareMul in *.
  destruct (Y a) as [y0|]; [|discriminate]. cbn [deref bind] in *.
  rewrite fold_left_app, H.
  apply mulStep_fold_inv in H; [|discriminate].
  cbn [FieldSize Factor Degree X Y] in H.
  destruct H as (Hf & _ & Hx & Hy).
  destruct (Y s) as [y|] eqn:Ey; [|contradiction]. cbn [deref bind].
  replace {| FieldSize := FieldSize s; Factor := Factor s; Degree := Degree s;
             X := X s; Y := Some y |} with s
    by (destruct s as [s1 s2 s3 s4 s5]; cbn [FieldSize Factor Degree X Y] in *; congruence).
  apply fold_left_ext. intros acc c. unfold mulStep.
  now rewrite (opMismatch_ext a s c).
Qed.

Lemma ShareMul_nested_witness :
  ShareMul (mkShare None (Some 12) 0 1 (Some 30)
            :: [mkShare None (Some 2) 0 1 (Some 7)])
  = ShareMul ([mkShare None (Some 2) 0 1 (Some 5); mkShare None (Some 6) 0 1 (Some 6)]
              ++ [mkShare None (Some 2) 0 1 (Some 7)]).
Proof.
  apply (ShareMul_nested
           [mkShare None (Some 2) 0 1 (Some 5); mkShare None (Some 6) 0 1 (Some 6)]
           [mkShare None (Some 2) 0 1 (Some 7)]
           (mkShare None (Some 2) 0 1 (Some 5))
           (mkShare None (Some 12) 0 1 (Some 30))); reflexivity.
Defined.

(** * Sums and products of several sharings *)

Lemma peval_psum cs x : peval (psum cs) x = Zsum (map (fun c => peval c x) cs).
Proof.
  induction cs as [|c cs IH]; [reflexivity|].
  cbn [psum fold_right map]. rewrite padd_spec, Zsum_cons. f_equal. exact IH.
Qed.

Lemma peval_pprod cs x : peval (pprod cs) x = Zprod (map (fun c => peval c x) cs).
Proof.
  induction cs as [|c cs IH]; [cbn [pprod fold_right peval map]; rewrite Zprod_nil; ring|].
  cbn [pprod fold_right map]. rewrite pmul_spec, Zprod_cons. f_equal. exact IH.
Qed.

Lemma psum_length cs m :
  (forall c, In c cs -> (length c <= m)%nat) -> (length (psum cs) <= m)%nat.
Proof.
  induction cs as [|c cs IH]; intros H; cbn [psum fold_right length]; [lia|].
  rewrite padd_length.
  assert (length c <= m)%nat by (apply H; left; reflexivity).
  assert (length (psum cs) <= m)%nat by (apply IH; intros; apply H; right; assumption).
  unfold psum in *. lia.
Qed.

Lemma pmul_nonempty p q : (1 <= length p)%nat -> (1 <= length (pmul p q))%nat.
Proof.
  destruct p as [|a p]; cbn [length pmul]; [lia|]. intros _.
  rewrite padd_length. cbn [length]. lia.
Qed.

Lemma pprod_length cs d :
  (forall c, In c cs -> (1 <= length c <= d + 1)%nat) ->
  (1 <= length (pprod cs) <= length cs * d + 1)%nat.
Proof.
  induction cs as [|c cs IH]; intros H; [cbn; lia|].
  assert (Hc : (1 <= length c <= d + 1)%nat) by (apply H; left; reflexivity).
  assert (Hr : (1 <= length (pprod cs) <= length cs * d + 1)%nat)
    by (apply IH; intros; apply H; right; assumption).
  cbn [pprod fold_right]. fold (pprod cs). split.
  - apply pmul_nonempty. lia.
  - pose proof (pmul_length c (pprod cs) ltac:(lia)). cbn [length]. lia.
Qed.

Lemma Zsum_mod (f : list Z -> Z) p cs :
  Zsum (map (fun c => f c mod p) cs) mod p = Zsum (map f cs) mod p.
Proof.
  induction cs as [|c cs IH]; [reflexivity|].
  cbn [map]. rewrite !Zsum_cons.
  rewrite Zplus_mod, Zmod_mod, IH, <- Zplus_mod. reflexivity.
Qed.

Lemma Zprod_mod (f : list Z -> Z) p cs :
  Zprod (map (fun c => f c mod p) cs) mod p = Zprod (map f cs) mod p.
Proof.
  induction cs as [|c cs IH]; [reflexivity|].
  cbn [map]. rewrite !Zprod_cons.
  rewrite Zmult_mod, Zmod_mod, IH, <- Zmult_mod. reflexivity.
Qed.

Lemma mapM_Forall2 {A B C : Type} (op : A -> outcome B) (Q : C -> B -> Prop)
    (xs : list C) (rows : list A) :
  Forall2 (fun x row => exists r, op row = Ok r /\ Q x r) xs rows ->
  exists rs, mapM op rows = Ok rs /\ Forall2 Q xs rs.
Proof.
  induction 1 as [|x row xs rows (r & Hr & HQ) _ (rs & Hrs & HQs)]; cbn [mapM].
  - exists []. split; [reflexivity|constructor].
  - rewrite Hr, Hrs. cbn [bind]. exists (r :: rs). split; [reflexivity|].
    constructor; assumption.
Qed.

Lemma Forall2_impl {A B : Type} (P Q : A -> B -> Prop) l1 l2 :
  (forall a b, P a b -> Q a b) -> Forall2 P l1 l2 -> Forall2 Q l1 l2.
Proof. intros H. induction 1; constructor; auto. Qed.

Lemma Forall2_X (Q : Share -> Prop) (xs : list Z) (rs : list Share) :
  Forall2 (fun x r => Q r /\ X r = x) xs rs ->
  map X rs = xs /\ length rs = length xs /\ forall r, In r rs -> Q r.
Proof.
  induction 1 as [|x r xs rs [HQ Hx] _ (IH1 & IH2 & IH3)].
  - repeat split. intros r [].
  - cbn [map length]. repeat split; [congruence|congruence|].
    intros r' [<-|Hr]; auto.
Qed.

Lemma operands_values (P : list Z -> Share -> Prop) (g : list Z -> Z) x cs row :
  (forall c s, P c s -> X s = x -> Y s = Some (g c)) ->
  Forall2 (fun c s => P c s /\ X s = x) cs row ->
  map Y row = map Some (map g cs).
Proof.
  intros HP. induction 1 as [|c s cs row [H1 H2] _ IH]; [reflexivity|].
  cbn [map]. rewrite IH. f_equal. now apply HP.
Qed.


Lemma Forall2_In_r {A B : Type} (P : A -> B -> Prop) l1 l2 b :
  Forall2 P l1 l2 -> In b l2 -> exists a, In a l1 /\ P a b.
Proof.
  induction 1 as [|a b' l1 l2 HP _ IH]; intros Hin; [destruct Hin|].
  destruct Hin as [<-|Hin].
  - exists a. split; [left; reflexivity|assumption].
  - destruct (IH Hin) as (a' & Ha' & HP'). exists a'. split; [right|]; assumption.
Qed.

Lemma Forall2_length_eq {A B : Type} (P : A -> B -> Prop) l1 l2 :
  Forall2 P l1 l2 -> length l1 = length l2.
Proof. induction 1; cbn [length]; congruence. Qed.

(** One participant adds its operands: the sum lies on the sum of the
    polynomials. *)
(** Field operands at an [x] in [[1, p]] lie on their polynomials. *)
Lemma fieldOperands_on p d cs x row :
  1 <= x <= p -> x <= max_int -> fieldOperands p d cs x row ->
  Forall2 (fun c s => (onFieldPoly p d c s /\ Factor s = None) /\ X s = x) cs row.
Proof.
  intros Hx1 Hx2 Hrow. unfold fieldOperands in Hrow.
  eapply Forall2_impl; [|exact Hrow].
  intros c s (Hfs & Hfac & Hdeg & Hx & Hy). unfold onFieldPoly.
  rewrite Hx. repeat split; try assumption; lia.
Qed.

Lemma ShareAdd_fieldOperands p d cs x row :
  0 < p -> 1 <= x <= p -> x <= max_int ->
  cs <> [] -> fieldOperands p d cs x row ->
  exists r, ShareAdd row = Ok r
    /\ onFieldPoly p d (psum cs) r /\ X r = x.
Proof.
  intros Hp Hxr1 Hxr2 Hcs Hrow. apply fieldOperands_on in Hrow; try assumption.
  destruct Hrow as [|c0 s0 crest rest [[H0 _] Hx0] Hrest]; [contradiction|].
  destruct H0 as (Hfs & Hdeg & Hx1 & Hx2 & Hy).
  unfold ShareAdd. rewrite Hy. cbn [deref bind].
  match goal with |- context [fold_left _ _ (Ok ?S0)] =>
    rewrite (addStep_fold_value s0 p rest (map (fun c => peval c x mod p) crest)
               S0 (peval c0 (X s0) mod p) Hp Hfs eq_refl) end.
  - eexists. split; [reflexivity|]. cbn [FieldSize Factor Degree X Y].
    split; [|assumption]. unfold onFieldPoly. cbn [FieldSize Factor Degree X Y].
    repeat split; try assumption; try lia.
    f_equal. rewrite peval_psum. cbn [map]. rewrite Zsum_cons, Hx0.
    assert (E : (peval c0 x mod p + Zsum (map (fun c => peval c x mod p) crest)) mod p
                = (peval c0 x + Zsum (map (fun c => peval c x) crest)) mod p).
    { rewrite Zplus_mod, Zmod_mod, (Zsum_mod (fun c => peval c x)), <- Zplus_mod.
      reflexivity. }
    destruct rest as [|s' rest']; [|exact E].
    inversion Hrest; subst. cbn [map]. rewrite Zsum_nil, !Z.add_0_r.
    reflexivity.
  - apply (operands_values (fun c s => onFieldPoly p d c s /\ Factor s = None)
             (fun c => peval c x mod p) x crest rest); [|assumption].
    intros c s [(_ & _ & _ & _ & Hys) _] Hxs. now rewrite Hys, Hxs.
  - intros s Hs [Hd|[Hd|Hd]]; apply Hd;
      destruct (Forall2_In_r _ _ _ _ Hrest Hs) as (c & _ & [[(F1 & F2 & _) _] F3]);
      congruence.
Qed.

Lemma ShareAdd_integerOperands d f cs x row :
  cs <> [] -> integerOperands d f cs x row ->
  exists r, ShareAdd row = Ok r
    /\ onIntegerPoly d f (psum cs) r /\ X r = x.
Proof.
  intros Hcs Hrow. unfold integerOperands in Hrow.
  destruct Hrow as [|c0 s0 crest rest [H0 Hx0] Hrest]; [contradiction|].
  destruct H0 as (Hfs & Hfac & Hdeg & Hx1 & Hy).
  unfold ShareAdd. rewrite Hy. cbn [deref bind].
  match goal with |- context [fold_left _ _ (Ok ?S0)] =>
    rewrite (addStep_fold_value_int s0 rest (map (fun c => peval c x) crest)
               S0 (peval c0 (X s0)) Hfs eq_refl) end.
  - eexists. split; [reflexivity|]. cbn [FieldSize Factor Degree X Y].
    split; [|assumption]. unfold onIntegerPoly. cbn [FieldSize Factor Degree X Y].
    repeat split; try assumption; try lia.
    f_equal. rewrite peval_psum. cbn [map]. now rewrite Zsum_cons, Hx0.
  - apply (operands_values (onIntegerPoly d f) (fun c => peval c x) x crest rest);
      [|assumption].
    intros c s (_ & _ & _ & _ & Hys) Hxs. now rewrite Hys, Hxs.
  - intros s Hs [Hd|[Hd|Hd]]; apply Hd;
      destruct (Forall2_In_r _ _ _ _ Hrest Hs) as (c & _ & [(F1 & _ & F2 & _) F3]);
      congruence.
Qed.

Lemma Zprod_const f (l : list (list Z)) :
  Zprod (map (fun _ => f) l) = f ^ Z.of_nat (length l).
Proof.
  induction l as [|c l IH]; [reflexivity|].
  cbn [map length]. rewrite Zprod_cons, IH, Nat2Z.inj_succ, Z.pow_succ_r by lia.
  reflexivity.
Qed.

(** One participant multiplies its operands: the product lies on the
    product of the polynomials, with the sum of the degrees. *)
Lemma ShareMul_fieldOperands p d cs x row :
  0 < p -> 1 <= x <= p -> x <= max_int ->
  0 <= d -> d * Z.of_nat (length cs) <= max_int ->
  cs <> [] -> fieldOperands p d cs x row ->
  exists r, ShareMul row = Ok r
    /\ onFieldPoly p (d * Z.of_nat (length cs)) (pprod cs) r /\ X r = x.
Proof.
  intros Hp Hxr1 Hxr2 Hd Hmax Hcs Hrow.
  apply fieldOperands_on in Hrow; try assumption.
  destruct Hrow as [|c0 s0 crest rest [[H0 Hfac0] Hx0] Hrest]; [contradiction|].
  destruct H0 as (Hfs & Hdeg & Hx1 & Hx2 & Hy).
  pose proof (Forall2_length_eq _ _ _ Hrest) as Hlen.
  assert (Hpos : forall q, FieldSize s0 = Some q -> 0 < q) by (intros q Hq; congruence).
  unfold ShareMul. rewrite Hy. cbn [deref bind].
  match goal with |- context [fold_left _ _ (Ok ?S0)] =>
    rewrite (mulStep_fold_value s0 rest (map (fun c => peval c x mod p) crest) []
               S0 (peval c0 (X s0) mod p) Hpos eq_refl) end.
  - eexists. split; [reflexivity|]. cbn [FieldSize Factor Degree X Y].
    split; [|assumption]. unfold onFieldPoly. cbn [FieldSize Factor Degree X Y].
    rewrite Hfs.
    rewrite degreeAfter_exact by (cbn [length] in *; lia).
    repeat split; try assumption; try lia.
    + cbn [length]. lia.
    + f_equal. rewrite peval_pprod. cbn [map]. rewrite Zprod_cons, Hx0.
      assert (E : (peval c0 x mod p * Zprod (map (fun c => peval c x mod p) crest)) mod p
                  = (peval c0 x * Zprod (map (fun c => peval c x) crest)) mod p).
      { rewrite Zmult_mod, Zmod_mod, (Zprod_mod (fun c => peval c x)), <- Zmult_mod.
        reflexivity. }
      destruct rest as [|s' rest']; [|exact E].
      inversion Hrest; subst. cbn [map]. rewrite Zprod_nil, !Z.mul_1_r.
      reflexivity.
  - apply (operands_values (fun c s => onFieldPoly p d c s /\ Factor s = None)
             (fun c => peval c x mod p) x crest rest); [|assumption].
    intros c s [(_ & _ & _ & _ & Hys) _] Hxs. now rewrite Hys, Hxs.
  - left. assumption.
  - intros s Hs [Hd'|[Hd'|Hd']]; apply Hd';
      destruct (Forall2_In_r _ _ _ _ Hrest Hs) as (c & _ & [[(F1 & F2 & _) _] F3]);
      congruence.
Qed.

Lemma ShareMul_integerOperands d f cs x row :
  0 <= d -> d * Z.of_nat (length cs) <= max_int ->
  cs <> [] -> integerOperands d f cs x row ->
  exists r, ShareMul row = Ok r
    /\ onIntegerPoly (d * Z.of_nat (length cs)) (f ^ Z.of_nat (length cs)) (pprod cs) r
    /\ X r = x.
Proof.
  intros Hd Hmax Hcs Hrow. unfold integerOperands in Hrow.
  destruct Hrow as [|c0 s0 crest rest [H0 Hx0] Hrest]; [contradiction|].
  destruct H0 as (Hfs & Hfac & Hdeg & Hx1 & Hy).
  pose proof (Forall2_length_eq _ _ _ Hrest) as Hlen.
  assert (Hpos : forall q, FieldSize s0 = Some q -> 0 < q) by (intros q Hq; congruence).
  unfold ShareMul. rewrite Hy. cbn [deref bind].
  match goal with |- context [fold_left _ _ (Ok ?S0)] =>
    rewrite (mulStep_fold_value s0 rest (map (fun c => peval c x) crest)
               (map (fun _ => f) crest)
               S0 (peval c0 (X s0)) Hpos eq_refl) end.
  - eexists. split; [reflexivity|]. cbn [FieldSize Factor Degree X Y].
    split; [|assumption]. unfold onIntegerPoly. cbn [FieldSize Factor Degree X Y].
    rewrite Hfs, Hfac.
    rewrite degreeAfter_exact by (cbn [length] in *; lia).
    repeat split; try assumption; try lia.
    + f_equal. rewrite Zprod_const. cbn [length].
      rewrite Nat2Z.inj_succ, Z.pow_succ_r by lia. reflexivity.
    + cbn [length]. lia.
    + f_equal. rewrite peval_pprod. cbn [map]. rewrite Zprod_cons, Hx0.
      reflexivity.
  - apply (operands_values (onIntegerPoly d f) (fun c => peval c x) x crest rest);
      [|assumption].
    intros c s (_ & _ & _ & _ & Hys) Hxs. now rewrite Hys, Hxs.
  - right. clear - Hrest. induction Hrest as [|c s crest rest [(_ & F & _) _] _ IH];
      [reflexivity|]. cbn [map]. now rewrite F, IH.
  - intros s Hs [Hd'|[Hd'|Hd']]; apply Hd';
      destruct (Forall2_In_r _ _ _ _ Hrest Hs) as (c & _ & [(F1 & _ & F2 & _) F3]);
      congruence.
Qed.

Lemma Forall2_impl_in {A B : Type} (P Q : A -> B -> Prop) l1 l2 :
  (forall a b, In a l1 -> P a b -> Q a b) -> Forall2 P l1 l2 -> Forall2 Q l1 l2.
Proof.
  intros H F. induction F as [|a b l1 l2 HP _ IH]; constructor.
  - apply H; [left; reflexivity|assumption].
  - apply IH. intros a' b' Ha'. apply H. right. assumption.
Qed.

Lemma operands_results (Q : Share -> Prop) (op : list Share -> outcome Share)
    (P : Z -> list Share -> Prop) (xs : list Z) (rows : list (list Share)) :
  (forall x row, In x xs -> P x row -> exists r, op row = Ok r /\ Q r /\ X r = x) ->
  Forall2 P xs rows ->
  exists rs, mapM op rows = Ok rs
    /\ map X rs = xs /\ length rs = length xs /\ forall r, In r rs -> Q r.
Proof.
  intros Hop Hrows.
  destruct (mapM_Forall2 op (fun x r => Q r /\ X r = x) xs rows) as (rs & Hrs & HQ).
  { eapply Forall2_impl_in; [|exact Hrows]. exact Hop. }
  exists rs. split; [assumption|]. now apply Forall2_X.
Qed.

(** X15: the sum of any number of secrets shared over a prime field. When
    each of [d+1] participants with distinct [x] in [[1, p]] (and in the
    range of an [int]) adds, with one call of [ShareAdd], its shares of the
    polynomials [cs] (of degree at most [d]), [ShareCombine] on the sums
    returns the sum of the constant terms modulo [p]. *)
Theorem ShareAdd_several_field (p d : Z) (cs : list (list Z)) (xs : list Z)
    (rows : list (list Share)) :
  Z.prime p -> 0 <= d -> cs <> [] ->
  (forall c, In c cs -> Z.of_nat (length c) <= d + 1) ->
  Z.of_nat (length xs) = d + 1 -> NoDup xs ->
  (forall x, In x xs -> 1 <= x <= p /\ x <= max_int) ->
  Forall2 (fieldOperands p d cs) xs rows ->
  exists sums, mapM ShareAdd rows = Ok sums
    /\ ShareCombine sums = Ok (Zsum (map (fun c => peval c 0) cs) mod p).
Proof.
  intros Hp Hd Hcs Hlen Hxs Hnd Hrange Hrows.
  pose proof (Z.prime_ge_2 p Hp) as Hp2.
  destruct (operands_results (onFieldPoly p d (psum cs)) ShareAdd
              (fieldOperands p d cs) xs rows) as (sums & Hsums & HX & HL & HQ);
    [|assumption|].
  { intros x row Hx. destruct (Hrange x Hx).
    apply ShareAdd_fieldOperands; try assumption. lia. }
  exists sums. split; [assumption|].
  rewrite <- peval_psum.
  apply (ShareCombine_field sums p d (psum cs)); try assumption.
  - lia.
  - apply psum_length. intros c Hc. specialize (Hlen c Hc). lia.
  - now rewrite HX.
Qed.

(** X16: the same over the integers: the sums reconstruct the sum of the
    constant terms divided by the common factor. *)
Theorem ShareAdd_several_integers (d f : Z) (cs : list (list Z)) (xs : list Z)
    (rows : list (list Share)) :
  0 < f -> 0 <= d -> cs <> [] ->
  (forall c, In c cs -> Z.of_nat (length c) <= d + 1) ->
  Z.of_nat (length xs) = d + 1 -> NoDup xs ->
  Forall2 (integerOperands d f cs) xs rows ->
  exists sums, mapM ShareAdd rows = Ok sums
    /\ ShareCombine sums = Ok (Zsum (map (fun c => peval c 0) cs) / f).
Proof.
  intros Hf Hd Hcs Hlen Hxs Hnd Hrows.
  destruct (operands_results (onIntegerPoly d f (psum cs)) ShareAdd
              (integerOperands d f cs) xs rows) as (sums & Hsums & HX & HL & HQ);
    [|assumption|].
  { intros x row _. now apply ShareAdd_integerOperands. }
  exists sums. split; [assumption|].
  rewrite <- peval_psum.
  apply (ShareCombine_integers sums d f (psum cs)); try assumption.
  - lia.
  - apply psum_length. intros c Hc. specialize (Hlen c Hc). lia.
  - now rewrite HX.
Qed.

(** X17: the product of [k] secrets shared over a prime field with degree
    [d]. When each of [k*d+1] participants with distinct [x] in [[1, p]]
    (and in the range of an [int]) multiplies, with one call of [ShareMul],
    its shares of the [k] polynomials [cs], [ShareCombine] on the products
    returns the product of the constant terms modulo [p]. *)
Theorem ShareMul_several_field (p d : Z) (cs : list (list Z)) (xs : list Z)
    (rows : list (list Share)) :
  Z.prime p -> 0 <= d -> cs <> [] ->
  d * Z.of_nat (length cs) <= max_int ->
  (forall c, In c cs -> 1 <= Z.of_nat (length c) <= d + 1) ->
  Z.of_nat (length xs) = d * Z.of_nat (length cs) + 1 -> NoDup xs ->
  (forall x, In x xs -> 1 <= x <= p /\ x <= max_int) ->
  Forall2 (fieldOperands p d cs) xs rows ->
  exists products, mapM ShareMul rows = Ok products
    /\ ShareCombine products = Ok (Zprod (map (fun c => peval c 0) cs) mod p).
Proof.
  intros Hp Hd Hcs Hmax Hlen Hxs Hnd Hrange Hrows.
  pose proof (Z.prime_ge_2 p Hp) as Hp2.
  destruct (operands_results (onFieldPoly p (d * Z.of_nat (length cs)) (pprod cs))
              ShareMul (fieldOperands p d cs) xs rows)
    as (prods & Hprods & HX & HL & HQ); [|assumption|].
  { intros x row Hx. destruct (Hrange x Hx).
    apply ShareMul_fieldOperands; try assumption. lia. }
  exists prods. split; [assumption|].
  rewrite <- peval_pprod.
  apply (ShareCombine_field prods p (d * Z.of_nat (length cs)) (pprod cs));
    try assumption.
  - nia.
  - lia.
  - pose proof (pprod_length cs (Z.to_nat d)) as Hpl.
    assert (Hin : forall c, In c cs -> (1 <= length c <= Z.to_nat d + 1)%nat)
      by (intros c Hc; specialize (Hlen c Hc); lia).
    specialize (Hpl Hin). nia.
  - now rewrite HX.
Qed.

(** X18: the same over the integers: the products carry the factor [f^k]
    and reconstruct the product of the constant terms divided by it. *)
Theorem ShareMul_several_integers (d f : Z) (cs : list (list Z)) (xs : list Z)
    (rows : list (list Share)) :
  0 < f -> 0 <= d -> cs <> [] ->
  d * Z.of_nat (length cs) <= max_int ->
  (forall c, In c cs -> 1 <= Z.of_nat (length c) <= d + 1) ->
  Z.of_nat (length xs) = d * Z.of_nat (length cs) + 1 -> NoDup xs ->
  Forall2 (integerOperands d f cs) xs rows ->
  exists products, mapM ShareMul rows = Ok products
    /\ ShareCombine products
       = Ok (Zprod (map (fun c => peval c 0) cs) / f ^ Z.of_nat (length cs)).
Proof.
  intros Hf Hd Hcs Hmax Hlen Hxs Hnd Hrows.
  destruct (operands_results
              (onIntegerPoly (d * Z.of_nat (length cs)) (f ^ Z.of_nat (length cs))
                 (pprod cs))
              ShareMul (integerOperands d f cs) xs rows)
    as (prods & Hprods & HX & HL & HQ); [|assumption|].
  { intros x row _. now apply ShareMul_integerOperands. }
  exists prods. split; [assumption|].
  rewrite <- peval_pprod.
  apply (ShareCombine_integers prods (d * Z.of_nat (length cs))
           (f ^ Z.of_nat (length cs)) (pprod cs)); try assumption.
  - nia.
  - lia.
  - apply Z.pow_pos_nonneg; lia.
  - pose proof (pprod_length cs (Z.to_nat d)) as Hpl.
    assert (Hin : forall c, In c cs -> (1 <= length c <= Z.to_nat d + 1)%nat)
      by (intros c Hc; specialize (Hlen c Hc); lia).
    specialize (Hpl Hin). nia.
  - now rewrite HX.
Qed.

Ltac operands_instance :=
  repeat lazymatch goal with
         | |- Forall2 _ _ _ => constructor
         | |- fieldOperands _ _ _ _ _ => unfold fieldOperands
         | |- integerOperands _ _ _ _ _ => unfold integerOperands
         | |- onFieldPoly _ _ _ _ => unfold onFieldPoly
         | |- onIntegerPoly _ _ _ _ => unfold onIntegerPoly
         | |- _ /\ _ => split
         | |- NoDup _ => constructor
         | |- ~ In _ _ => cbn [In]; lia
         | |- _ = _ => reflexivity
         | |- _ <= _ => cbn [X length]; unfold max_int; lia
         end.

Lemma ShareAdd_several_field_witness :
  exists sums,
    mapM ShareAdd
      (map (fun x => map (fun c => mkShare (Some 7) None 1 x (Some (peval c x mod 7)))
                         [[3; 1]; [4; 2]; [5]])
           [1; 2])
    = Ok sums
    /\ ShareCombine sums = Ok (Zsum (map (fun c => peval c 0) [[3; 1]; [4; 2]; [5]]) mod 7).
Proof.
  apply (ShareAdd_several_field 7 1 [[3; 1]; [4; 2]; [5]] [1; 2]).
  - apply prime_check_correct. reflexivity.
  - lia.
  - discriminate.
  - intros c [<-|[<-|[<-|[]]]]; cbn [length]; lia.
  - reflexivity.
  - operands_instance.
  - intros x [<-|[<-|[]]]; unfold max_int; lia.
  - cbn [map]. operands_instance.
Defined.

Lemma ShareAdd_several_integers_witness :
  exists sums,
    mapM ShareAdd
      (map (fun x => map (fun c => mkShare None (Some 2) 1 x (Some (peval c x)))
                         [[6; 1]; [8; 2]; [10]])
           [1; 2])
    = Ok sums
    /\ ShareCombine sums = Ok (Zsum (map (fun c => peval c 0) [[6; 1]; [8; 2]; [10]]) / 2).
Proof.
  apply (ShareAdd_several_integers 1 2 [[6; 1]; [8; 2]; [10]] [1; 2]).
  - lia.
  - lia.
  - discriminate.
  - intros c [<-|[<-|[<-|[]]]]; cbn [length]; lia.
  - reflexivity.
  - operands_instance.
  - cbn [map]. operands_instance.
Defined.

Lemma ShareMul_several_field_witness :
  exists products,
    mapM ShareMul
      (map (fun x => map (fun c => mkShare (Some 7) None 1 x (Some (peval c x mod 7)))
                         [[3; 1]; [4; 2]; [5; 6]])
           [1; 2; 3; 4])
    = Ok products
    /\ ShareCombine products
       = Ok (Zprod (map (fun c => peval c 0) [[3; 1]; [4; 2]; [5; 6]]) mod 7).
Proof.
  apply (ShareMul_several_field 7 1 [[3; 1]; [4; 2]; [5; 6]] [1; 2; 3; 4]).
  - apply prime_check_correct. reflexivity.
  - lia.
  - discriminate.
  - cbn [length]. unfold max_int. lia.
  - intros c [<-|[<-|[<-|[]]]]; cbn [length]; lia.
  - reflexivity.
  - operands_instance.
  - intros x [<-|[<-|[<-|[<-|[]]]]]; unfold max_int; lia.
  - cbn [map]. operands_instance.
Defined.

Lemma ShareMul_several_integers_witness :
  exists products,
    mapM ShareMul
      (map (fun x => map (fun c => mkShare None (Some 2) 1 x (Some (peval c x)))
                         [[6; 1]; [8; 2]; [10; -3]])
           [1; 2; 3; 4])
    = Ok products
    /\ ShareCombine products
       = Ok (Zprod (map (fun c => peval c 0) [[6; 1]; [8; 2]; [10; -3]])
             / 2 ^ Z.of_nat (length [[6; 1]; [8; 2]; [10; -3]])).
Proof.
  apply (ShareMul_several_integers 1 2 [[6; 1]; [8; 2]; [10; -3]] [1; 2; 3; 4]).
  - lia.
  - lia.
  - discriminate.
  - cbn [length]. unfold max_int. lia.
  - intros c [<-|[<-|[<-|[]]]]; cbn [length]; lia.
  - reflexivity.
  - operands_instance.
  - cbn [map]. operands_instance.
Defined.

(** * The polynomial behind the shares *)

Lemma ShareFiniteField_drawn secret p d n rnd :
  0 < p -> 0 <= d -> ptrSize * d <= maxAlloc -> 0 <= n -> shareSize * n <= maxAlloc ->
  ShareFiniteField secret p d n rnd
  = Ok (map (fieldShareAt p d
               (secret :: map (fun j => rnd j mod p) (seq 0 (Z.to_nat d))))
            (seq 0 (Z.to_nat n))).
Proof.
  intros Hp Hd Hda Hn Hna. unfold ShareFiniteField.
  pose proof (alloc_int d (or_introl Hda)) as Hdi.
  pose proof (alloc_int n (or_intror Hna)) as Hni.
  rewrite make_len_ok by assumption. cbn [bind].
  rewrite drawCoefficients_value by assumption. cbn [bind].
  rewrite make_len_ok by assumption. cbn [bind].
  apply mapM_ok. intros i Hi. apply in_seq in Hi.
  rewrite wrap_small by (unfold min_int, max_int in *; lia).
  rewrite addTerms_poly by (rewrite length_map, length_seq; lia).
  rewrite Mod_pos by assumption. reflexivity.
Qed.

(** X19: for lengths [make] accepts and a positive bound handed to
    [rand.Int], the shares both generators return are the points
    [x = 1, ..., n] of one polynomial: its constant term is the secret
    (times [n!] over the integers) and its coefficient of [x^(j+1)] is the
    [j]-th number drawn, reduced modulo that bound. *)
Theorem generators_polynomial (secret p B sigma d n : Z) (rnd : nat -> Z) :
  0 <= d -> ptrSize * d <= maxAlloc -> 0 <= n -> shareSize * n <= maxAlloc ->
  (0 < p ->
   ShareFiniteField secret p d n rnd
   = Ok (map (fieldShareAt p d
                (secret :: map (fun j => rnd j mod p) (seq 0 (Z.to_nat d))))
             (seq 0 (Z.to_nat n))))
  /\ (0 < wrap (n * n) * B ->
      ShareIntegers secret B sigma d n rnd
      = Ok (map (intShareAt (factorial n) d
                   (secret * factorial n
                    :: map (fun j => rnd j mod coefficientUpperBound sigma n B)
                           (seq 0 (Z.to_nat d))))
                (seq 0 (Z.to_nat n)))).
Proof.
  intros Hd Hda Hn Hna. split; intros Hb.
  - now apply ShareFiniteField_drawn.
  - apply ShareIntegers_drawn; try assumption.
    now apply coefficientUpperBound_pos.
Qed.

Lemma generators_polynomial_witness :
  (0 < 7919 ->
   ShareFiniteField 123 7919 3 5 rnd_test
   = Ok (map (fieldShareAt 7919 3
                (123 :: map (fun j => rnd_test j mod 7919) (seq 0 (Z.to_nat 3))))
             (seq 0 (Z.to_nat 5))))
  /\ (0 < wrap (5 * 5) * 10000 ->
      ShareIntegers 123 10000 100 3 5 rnd_test
      = Ok (map (intShareAt (factorial 5) 3
                   (123 * factorial 5
                    :: map (fun j => rnd_test j mod coefficientUpperBound 100 5 10000)
                           (seq 0 (Z.to_nat 3))))
                (seq 0 (Z.to_nat 5)))).
Proof.
  apply (generators_polynomial 123 7919 10000 100 3 5 rnd_test);
    unfold shareSize, ptrSize, maxAlloc; lia.
Defined.

Lemma peval_multiple p c x : (p | x) -> peval c x mod p = peval c 0 mod p.
Proof.
  intros [k ->]. destruct c as [|c0 c]; [reflexivity|]. cbn [peval].
  rewrite Z.mul_0_l, Z.add_0_r.
  replace (c0 + k * p * peval c (k * p)) with (c0 + (k * peval c (k * p)) * p) by ring.
  apply Z_mod_plus_full.
Qed.

(** X20: a share whose [x] is a multiple of the field size carries the
    secret itself, reduced modulo the field size, whatever was drawn: with
    [nShares >= fieldSize] (and lengths [make] accepts) the share number
    [fieldSize] of the [nShares] returned discloses the secret. *)
Theorem ShareFiniteField_discloses (secret p d n : Z) (rnd : nat -> Z) :
  0 < p <= n -> 0 <= d ->
  ptrSize * d <= maxAlloc -> shareSize * n <= maxAlloc ->
  exists shares,
    ShareFiniteField secret p d n rnd = Ok shares
    /\ Z.of_nat (length shares) = n
    /\ (forall s, In s shares -> (p | X s) -> Y s = Some (secret mod p))
    /\ exists s, nth_error shares (Z.to_nat (p - 1)) = Some s
         /\ X s = p /\ Y s = Some (secret mod p).
Proof.
  intros Hp Hd Hda Hna.
  pose proof (alloc_int n (or_intror Hna)) as Hni.
  eexists. split; [apply ShareFiniteField_drawn; try assumption; lia|].
  split; [rewrite length_map, length_seq; lia|].
  assert (Hall : forall s,
             In s (map (fieldShareAt p d
                          (secret :: map (fun j => rnd j mod p) (seq 0 (Z.to_nat d))))
                       (seq 0 (Z.to_nat n))) ->
             (p | X s) -> Y s = Some (secret mod p)).
  { intros s Hs Hdiv. apply in_map_iff in Hs. destruct Hs as (i & <- & _).
    unfold fieldShareAt in *. cbn [X Y] in *. f_equal.
    rewrite peval_multiple by assumption. cbn [peval].
    now rewrite Z.mul_0_l, Z.add_0_r. }
  split; [exact Hall|].
  assert (Hnth : nth_error (map (fieldShareAt p d
                          (secret :: map (fun j => rnd j mod p) (seq 0 (Z.to_nat d))))
                       (seq 0 (Z.to_nat n))) (Z.to_nat (p - 1))
                 = Some (fieldShareAt p d
                          (secret :: map (fun j => rnd j mod p) (seq 0 (Z.to_nat d)))
                          (Z.to_nat (p - 1)))).
  { rewrite nth_error_map.
    rewrite (nth_error_nth' _ 0%nat) by (rewrite length_seq; lia).
    rewrite seq_nth by lia. reflexivity. }
  eexists. split; [exact Hnth|].
  assert (HX : X (fieldShareAt p d
                    (secret :: map (fun j => rnd j mod p) (seq 0 (Z.to_nat d)))
                    (Z.to_nat (p - 1))) = p)
    by (unfold fieldShareAt; cbn [X]; lia).
  split; [exact HX|].
  apply Hall; [eapply nth_error_In; exact Hnth|].
  rewrite HX. apply Z.divide_refl.
Qed.

Lemma ShareFiniteField_discloses_witness :
  exists shares,
    ShareFiniteField 3 5 2 6 rnd_test = Ok shares
    /\ Z.of_nat (length shares) = 6
    /\ (forall s, In s shares -> (5 | X s) -> Y s = Some (3 mod 5))
    /\ exists s, nth_error shares (Z.to_nat (5 - 1)) = Some s
         /\ X s = 5 /\ Y s = Some (3 mod 5).
Proof.
  apply (ShareFiniteField_discloses 3 5 2 6 rnd_test);
    unfold shareSize, ptrSize, maxAlloc; lia.
Defined.

(** * What [degree] shares say about the secret *)

Lemma peval_map_mod p l x : peval (map (fun c => c mod p) l) x mod p = peval l x mod p.
Proof.
  induction l as [|c l IH]; [reflexivity|]. cbn [map peval].
  rewrite Zplus_mod, Zmod_mod, Zmult_mod, IH, <- Zmult_mod, <- Zplus_mod.
  reflexivity.
Qed.

Lemma map_nth_seq (g : Z -> Z) (l : list Z) : forall k,
  map (fun j => g (nth (j - k) l 0)) (seq k (length l)) = map g l.
Proof.
  induction l as [|a l IH]; intros k; [reflexivity|].
  cbn [length seq map]. rewrite Nat.sub_diag. cbn [nth]. f_equal.
  rewrite <- (IH (S k)). apply map_ext_in. intros j Hj. apply in_seq in Hj.
  replace (j - k)%nat with (S (j - S k)) by lia. reflexivity.
Qed.

Lemma Zprod_zero l : In 0 l -> Zprod l = 0.
Proof.
  induction l as [|a l IH]; intros H; [destruct H|].
  rewrite Zprod_cons. destruct H as [->|H]; [reflexivity|].
  rewrite IH by assumption. ring.
Qed.

Lemma Zprod_coprime p l :
  (forall x, In x l -> Z.coprime x p) -> Z.coprime (Zprod l) p.
Proof.
  induction l as [|a l IH]; intros H.
  - rewrite Zprod_nil. apply Z.gcd_1_l.
  - rewrite Zprod_cons. apply Z.coprime_mul_l.
    + apply H. left. reflexivity.
    + apply IH. intros x Hx. apply H. right. assumption.
Qed.

(** The polynomial that vanishes at the points [xs]. *)
Lemma vanishing_eval xs t :
  peval (pprod (map (fun x => [x; -1]) xs)) t = Zprod (map (fun x => x - t) xs).
Proof.
  rewrite peval_pprod, map_map. f_equal. apply map_ext. intros x.
  cbn [peval]. ring.
Qed.

Lemma vanishing_length xs :
  (1 <= length (pprod (map (fun x => [x; -1]%Z) xs)) <= length xs + 1)%nat.
Proof.
  pose proof (pprod_length (map (fun x => [x; -1]) xs) 1) as H.
  rewrite length_map in H. rewrite Nat.mul_1_r in H. apply H.
  intros c Hc. apply in_map_iff in Hc. destruct Hc as (x & <- & _).
  cbn [length]. lia.
Qed.

(** Another secret and coefficients that give the same values at [xs]. *)
Lemma polynomial_shift p secret secret' (cs : list Z) (xs : list Z) :
  Z.prime p -> (length xs <= length cs)%nat ->
  (forall x, In x xs -> 1 <= x < p) ->
  exists cs', length cs' = length cs
    /\ forall x, In x xs ->
         peval (secret' :: map (fun c => c mod p) cs') x mod p
         = peval (secret :: cs) x mod p.
Proof.
  intros Hp Hlen Hxs.
  pose proof (Z.prime_ge_2 p Hp) as Hp2.
  set (z := pprod (map (fun x => [x; -1]) xs)).
  assert (Hm : Z.coprime (Zprod xs) p).
  { apply Zprod_coprime. intros x Hx. unfold Z.coprime. rewrite Z.gcd_comm.
    apply Z.coprime_prime_l; [assumption|].
    intros Hdiv. specialize (Hxs x Hx).
    apply Z.divide_pos_le in Hdiv; lia. }
  pose proof (Z.invmod_coprime _ _ Hp2 Hm) as Hu.
  set (u := Z.invmod (Zprod xs) p) in *.
  set (k := - ((secret - secret') * u)).
  pose proof (vanishing_length xs) as Hzl. fold z in Hzl.
  remember (padd (secret :: cs) (map (Z.mul k) z)) as g eqn:Eg.
  assert (Hgl : length g = S (length cs)).
  { subst g. rewrite padd_length, length_map. cbn [length]. lia. }
  assert (Hge : forall t, peval g t = peval (secret :: cs) t + k * peval z t).
  { intros t. subst g. now rewrite padd_spec, pscale_spec. }
  destruct g as [|g0 gt]; [discriminate|].
  cbn [length] in Hgl. injection Hgl as Hgl.
  assert (Hg0 : g0 mod p = secret' mod p).
  { pose proof (Hge 0) as H0. cbn [peval] in H0.
    change (peval z 0) with (peval (pprod (map (fun x => [x; -1]) xs)) 0) in H0.
    rewrite vanishing_eval in H0.
    rewrite (map_ext (fun x => x - 0) (fun x => x)) in H0 by (intros; lia).
    rewrite map_id in H0.
    pose proof (Z.div_mod (u * Zprod xs) p ltac:(lia)) as Hdm.
    rewrite Hu in Hdm.
    set (w := u * Zprod xs / p) in *.
    assert (E : g0 = secret - (secret - secret') * (u * Zprod xs))
      by (unfold k in H0; lia).
    replace g0 with (secret' + ((secret' - secret) * w) * p)
      by (rewrite E, Hdm; ring).
    apply Z_mod_plus_full. }
  exists gt. split; [assumption|].
  intros x Hx.
  assert (Hzx : peval z x = 0).
  { unfold z. rewrite vanishing_eval. apply Zprod_zero.
    apply in_map_iff. exists x. split; [lia|assumption]. }
  assert (E : peval (secret :: cs) x = peval (g0 :: gt) x)
    by (rewrite Hge, Hzx; ring).
  rewrite E. cbn [peval].
  rewrite Zplus_mod, (Zplus_mod g0), Hg0.
  rewrite (Zmult_mod x (peval (map _ gt) x)), peval_map_mod, <- Zmult_mod.
  reflexivity.
Qed.

(** X21: up to [degree] shares say nothing about the secret. Over a prime
    field with fewer shares than the field size (and lengths [make]
    accepts), whatever [degree] shares of a sharing one looks at, for every
    other secret there are draws of the random source with which
    [ShareFiniteField] returns the very same shares at those positions. *)
Theorem ShareFiniteField_privacy (secret secret' p d n : Z) (rnd : nat -> Z)
    (sel : list nat) :
  Z.prime p -> 0 <= d -> ptrSize * d <= maxAlloc ->
  0 <= n -> shareSize * n <= maxAlloc -> n < p ->
  Z.of_nat (length sel) <= d ->
  (forall i, In i sel -> Z.of_nat i < n) ->
  exists rnd' shares shares',
    ShareFiniteField secret p d n rnd = Ok shares
    /\ ShareFiniteField secret' p d n rnd' = Ok shares'
    /\ Z.of_nat (length shares) = n
    /\ Z.of_nat (length shares') = n
    /\ forall i, In i sel ->
         exists s, nth_error shares i = Some s /\ nth_error shares' i = Some s.
Proof.
  intros Hp Hd Hda Hn Hna Hnp Hlen Hsel.
  pose proof (Z.prime_ge_2 p Hp) as Hp2.
  set (cs := map (fun j => rnd j mod p) (seq 0 (Z.to_nat d))).
  destruct (polynomial_shift p secret secret' cs (map (fun i => Z.of_nat i + 1) sel))
    as (cs' & Hlen' & Hsame); [assumption| | |].
  { unfold cs. rewrite !length_map, length_seq. lia. }
  { intros x Hx. apply in_map_iff in Hx. destruct Hx as (i & <- & Hi).
    specialize (Hsel i Hi). lia. }
  assert (Hd' : length cs' = Z.to_nat d)
    by (rewrite Hlen'; unfold cs; now rewrite length_map, length_seq).
  exists (fun j => nth j cs' 0). do 2 eexists.
  split; [apply ShareFiniteField_drawn; try assumption; lia|].
  split; [apply ShareFiniteField_drawn; try assumption; lia|].
  split; [rewrite length_map, length_seq; lia|].
  split; [rewrite length_map, length_seq; lia|].
  intros i Hi. specialize (Hsel i Hi).
  exists (fieldShareAt p d (secret :: cs) i).
  rewrite !nth_error_map.
  rewrite (nth_error_nth' _ 0%nat) by (rewrite length_seq; lia).
  rewrite seq_nth by lia. cbn [option_map Nat.add]. split; [reflexivity|].
  f_equal. unfold fieldShareAt. f_equal. f_equal.
  rewrite <- Hd'.
  rewrite (map_ext_in _ (fun j => (fun c => c mod p) (nth (j - 0) cs' 0)))
    by (intros j _; now rewrite Nat.sub_0_r).
  rewrite (map_nth_seq (fun c => c mod p) cs' 0).
  apply Hsame. apply in_map_iff. exists i. split; [reflexivity|assumption].
Qed.

Lemma ShareFiniteField_privacy_witness :
  exists rnd' shares shares',
    ShareFiniteField 123 7919 3 5 rnd_test = Ok shares
    /\ ShareFiniteField 456 7919 3 5 rnd' = Ok shares'
    /\ Z.of_nat (length shares) = 5
    /\ Z.of_nat (length shares') = 5
    /\ forall i, In i [0; 2; 4]%nat ->
         exists s, nth_error shares i = Some s /\ nth_error shares' i = Some s.
Proof.
  apply (ShareFiniteField_privacy 123 456 7919 3 5 rnd_test [0; 2; 4]%nat).
  - exact prime_7919.
  - lia.
  - unfold ptrSize, maxAlloc. lia.
  - lia.
  - unfold shareSize, ptrSize, maxAlloc. lia.
  - lia.
  - cbn [length]. lia.
  - intros i [<-|[<-|[<-|[]]]]; lia.
Defined.

(** * Two shares with the same [x] *)

Lemma fold_left_Ok_inv {A B : Type} (f : outcome A -> B -> outcome A) (l : list B) :
  (forall b, f Panic b = Panic) -> (forall e b, f (Err e) b = Err e) ->
  forall acc r, fold_left f l acc = Ok r ->
  forall b, In b l -> exists a a', f (Ok a) b = Ok a'.
Proof.
  intros HP HE. induction l as [|b0 l IH]; intros acc r H b Hb; [destruct Hb|].
  cbn [fold_left] in H. destruct Hb as [<-|Hb].
  - destruct acc as [a|e|].
    + destruct (f (Ok a) b0) as [a'|e|] eqn:E.
      * eauto.
      * rewrite fold_left_stuck in H by (intros; apply HE). discriminate.
      * rewrite fold_left_stuck in H by assumption. discriminate.
    + rewrite HE, fold_left_stuck in H by (intros; apply HE). discriminate.
    + rewrite HP, fold_left_stuck in H by assumption. discriminate.
  - eapply IH; eassumption.
Qed.

Lemma in_upto_iff d j : In j (upto d) <-> 0 <= j <= d.
Proof.
  split; [apply in_upto|]. intros H. unfold upto. apply in_map_iff.
  exists (Z.to_nat j). split; [lia|]. apply in_seq. lia.
Qed.

Lemma interpolate_duplicate shares d (i j : nat) si sj r :
  nth_error shares i = Some si -> nth_error shares j = Some sj ->
  i <> j -> Z.of_nat i <= d -> Z.of_nat j <= d -> X si = X sj ->
  interpolate shares d = Ok r -> False.
Proof.
  intros Hi Hj Hne Hid Hjd HX H. unfold interpolate in H.
  destruct (fold_left_Ok_inv (interpolateStep shares d) (upto d)
              ltac:(reflexivity) ltac:(reflexivity) _ _ H (Z.of_nat i))
    as (a & a' & Hstep); [apply in_upto_iff; lia|].
  unfold interpolateStep in Hstep. cbn [bind] in Hstep.
  destruct (lagrangeTerm shares d (Z.of_nat i)) as [t|e|] eqn:Et; try discriminate.
  unfold lagrangeTerm in Et. rewrite (index_nth _ _ _ Hi) in Et. cbn [bind] in Et.
  destruct (deref (Y si)) as [y|e|]; try discriminate. cbn [bind] in Et.
  destruct (fold_left_Ok_inv (lagrangeStep shares (Z.of_nat i)) (upto d)
              ltac:(reflexivity) ltac:(reflexivity) _ _ Et (Z.of_nat j))
    as (b & b' & Hstep'); [apply in_upto_iff; lia|].
  unfold lagrangeStep in Hstep'. cbn [bind] in Hstep'.
  destruct (Z.eqb_spec (Z.of_nat i) (Z.of_nat j)); [lia|].
  rewrite (index_nth _ _ _ Hi), (index_nth _ _ _ Hj) in Hstep'.
  cbn [bind] in Hstep'. rewrite HX, Z.sub_diag in Hstep'.
  discriminate.
Qed.

(** X22: two shares with the same [x] among the first [degree+1] make
    [ShareCombine] panic once the three checks are passed: the
    interpolation builds a fraction with denominator [x - x = 0]. *)
Theorem ShareCombine_duplicate_x (s0 : Share) (rest : list Share) (i j : nat)
    (si sj : Share) :
  Degree s0 < Z.of_nat (length (s0 :: rest)) ->
  (forall s, In s rest -> sameParams s0 s) ->
  nth_error (s0 :: rest) i = Some si -> nth_error (s0 :: rest) j = Some sj ->
  i <> j -> Z.of_nat i <= Degree s0 -> Z.of_nat j <= Degree s0 ->
  X si = X sj ->
  ShareCombine (s0 :: rest) = Panic.
Proof.
  intros Hlen Hsame Hi Hj Hne Hid Hjd HX. unfold ShareCombine.
  destruct (Z.leb_spec (Z.of_nat (length (s0 :: rest))) (Degree s0)); [lia|].
  rewrite existsb_mismatch_false by assumption.
  destruct (interpolate (s0 :: rest) (Degree s0)) as [r|e|] eqn:E.
  - exfalso. exact (interpolate_duplicate _ _ i j si sj r Hi Hj Hne Hid Hjd HX E).
  - exfalso. exact (noErr_interpolate _ _ e E).
  - reflexivity.
Qed.

Lemma ShareCombine_duplicate_x_witness :
  ShareCombine (mkShare (Some 7) None 1 3 (Some 2) :: [mkShare (Some 7) None 1 3 (Some 5)])
  = Panic.
Proof.
  apply (ShareCombine_duplicate_x (mkShare (Some 7) None 1 3 (Some 2))
           [mkShare (Some 7) None 1 3 (Some 5)] 0 1
           (mkShare (Some 7) None 1 3 (Some 2)) (mkShare (Some 7) None 1 3 (Some 5))).
  - cbn [Degree length]. lia.
  - intros s [<-|[]]. split; reflexivity.
  - reflexivity.
  - reflexivity.
  - discriminate.
  - cbn [Degree]. lia.
  - cbn [Degree]. lia.
  - reflexivity.
Defined.

(** * Adding integer sharings with different share counts *)

Lemma fact_divide_le n : forall m, (n <= m)%nat -> Nat.divide (fact n) (fact m).
Proof.
  induction m as [|m IH]; intros H.
  - replace n with 0%nat by lia. apply Nat.divide_refl.
  - destruct (Nat.eq_dec n (S m)) as [->|Hne]; [apply Nat.divide_refl|].
    change (fact (S m)) with (S m * fact m)%nat.
    apply Nat.divide_mul_r. apply IH. lia.
Qed.

Lemma factorial_divide_le n m : n <= m -> (factorial n | factorial m).
Proof.
  intros H. rewrite !factorial_of_nat.
  destruct (fact_divide_le (Z.to_nat n) (Z.to_nat m) ltac:(lia)) as [q Hq].
  exists (Z.of_nat q). rewrite Hq. lia.
Qed.

Lemma firstn_seq_le : forall n m s, (n <= m)%nat -> firstn n (seq s m) = seq s n.
Proof.
  induction n as [|n IH]; intros m s H; [reflexivity|].
  destruct m as [|m]; [lia|]. cbn [seq firstn]. f_equal. apply IH. lia.
Qed.

Lemma pointwise_prefix (op : list Share -> outcome Share) (gA gB g : nat -> Share)
    (na nb : nat) :
  (na <= nb)%nat ->
  (forall i, (i < na)%nat -> op [gA i; gB i] = Ok (g i)) ->
  pointwise op (map gA (seq 0 na)) (map gB (seq 0 nb)) = Ok (map g (seq 0 na)).
Proof.
  intros Hle Hop.
  rewrite <- (pointwise_map op gA gB g (seq 0 na))
    by (intros i Hi; apply in_seq in Hi; apply Hop; lia).
  unfold pointwise. f_equal.
  rewrite combine_firstn_l, length_map, length_seq, firstn_map, firstn_seq_le
    by assumption.
  reflexivity.
Qed.

Lemma ShareAdd_int_pair_factors fA fB d cA cB i :
  ShareAdd [intShareAt fA d cA i; intShareAt fB d cB i]
  = Ok (intShareAt fA d (padd cA cB) i).
Proof.
  run_pair. now rewrite padd_spec.
Qed.

(** X23: [ShareAdd] and [ShareCombine] never compare the factors. When a
    sharing of [sA] over [nA] shares and a sharing of [sB] over [nB >= nA]
    shares are added share by share, every call succeeds and the sums
    reconstruct [sA + sB * (nB! / nA!)], which is [sA + sB] only for
    [nA! = nB!]. *)
Theorem ShareAdd_unequal_counts (sA sB B sigma d nA nB : Z) (rndA rndB : nat -> Z)
    (sharesA sharesB : list Share) :
  0 <= d < nA -> nA <= nB -> nB <= max_int ->
  ShareIntegers sA B sigma d nA rndA = Ok sharesA ->
  ShareIntegers sB B sigma d nB rndB = Ok sharesB ->
  exists sums,
    pointwise ShareAdd sharesA sharesB = Ok sums
    /\ ShareCombine sums = Ok (sA + sB * (factorial nB / factorial nA)).
Proof.
  intros Hd Hle Hmax HA HB.
  destruct (ShareIntegers_value sA B sigma d nA rndA sharesA) as (cA & HlA & ->);
    [lia|lia|assumption|].
  destruct (ShareIntegers_value sB B sigma d nB rndB sharesB) as (cB & HlB & ->);
    [lia|lia|assumption|].
  set (fA := factorial nA) in *. set (fB := factorial nB) in *.
  assert (HfA : 0 < fA) by apply factorial_pos.
  set (c := padd (sA * fA :: cA) (sB * fB :: cB)).
  exists (map (intShareAt fA d c) (seq 0 (Z.to_nat nA))). split.
  - apply pointwise_prefix; [lia|]. intros i _. apply ShareAdd_int_pair_factors.
  - destruct (factorial_divide_le nA nB Hle) as [q Hq]. fold fA fB in Hq.
    replace (sA + sB * (fB / fA)) with (peval c 0 / fA).
    + apply (ShareCombine_integers_more _ d fA c).
      * rewrite length_map, length_seq. lia.
      * assumption.
      * unfold c. rewrite padd_length. cbn [length]. lia.
      * rewrite map_map. apply NoDup_map_NoDup_ForallPairs; [|apply seq_NoDup].
        intros a b _ _ Heq. unfold intShareAt in Heq. cbn [X] in Heq. lia.
      * intros s Hs. apply in_map_iff in Hs. destruct Hs as (i & <- & Hi).
        apply in_seq in Hi. unfold onIntegerPoly, intShareAt.
        cbn [FieldSize Factor Degree X Y]. repeat split; lia.
    + unfold c. rewrite padd_spec. cbn [peval]. rewrite Hq.
      rewrite Z.div_mul by lia.
      replace (sA * fA + 0 * peval cA 0 + (sB * (q * fA) + 0 * peval cB 0))
        with ((sA + sB * q) * fA) by ring.
      apply Z.div_mul. lia.
Qed.

Lemma ShareAdd_unequal_counts_witness :
  exists sums,
    pointwise ShareAdd
      [mkShare None (Some 2) 1 1 (Some 7); mkShare None (Some 2) 1 2 (Some 8)]
      [mkShare None (Some 6) 1 1 (Some 31); mkShare None (Some 6) 1 2 (Some 32);
       mkShare None (Some 6) 1 3 (Some 33)]
    = Ok sums
    /\ ShareCombine sums = Ok (3 + 5 * (factorial 3 / factorial 2)).
Proof.
  apply (ShareAdd_unequal_counts 3 5 1 0 1 2 3 (fun _ => 1) (fun _ => 1)).
  - lia.
  - lia.
  - unfold max_int. lia.
  - reflexivity.
  - reflexivity.
Defined.

(** * A negative degree *)

(** X24: [ShareCombine] does not validate the degree: when the first share
    has a negative degree and the others agree with it, no loop iteration
    runs and the result is 0, whatever the shares hold (for a positive
    field size, or over the integers with a non-zero factor). *)
Theorem ShareCombine_negative_degree (s0 : Share) (rest : list Share) :
  Degree s0 < 0 ->
  (forall s, In s rest -> sameParams s0 s) ->
  (forall p, FieldSize s0 = Some p -> 0 < p) ->
  (FieldSize s0 = None -> exists f, Factor s0 = Some f /\ f <> 0) ->
  ShareCombine (s0 :: rest) = Ok 0.
Proof.
  intros Hd Hsame Hp Hf. unfold ShareCombine.
  destruct (Z.leb_spec (Z.of_nat (length (s0 :: rest))) (Degree s0)); [lia|].
  rewrite existsb_mismatch_false by assumption.
  assert (E : interpolate (s0 :: rest) (Degree s0) = Ok (big.Z2Rat 0)).
  { unfold interpolate, upto. replace (Z.to_nat (Degree s0 + 1)) with 0%nat by lia.
    reflexivity. }
  rewrite E. cbn [bind]. rewrite Num_Z2Rat, IsInt_Z2Rat.
  change (big.Denom (big.Z2Rat 0)) with 1.
  destruct (FieldSize s0) as [p|].
  - specialize (Hp p eq_refl). unfold big.ModInverse.
    destruct (Z.ltb_spec p 0); [lia|]. cbn [Z.ltb Z.compare].
    destruct (Z.extgcd 1 p) as [[u v] g] eqn:Eg.
    apply Z.extgcd_correct in Eg. destruct Eg as [_ ->].
    rewrite Z.gcd_1_l. cbn [Z.eqb Pos.eqb deref bind].
    rewrite Z.mul_0_l, Mod_pos by assumption. reflexivity.
  - destruct (Hf eq_refl) as (f & -> & Hf0). cbn [negb deref bind].
    unfold big.Div. destruct (Z.eqb_spec f 0); [contradiction|].
    rewrite Z.rem_0_l, Z.quot_0_l by assumption. reflexivity.
Qed.

Lemma ShareCombine_negative_degree_witness :
  ShareCombine (mkShare (Some 7) None (-1) 1 (Some 5) :: [mkShare (Some 7) None (-1) 2 None])
  = Ok 0.
Proof.
  apply (ShareCombine_negative_degree (mkShare (Some 7) None (-1) 1 (Some 5))
           [mkShare (Some 7) None (-1) 2 None]).
  - cbn [Degree]. lia.
  - intros s [<-|[]]. split; reflexivity.
  - intros p H. injection H as <-. lia.
  - discriminate.
Defined.

(** * The package's tests, run on a fixed random source *)

Example TestShamirSecretSharing :
  ShareCombine [] = Err ErrorNoShares
  /\ (shares <- ShareFiniteField 123 7919 3 5 rnd_test ;;
      ShareCombine (firstn 3 shares)) = Err ErrorTooFewShares
  /\ (shares <- ShareFiniteField 123 7919 3 5 rnd_test ;;
      ShareCombine (firstn 4 shares)) = Ok 123
  /\ (shares <- ShareFiniteField 123 7919 3 5 rnd_test ;;
      ShareCombine (skipn 1 shares)) = Ok 123.
Proof. vm_compute. repeat split; reflexivity. Qed.

Example TestShamirSecretAddition :
  (shares1 <- ShareFiniteField 123 7919 3 4 rnd_test ;;
   shares2 <- ShareFiniteField 456 7919 3 4 (fun k => rnd_test (k + 7)) ;;
   sums <- pointwise ShareAdd shares1 shares2 ;;
   ShareCombine sums) = Ok 579.
Proof. vm_compute. reflexivity. Qed.

Example TestShamirSecretMultiplication :
  (shares1 <- ShareFiniteField (-123) 7919 2 5 rnd_test ;;
   shares2 <- ShareFiniteField 456 7919 2 5 (fun k => rnd_test (k + 7)) ;;
   prods <- pointwise ShareMul shares1 shares2 ;;
   ShareCombine prods) = Ok ((-123 * 456) mod 7919).
Proof. vm_compute. reflexivity. Qed.

Example TestIntegerSecretSharing :
  (shares <- ShareIntegers 123 10000 100 3 5 rnd_test ;;
   ShareCombine (firstn 3 shares)) = Err ErrorTooFewShares
  /\ (shares <- ShareIntegers 123 10000 100 3 5 rnd_test ;;
      ShareCombine (firstn 4 shares)) = Ok 123
  /\ (shares <- ShareIntegers 123 10000 100 3 5 rnd_test ;;
      ShareCombine (skipn 1 shares)) = Ok 123.
Proof. vm_compute. repeat split; reflexivity. Qed.

Example TestIntegerSecretAddition :
  (shares1 <- ShareIntegers 123 10000 100 3 4 rnd_test ;;
   shares2 <- ShareIntegers 456 10000 100 3 4 (fun k => rnd_test (k + 7)) ;;
   sums <- pointwise ShareAdd shares1 shares2 ;;
   ShareCombine sums) = Ok 579.
Proof. vm_compute. reflexivity. Qed.

Example TestIntegerSecretMultiplication :
  (shares1 <- ShareIntegers (-123) 10000 100 2 5 rnd_test ;;
   shares2 <- ShareIntegers 456 10000 100 2 5 (fun k => rnd_test (k + 7)) ;;
   prods <- pointwise ShareMul shares1 shares2 ;;
   ShareCombine prods) = Ok (-123 * 456).
Proof. vm_compute. reflexivity. Qed.

Example TestErrors :
  ShareAdd [] = Err ErrorNoShares
  /\ ShareMul [] = Err ErrorNoShares
  /\ (shares1 <- ShareFiniteField (-123) 1234 2 5 rnd_test ;;
      shares2 <- ShareFiniteField 456 7919 2 5 (fun k => rnd_test (k + 7)) ;;
      pointwise ShareAdd shares1 shares2) = Err ErrorIncompatibleShares
  /\ (shares1 <- ShareFiniteField (-123) 1234 2 5 rnd_test ;;
      shares2 <- ShareFiniteField 456 7919 2 5 (fun k => rnd_test (k + 7)) ;;
      pointwise ShareMul shares1 shares2) = Err ErrorIncompatibleShares
  /\ (shares1 <- ShareFiniteField (-123) 1234 2 5 rnd_test ;;
      match shares1 with
      | s0 :: rest =>
          ShareCombine (mkShare None (Factor s0) (Degree s0) (X s0) (Y s0) :: rest)
      | [] => Panic
      end) = Err ErrorIncompatibleShares
  /\ (shares3 <- ShareIntegers 456 7919 100 2 5 rnd_test ;;
      match shares3 with
      | s0 :: rest => ShareCombine (setX s0 500 :: rest)
      | [] => Panic
      end) = Err ErrorFractionalSecret.
Proof. vm_compute. repeat split; reflexivity. Qed.
